(** * ResumeRAG matching and search engine: a shallow embedding

    The development follows [backend/src/utils/embeddings.ts] (hasher,
    embedder, cosine similarity, PII scanner and redaction, semantic search)
    and the match handler of [backend/src/routes/jobs.ts].

    Modelling decisions.
    - A JavaScript string is a sequence of UTF-16 code units.  The model uses
      [string] (one [ascii] per code unit), i.e. the strings all of whose code
      units are below 256; [toLowerCase], [trim] and the class [\s] are exact
      on that range.
    - A JavaScript [number] is an IEEE-754 binary64 value: the model uses the
      kernel's primitive [float].  The embedder and the similarity scorer are
      written once over a small interface [Num], instantiated at [float] (the
      program) and at [R] (the exact arithmetic the unit-norm property speaks
      about).  What the program computes on doubles is derived from the
      kernel's specification of the primitive operations ([SpecFloat]): the
      last part of the file proves that each operation rounds to nearest on
      the numbers the embedder meets, and bounds the rounding error of the
      normalisation.
    - Integers that the program keeps in the int32 range are [Z] with the
      wrap-around written out. *)

From Stdlib Require Import ZArith List String Ascii Bool Lia.
From Stdlib Require Import DecimalString.
From Stdlib Require Import Uint63 Floats.
From Stdlib Require Import Reals Lra.
From Stdlib Require Import FunctionalExtensionality Permutation.
Import ListNotations.

Local Open Scope string_scope.
Local Open Scope Z_scope.

Set Warnings "-inexact-float".

(** ** JavaScript strings *)

Module JsString.

Definition charCode (c : ascii) : Z := Z.of_N (N_of_ascii c).

Definition fromCode (z : Z) : ascii := ascii_of_N (Z.to_N z).

(** [String.prototype.toLowerCase] on code units below 256: A-Z and the
    Latin-1 capitals U+00C0..U+00DE (U+00D7 excepted) move up by 32.  On
    this range lower-casing keeps every position; beyond it the language
    may lengthen a string (U+0130 becomes two code units), so nothing
    stated about the program carries a position from the lower-cased text
    over to the original one. *)
Definition lowerChar (c : ascii) : ascii :=
  let n := charCode c in
  if ((65 <=? n) && (n <=? 90)) || ((192 <=? n) && (n <=? 222) && negb (n =? 215))
  then fromCode (n + 32) else c.

Fixpoint toLowerCase (s : string) : string :=
  match s with
  | EmptyString => EmptyString
  | String c s' => String (lowerChar c) (toLowerCase s')
  end.

(** White space and line terminators ([\s], and what [trim] strips). *)
Definition isSpace (c : ascii) : bool :=
  let n := charCode c in
  ((9 <=? n) && (n <=? 13)) || (n =? 32) || (n =? 160).

Fixpoint trimStart (s : string) : string :=
  match s with
  | EmptyString => EmptyString
  | String c s' => if isSpace c then trimStart s' else s
  end.

Fixpoint rev_acc (s acc : string) : string :=
  match s with
  | EmptyString => acc
  | String c s' => rev_acc s' (String c acc)
  end.

Definition rev (s : string) : string := rev_acc s EmptyString.

Definition trim (s : string) : string := rev (trimStart (rev (trimStart s))).

(** Decimal rendering of an array index, as [word + index] produces it. *)
Definition ofIndex (i : nat) : string := NilEmpty.string_of_uint (Nat.to_uint i).

(** [s.startsWith(w)] *)
Fixpoint startsWith (w s : string) : bool :=
  match w, s with
  | EmptyString, _ => true
  | String a w', String b s' => Ascii.eqb a b && startsWith w' s'
  | String _ _, EmptyString => false
  end.

(** [s.indexOf(w)]: the least position at which [w] occurs, [None] for -1. *)
Fixpoint indexOf (w s : string) : option nat :=
  if startsWith w s then Some 0%nat
  else match s with
       | EmptyString => None
       | String _ s' => option_map S (indexOf w s')
       end.

(** [s.includes(w)] *)
Definition includes (w s : string) : bool :=
  match indexOf w s with Some _ => true | None => false end.

Fixpoint skipn (n : nat) (s : string) : string :=
  match n, s with
  | O, _ => s
  | S n', String _ s' => skipn n' s'
  | S _, EmptyString => EmptyString
  end.

Fixpoint firstn (n : nat) (s : string) : string :=
  match n, s with
  | S n', String c s' => String c (firstn n' s')
  | _, _ => EmptyString
  end.

(** [s.substring(i, j)] for [0 <= i <= j]; positions past the end clip. *)
Definition substring (i j : nat) (s : string) : string :=
  firstn (j - i) (skipn i s).

(** [parts.join(sep)] *)
Fixpoint join (sep : string) (parts : list string) : string :=
  match parts with
  | [] => EmptyString
  | [p] => p
  | p :: rest => p ++ sep ++ join sep rest
  end.

(** [s.split(/\s+/)]: a maximal run of white space ends the current token;
    a run at the very start or end leaves an empty token there, and the
    empty string gives one empty token. *)
Fixpoint splitSpaces_from (s cur : string) : list string :=
  match s with
  | EmptyString => [rev cur]
  | String c s' =>
      if isSpace c then
        match s' with
        | String c' _ =>
            if isSpace c' then splitSpaces_from s' cur
            else rev cur :: splitSpaces_from s' EmptyString
        | EmptyString => rev cur :: splitSpaces_from s' EmptyString
        end
      else splitSpaces_from s' (String c cur)
  end.

Definition splitSpaces (s : string) : list string := splitSpaces_from s EmptyString.

(** [s.split(/[,:;]/)] and the like: every separator character ends a
    token (no runs), so [n] separators give [n + 1] tokens. *)
Fixpoint splitChars_from (sep : ascii -> bool) (s cur : string) : list string :=
  match s with
  | EmptyString => [rev cur]
  | String c s' =>
      if sep c then rev cur :: splitChars_from sep s' EmptyString
      else splitChars_from sep s' (String c cur)
  end.

Definition splitChars (sep : ascii -> bool) (s : string) : list string :=
  splitChars_from sep s EmptyString.

End JsString.

(** ** Hasher: [simpleHash] *)

(** [ToInt32]: reduction to the signed 32-bit range. *)
Definition toInt32 (z : Z) : Z := (z + 2 ^ 31) mod 2 ^ 32 - 2 ^ 31.

(** One round of the loop body:
    [hash = ((hash << 5) - hash) + char; hash = hash & hash]. *)
Definition hashStep (hash char : Z) : Z :=
  let hash1 := (toInt32 (Z.shiftl (toInt32 hash) 5) - hash) + char in
  toInt32 (Z.land hash1 hash1).

Fixpoint hashLoop (str : string) (hash : Z) : Z :=
  match str with
  | EmptyString => hash
  | String c rest => hashLoop rest (hashStep hash (JsString.charCode c))
  end.

Definition simpleHash (str : string) : Z := Z.abs (hashLoop str 0).

(** ** Numbers *)

(** The arithmetic the embedder and the scorer use. *)
Class Num (T : Type) : Type := {
  nzero : T;
  nadd : T -> T -> T;
  nmul : T -> T -> T;
  ndiv : T -> T -> T;
  nsqrt : T -> T;
  nofZ : Z -> T
}.

(** Integers of magnitude below 2^53 convert exactly. *)
Definition floatOfZ (z : Z) : float :=
  if z <? 0 then PrimFloat.opp (PrimFloat.of_uint63 (Uint63.of_Z (- z)))
  else PrimFloat.of_uint63 (Uint63.of_Z z).

#[export] Instance floatNum : Num float := {
  nzero := 0%float;
  nadd := PrimFloat.add;
  nmul := PrimFloat.mul;
  ndiv := PrimFloat.div;
  nsqrt := PrimFloat.sqrt;
  nofZ := floatOfZ
}.

#[export] Instance realNum : Num R := {
  nzero := 0%R;
  nadd := Rplus;
  nmul := Rmult;
  ndiv := Rdiv;
  nsqrt := sqrt;
  nofZ := IZR
}.

(** ** Embedder and similarity scorer *)

Section Embedding.

Context {T : Type} `{Num T}.

(** [embedding[dimension] += normalized] *)
Fixpoint addAt (dimension : nat) (normalized : T) (embedding : list T) : list T :=
  match embedding, dimension with
  | [], _ => []
  | x :: rest, O => nadd x normalized :: rest
  | x :: rest, S d => x :: addAt d normalized rest
  end.

Definition dimensions : nat := 384.

(** The body of [words.forEach((word, index) => ...)]. *)
Definition accumulateWord (embedding : list T) (word : string) (index : nat) : list T :=
  let hash := simpleHash (word ++ JsString.ofIndex index) in
  let normalized := ndiv (nofZ (Z.rem hash 1000)) (nofZ 1000) in
  let dimension := Z.to_nat (Z.rem hash (Z.of_nat (List.length embedding))) in
  addAt dimension normalized embedding.

Fixpoint accumulateFrom (words : list string) (index : nat) (embedding : list T) : list T :=
  match words with
  | [] => embedding
  | word :: rest => accumulateFrom rest (S index) (accumulateWord embedding word index)
  end.

Definition words (text : string) : list string :=
  JsString.splitSpaces (JsString.toLowerCase text).

(** The vector before normalisation. *)
Definition accumulated (text : string) : list T :=
  accumulateFrom (words text) 0 (repeat nzero dimensions).

Definition sumSquares (v : list T) : T :=
  fold_left (fun sum val => nadd sum (nmul val val)) v nzero.

Definition magnitude (v : list T) : T := nsqrt (sumSquares v).

Definition normalize (v : list T) : list T :=
  let m := magnitude v in map (fun val => ndiv val m) v.

Definition generateMockEmbedding (text : string) : list T :=
  normalize (accumulated text).

(** The loop of [cosineSimilarity], over two arrays of one length. *)
Fixpoint cosineLoop (a b : list T) (dotProduct normA normB : T) : T * T * T :=
  match a, b with
  | x :: a', y :: b' =>
      cosineLoop a' b' (nadd dotProduct (nmul x y)) (nadd normA (nmul x x))
                 (nadd normB (nmul y y))
  | _, _ => (dotProduct, normA, normB)
  end.

Definition cosineSimilarity (a b : list T) : T :=
  if negb (Nat.eqb (List.length a) (List.length b)) then nzero
  else
    let '(dotProduct, normA, normB) := cosineLoop a b nzero nzero nzero in
    ndiv dotProduct (nmul (nsqrt normA) (nsqrt normB)).

End Embedding.

Definition isNaN (x : float) : bool := negb (PrimFloat.eqb x x).



(** ** Regular expressions

    The fragment of ECMAScript regular expressions the PII scanner uses, with
    the backtracking semantics of the language: alternatives are tried left
    to right, quantifiers are greedy, and the first success in that order is
    the match. *)

Module Regex.

Inductive regex : Type :=
| Chr (cls : ascii -> bool)                      (* one character of a class *)
| Eps                                            (* the empty pattern *)
| Cat (r1 r2 : regex)                            (* r1 r2 *)
| Alt (r1 r2 : regex)                            (* r1|r2 *)
| Rep (min : nat) (max : option nat) (r : regex) (* r{min,max}, greedy *)
| WordB.                                         (* \b *)

Definition inRange (lo hi : Z) (c : ascii) : bool :=
  let n := JsString.charCode c in (lo <=? n) && (n <=? hi).

Definition isUpper : ascii -> bool := inRange 65 90.
Definition isLower : ascii -> bool := inRange 97 122.
Definition isDigit : ascii -> bool := inRange 48 57.

(** [\w] *)
Definition isWordChar (c : ascii) : bool :=
  isUpper c || isLower c || isDigit c || Ascii.eqb c "_".

Definition oneOf (chars : string) (c : ascii) : bool :=
  JsString.includes (String c EmptyString) chars.

(** [.]: any character but a line terminator. *)
Definition dot (c : ascii) : bool :=
  negb ((JsString.charCode c =? 10) || (JsString.charCode c =? 13)).

Definition lit (c : ascii) : regex := Chr (Ascii.eqb c).
Definition plus (r : regex) : regex := Rep 1 None r.
Definition opt (r : regex) : regex := Rep 0 (Some 1%nat) r.
Definition times (n : nat) (r : regex) : regex := Rep n (Some n) r.
Definition atLeast (n : nat) (r : regex) : regex := Rep n None r.

Fixpoint seq (rs : list regex) : regex :=
  match rs with
  | [] => Eps
  | [r] => r
  | r :: rest => Cat r (seq rest)
  end.

Definition isWordAt (c : option ascii) : bool :=
  match c with Some c => isWordChar c | None => false end.

Definition headChar (s : string) : option ascii :=
  match s with String c _ => Some c | EmptyString => None end.

(** [run r prev s k]: match [r] at the front of [s], the character before
    which is [prev], and hand every way of doing so to the continuation [k]
    in backtracking order, stopping at the first that [k] accepts.  A
    quantifier iterates at most [min + length s] times, since an iteration
    past the minimum that consumes nothing is rejected. *)
Fixpoint run {A : Type} (r : regex) (prev : option ascii) (s : string)
         (k : option ascii -> string -> option A) {struct r} : option A :=
  match r with
  | Chr cls =>
      match s with
      | String c s' => if cls c then k (Some c) s' else None
      | EmptyString => None
      end
  | Eps => k prev s
  | Cat r1 r2 => run r1 prev s (fun prev' s' => run r2 prev' s' k)
  | Alt r1 r2 =>
      match run r1 prev s k with
      | Some x => Some x
      | None => run r2 prev s k
      end
  | Rep min max r' =>
      (fix repeat (n min : nat) (max : option nat) (prev : option ascii) (s : string)
           {struct n} : option A :=
         match n with
         | O => None
         | S n' =>
             match max with
             | Some O => k prev s
             | _ =>
                 let again :=
                   run r' prev s
                       (fun prev' s' =>
                          if Nat.eqb min 0 && Nat.eqb (String.length s') (String.length s)
                          then None
                          else repeat n' (Nat.pred min) (option_map Nat.pred max) prev' s') in
                 if negb (Nat.eqb min 0) then again
                 else match again with
                      | Some x => Some x
                      | None => k prev s
                      end
             end
         end) (S (min + String.length s)) min max prev s
  | WordB =>
      if xorb (isWordAt prev) (isWordAt (headChar s)) then k prev s else None
  end.

(** The match of [r] starting exactly here, as the text left after it. *)
Definition matchHere (r : regex) (prev : option ascii) (s : string) : option string :=
  run r prev s (fun _ rest => Some rest).

(** [text.match(re)] for a global [re]: the matched substrings, left to
    right, without overlap; after an empty match the scan moves on by one
    character.  [skip] counts the characters still inside the last match. *)
Fixpoint matchAll_from (r : regex) (prev : option ascii) (s : string) (skip : nat)
  {struct s} : list string :=
  match skip with
  | S skip' =>
      match s with
      | String c rest => matchAll_from r (Some c) rest skip'
      | EmptyString => []
      end
  | O =>
      match matchHere r prev s with
      | Some after =>
          let len := (String.length s - String.length after)%nat in
          JsString.firstn len s ::
            match s with
            | String c rest => matchAll_from r (Some c) rest (len - 1)
            | EmptyString => []
            end
      | None =>
          match s with
          | String c rest => matchAll_from r (Some c) rest 0
          | EmptyString => []
          end
      end
  end.

Definition matchAll (r : regex) (text : string) : list string :=
  matchAll_from r None text 0.

(** [text.replace(re, replacement)] for a global [re] and a replacement
    without [$]. *)
Fixpoint replaceAll_from (r : regex) (replacement : string) (prev : option ascii)
         (s : string) (skip : nat) {struct s} : string :=
  match skip with
  | S skip' =>
      match s with
      | String c rest => replaceAll_from r replacement (Some c) rest skip'
      | EmptyString => EmptyString
      end
  | O =>
      match matchHere r prev s with
      | Some after =>
          let len := (String.length s - String.length after)%nat in
          (replacement ++
            match s with
            | String c rest =>
                if Nat.eqb len 0
                then String c (replaceAll_from r replacement (Some c) rest 0)
                else replaceAll_from r replacement (Some c) rest (len - 1)
            | EmptyString => EmptyString
            end)%string
      | None =>
          match s with
          | String c rest => String c (replaceAll_from r replacement (Some c) rest 0)
          | EmptyString => EmptyString
          end
      end
  end.

Definition replaceAll (r : regex) (replacement text : string) : string :=
  replaceAll_from r replacement None text 0.

(** *** [new RegExp(pattern)]

    The pattern syntax read here: ordinary characters, [.], the postfix
    [+], [|], and a backslash before a syntax character.  That covers every
    string the email and phone expressions of [extractPII] can return, raw
    or escaped. *)

Inductive compiled : Type :=
| Compiled (r : regex)
| SyntaxError          (* the constructor throws *)
| Unsupported.         (* pattern syntax outside the fragment above *)

(** SyntaxCharacter *)
Definition isSyntaxChar : ascii -> bool := oneOf "^$\.*+?()[]{}|".

Definition flush (done : regex) (pending : option regex) : regex :=
  match pending with
  | Some atom => Cat done atom
  | None => done
  end.

Definition close (left : option regex) (r : regex) : regex :=
  match left with
  | Some l => Alt l r
  | None => r
  end.

(** [left]: the alternatives already read; [done]: the terms of the current
    alternative; [pending]: the last atom, which a quantifier may still
    follow. *)
Fixpoint parse (p : string) (left : option regex) (done : regex)
         (pending : option regex) {struct p} : compiled :=
  match p with
  | EmptyString => Compiled (close left (flush done pending))
  | String c rest =>
      if Ascii.eqb c "|" then
        parse rest (Some (close left (flush done pending))) Eps None
      else if Ascii.eqb c "+" then
        match pending with
        | Some atom => parse rest left (Cat done (plus atom)) None
        | None => SyntaxError
        end
      else if Ascii.eqb c "." then
        parse rest left (flush done pending) (Some (Chr dot))
      else if Ascii.eqb c "\" then
        match rest with
        | String c2 rest2 =>
            if isSyntaxChar c2 || Ascii.eqb c2 "/"
            then parse rest2 left (flush done pending) (Some (lit c2))
            else Unsupported
        | EmptyString => SyntaxError
        end
      else if isSyntaxChar c then Unsupported
      else parse rest left (flush done pending) (Some (lit c))
  end.

Definition compile (pattern : string) : compiled := parse pattern None Eps None.

End Regex.

(** ** PII scanner *)

Record PIIData : Type := {
  emails : option (list string);
  phones : option (list string);
  names : option (list string)
}.

Import Regex.

(** [/\b[A-Za-z0-9._%+-]+@[A-Za-z0-9.-]+\.[A-Z|a-z]{2,}\b/g] *)
Definition emailRegex : regex :=
  let alnum c := isUpper c || isLower c || isDigit c in
  seq [ WordB;
        plus (Chr (fun c => alnum c || oneOf "._%+-" c));
        lit "@";
        plus (Chr (fun c => alnum c || oneOf ".-" c));
        lit ".";
        atLeast 2 (Chr (fun c => isUpper c || Ascii.eqb c "|" || isLower c));
        WordB ].

(** [/(\+?1[-.\s]?)?\(?([0-9]{3})\)?[-.\s]?([0-9]{3})[-.\s]?([0-9]{4})/g] *)
Definition phoneRegex : regex :=
  let sep := Chr (fun c => oneOf "-." c || JsString.isSpace c) in
  seq [ opt (seq [opt (lit "+"); lit "1"; opt sep]);
        opt (lit "(");
        times 3 (Chr isDigit);
        opt (lit ")");
        opt sep;
        times 3 (Chr isDigit);
        opt sep;
        times 4 (Chr isDigit) ].

(** [/\b[A-Z][a-z]+ [A-Z][a-z]+\b/g] *)
Definition nameRegex : regex :=
  seq [ WordB; Chr isUpper; plus (Chr isLower); lit " ";
        Chr isUpper; plus (Chr isLower); WordB ].

Definition memString (x : string) (l : list string) : bool :=
  existsb (String.eqb x) l.

(** [[...new Set(xs)]]: first occurrences, in order. *)
Fixpoint uniqueFrom (seen xs : list string) : list string :=
  match xs with
  | [] => []
  | x :: rest =>
      if memString x seen then uniqueFrom seen rest
      else x :: uniqueFrom (x :: seen) rest
  end.

Definition unique (xs : list string) : list string := uniqueFrom [] xs.

Definition extractPII (text : string) : PIIData :=
  {| emails := Some (unique (matchAll emailRegex text));
     phones := Some (unique (matchAll phoneRegex text));
     names := Some (unique (matchAll nameRegex text)) |}.

(** ** Redaction *)

(** What a call does: return a value, throw, or leave the modelled fragment
    of the pattern syntax. *)
Inductive outcome (A : Type) : Type :=
| Returns (a : A)
| Throws
| Unmodelled.

Arguments Returns {A} a.
Arguments Throws {A}.
Arguments Unmodelled {A}.

(** [text.replace(new RegExp(pattern, 'g'), replacement)] *)
Definition replaceRegExp (pattern replacement text : string) : outcome string :=
  match compile pattern with
  | Compiled r => Returns (replaceAll r replacement text)
  | SyntaxError => Throws
  | Unsupported => Unmodelled
  end.

(** [phone.replace(/[.*+?^${}()|[\]\\]/g, '\\$&')] *)
Fixpoint escapeRegExp (s : string) : string :=
  match s with
  | EmptyString => EmptyString
  | String c rest =>
      if oneOf ".*+?^${}()|[]\" c
      then String "\" (String c (escapeRegExp rest))
      else String c (escapeRegExp rest)
  end.

(** [xs?.forEach(x => { redactedText = step(x, redactedText) })] *)
Fixpoint forEachRedact (step : string -> string -> outcome string)
         (xs : list string) (redactedText : string) : outcome string :=
  match xs with
  | [] => Returns redactedText
  | x :: rest =>
      match step x redactedText with
      | Returns redactedText' => forEachRedact step rest redactedText'
      | Throws => Throws
      | Unmodelled => Unmodelled
      end
  end.

Definition optionalList (xs : option (list string)) : list string :=
  match xs with Some l => l | None => [] end.

Definition redactEmail (email redactedText : string) : outcome string :=
  replaceRegExp email "[EMAIL REDACTED]" redactedText.

Definition redactPhone (phone redactedText : string) : outcome string :=
  replaceRegExp (escapeRegExp phone) "[PHONE REDACTED]" redactedText.

Definition redactPII (text : string) (pii : PIIData) : outcome string :=
  match forEachRedact redactEmail (optionalList (emails pii)) text with
  | Returns redactedText =>
      forEachRedact redactPhone (optionalList (phones pii)) redactedText
  | Throws => Throws
  | Unmodelled => Unmodelled
  end.

(** ** Arrays and [Math] on numbers *)

(** [xs.slice(0, end)] for an integral [end]: a negative [end] counts from
    the back. *)
Definition slice0 {A : Type} (fin : Z) (xs : list A) : list A :=
  let len := Z.of_nat (List.length xs) in
  let final := if fin <? 0 then Z.max (len + fin) 0 else Z.min fin len in
  firstn (Z.to_nat final) xs.

(** [xs.sort(compare)]: [compare a b > 0] puts [a] after [b]; any other
    result, NaN included, leaves the two as they stand.  The sort is stable;
    the model is the stable insertion sort, which is what every stable sort
    returns when [compare] is a consistent ordering, and what the engine
    returns for at most two entries under a comparator by subtraction.  Where [compare] returns NaN among
    three entries or more the engine may arrange them otherwise: what is
    proved of a sorted list below either excludes such inputs or holds of
    every arrangement (membership, counts, lengths). *)
Fixpoint insertBy {A : Type} (compare : A -> A -> float) (x : A) (sorted : list A) : list A :=
  match sorted with
  | [] => [x]
  | y :: rest =>
      if PrimFloat.ltb 0 (compare x y) then y :: insertBy compare x rest
      else x :: y :: rest
  end.

Fixpoint sortBy {A : Type} (compare : A -> A -> float) (xs : list A) : list A :=
  match xs with
  | [] => []
  | x :: rest => insertBy compare x (sortBy compare rest)
  end.

Definition isNegZero (x : float) : bool :=
  match PrimFloat.classify x with
  | FloatClass.NZero => true
  | _ => false
  end.

(** [Math.min(a, b)] and [Math.max(a, b)]: NaN if either is NaN; -0 is below
    +0. *)
Definition Math_min (a b : float) : float :=
  if isNaN a || isNaN b then PrimFloat.nan
  else if PrimFloat.ltb a b then a
  else if PrimFloat.ltb b a then b
  else if isNegZero a then a else b.

Definition Math_max (a b : float) : float :=
  if isNaN a || isNaN b then PrimFloat.nan
  else if PrimFloat.ltb a b then b
  else if PrimFloat.ltb b a then a
  else if isNegZero a then b else a.

(** ** Semantic retriever: [semanticSearch] *)

Record resume : Type := {
  id : string;
  text : string;
  embedding : list float
}.

(** An element of the result; its [text] field is [hit_text] here. *)
Record hit : Type := {
  resume_id : string;
  hit_text : string;
  score : float
}.

Definition toHit (queryEmbedding : list float) (r : resume) : hit :=
  let similarity := cosineSimilarity queryEmbedding (embedding r) in
  {| resume_id := id r;
     hit_text := JsString.substring 0 500 (text r);
     score := similarity |}.

(** [(a, b) => b.score - a.score] *)
Definition byScoreDesc (a b : hit) : float := PrimFloat.sub (score b) (score a).

(** [result => result.score > 0.1] *)
Definition aboveThreshold (h : hit) : bool := PrimFloat.ltb 0.1 (score h).

(** The tail of [semanticSearch]: [results.sort(..).slice(0, k).filter(..)]. *)
Definition rankHits (results : list hit) (k : Z) : list hit :=
  filter aboveThreshold (slice0 k (sortBy byScoreDesc results)).

Definition semanticSearch (query : string) (resumes : list resume) (k : Z) : list hit :=
  let queryEmbedding := generateMockEmbedding query in
  let results := map (toHit queryEmbedding) resumes in
  rankHits results k.

(** ** Job matcher: the handler of [POST /api/jobs/:id/match] *)

(** [requirements] is a JSON column: [None] stands for a value that is not
    an array. *)
Record job : Type := {
  title : string;
  description : string;
  requirements : option (list string)
}.

Record user : Type := {
  name : string;
  email : string
}.

Record candidateResume : Type := {
  cr_id : string;
  cr_filename : string;
  cr_text : string;
  cr_embedding : list float;
  cr_user : user
}.

Record candidate : Type := {
  c_resume_id : string;
  candidate_name : string;
  candidate_email : string;
  resume_filename : string;
  match_score : float;
  evidence_snippets : list string;
  missing_requirements : list string
}.

(** [Array.isArray(job.requirements) ? job.requirements.map(String) : []] *)
Definition requirementsArray (j : job) : list string :=
  match requirements j with Some l => l | None => [] end.

(** The same, lower-cased. *)
Definition jobRequirements (j : job) : list string :=
  map JsString.toLowerCase (requirementsArray j).

Definition jobText (j : job) : string :=
  (title j ++ " " ++ description j ++ " " ++ JsString.join " " (requirementsArray j))%string.

(** [requirement.split(/[,:;]/).map(word => word.trim().toLowerCase())] *)
Definition requirementWords (requirement : string) : list string :=
  map (fun word => JsString.toLowerCase (JsString.trim word))
      (JsString.splitChars (oneOf ",:;") requirement).

(** [word.length > 2 && resumeText.includes(word)] *)
Definition wordFound (resumeText word : string) : bool :=
  (2 <? String.length word)%nat && JsString.includes word resumeText.

(** The context pushed for a matched word. *)
Definition contextOf (originalText resumeText word : string) : string :=
  let index := match JsString.indexOf word resumeText with
               | Some i => Z.of_nat i
               | None => -1
               end in
  let start := Z.max 0 (index - 100) in
  let fin := Z.min (Z.of_nat (String.length resumeText))
                   (index + Z.of_nat (String.length word) + 100) in
  JsString.substring (Z.to_nat start) (Z.to_nat fin) originalText.

(** The [for (const word of requirementWords)] loop: the snippet of the
    first word found, if any. *)
Fixpoint firstEvidence (originalText resumeText : string) (ws : list string) : option string :=
  match ws with
  | [] => None
  | word :: rest =>
      if wordFound resumeText word then Some (contextOf originalText resumeText word)
      else firstEvidence originalText resumeText rest
  end.

(** One round of [jobRequirements.forEach]: the two arrays after it. *)
Definition scanRequirement (originalText resumeText : string)
           (state : list string * list string) (requirement : string)
  : list string * list string :=
  let '(evidenceSnippets, missingRequirements) := state in
  match firstEvidence originalText resumeText (requirementWords requirement) with
  | Some snippet => ((evidenceSnippets ++ [snippet])%list, missingRequirements)
  | None => (evidenceSnippets, (missingRequirements ++ [requirement])%list)
  end.

(** [evidenceSnippets] and [missingRequirements] after the whole loop. *)
Definition scanRequirements (originalText : string) (reqs : list string)
  : list string * list string :=
  let resumeText := JsString.toLowerCase originalText in
  fold_left (scanRequirement originalText resumeText) reqs ([], []).

Definition keywordScoreOf (totalRequirements matchedRequirements : Z) : float :=
  PrimFloat.mul (PrimFloat.div (floatOfZ matchedRequirements) (floatOfZ totalRequirements)) 100.

Definition combinedScoreOf (similarity keywordScore : float) : float :=
  PrimFloat.add (PrimFloat.mul (PrimFloat.mul similarity 100) 0.3)
                (PrimFloat.mul keywordScore 0.7).

Definition clampScore (combinedScore : float) : float :=
  Math_max 0 (Math_min 100 combinedScore).

Definition matchResume (j : job) (jobEmbedding : list float) (r : candidateResume) : candidate :=
  let similarity := cosineSimilarity jobEmbedding (cr_embedding r) in
  let '(evidenceSnippets, missingRequirements) :=
    scanRequirements (cr_text r) (jobRequirements j) in
  let totalRequirements := Z.of_nat (List.length (jobRequirements j)) in
  let matchedRequirements := totalRequirements - Z.of_nat (List.length missingRequirements) in
  let keywordScore := keywordScoreOf totalRequirements matchedRequirements in
  let combinedScore := combinedScoreOf similarity keywordScore in
  {| c_resume_id := cr_id r;
     candidate_name := name (cr_user r);
     candidate_email := email (cr_user r);
     resume_filename := cr_filename r;
     match_score := clampScore combinedScore;
     evidence_snippets := slice0 3 evidenceSnippets;
     missing_requirements := slice0 5 missingRequirements |}.

(** [(a, b) => b.match_score - a.match_score] *)
Definition byMatchScoreDesc (a b : candidate) : float :=
  PrimFloat.sub (match_score b) (match_score a).

Definition matchResumes (j : job) (resumes : list candidateResume) (top_n : Z) : list candidate :=
  let jobEmbedding := generateMockEmbedding (jobText j) in
  let matches := map (matchResume j jobEmbedding) resumes in
  slice0 top_n (sortBy byMatchScoreDesc matches).

(** ** Sample data *)

Definition caseResume : candidateResume :=
  {| cr_id := "r1"; cr_filename := "cv.pdf"; cr_text := "case";
     cr_embedding := generateMockEmbedding "case";
     cr_user := {| name := "Ann"; email := "ann@example.com" |} |}.

(** The same resume as it comes back from the JSON column. *)
Definition caseResumeStored : candidateResume :=
  {| cr_id := "r1"; cr_filename := "cv.pdf"; cr_text := "case";
     cr_embedding := repeat 0%float 384;
     cr_user := {| name := "Ann"; email := "ann@example.com" |} |}.

Definition reactResume : candidateResume :=
  {| cr_id := "r2"; cr_filename := "cv.pdf";
     cr_text := "I have 5 years of React experience";
     cr_embedding := generateMockEmbedding "I have 5 years of React experience";
     cr_user := {| name := "Bob"; email := "bob@example.com" |} |}.

Definition reactJob : job :=
  {| title := "Engineer"; description := "Builds the frontend";
     requirements := Some ["React"; "Kubernetes"] |}.

Definition emptyJob : job :=
  {| title := "Engineer"; description := "Builds the frontend";
     requirements := Some [] |}.



Definition reactEntry : resume :=
  {| id := "b"; text := "React developer"; embedding := generateMockEmbedding "React developer" |}.

Definition javaEntry : resume :=
  {| id := "c"; text := "Java engineer"; embedding := generateMockEmbedding "Java engineer" |}.

(** ** Auxiliary definitions for the proofs *)

(** The regular expression [parse] builds from a pattern made of literal
    characters only. *)
Fixpoint literalFrom (p : string) (done : regex) (pending : option regex) : regex :=
  match p with
  | EmptyString => flush done pending
  | String c rest => literalFrom rest (flush done pending) (Some (lit c))
  end.

Definition literalRegex (p : string) : regex := literalFrom p Eps None.

(** The character before the position reached after reading [p]. *)
Fixpoint lastChar (p : string) (prev : option ascii) : option ascii :=
  match p with
  | EmptyString => prev
  | String c rest => lastChar rest (Some c)
  end.

(** A list whose elements satisfying [p] all come before the others. *)
Fixpoint partitioned {A : Type} (p : A -> bool) (l : list A) : bool :=
  match l with
  | [] => true
  | x :: rest => if p x then partitioned p rest else forallb (fun y => negb (p y)) rest
  end.

(** [compare] ranks [a] strictly before [b] whenever [a] satisfies [p] and
    [b] does not. *)
Definition apart {A : Type} (compare : A -> A -> float) (p : A -> bool) (a b : A) : bool :=
  if p a && negb (p b)
  then negb (PrimFloat.ltb 0 (compare a b)) && PrimFloat.ltb 0 (compare b a)
  else true.

Definition allApart {A : Type} (compare : A -> A -> float) (p : A -> bool) (l : list A) : bool :=
  forallb (fun a => forallb (apart compare p a) l) l.

(** The comparator of [semanticSearch] ranks every result above the
    threshold strictly before every result that is not (a NaN score breaks
    this). *)
Definition thresholdRespected (results : list hit) : bool :=
  allApart byScoreDesc aboveThreshold results.

(** The value the hashing loop would reach without wrap-around: the
    polynomial in 31 whose coefficients are the character codes. *)
Fixpoint polyLoop (str : string) (hash : Z) : Z :=
  match str with
  | EmptyString => hash
  | String c rest => polyLoop rest (31 * hash + JsString.charCode c)
  end.

(** A number that is +0 or -0. *)
Definition isZero (x : float) : bool := PrimFloat.eqb x 0.

(** Outcomes of [new RegExp]. *)
Definition isSyntaxError (c : compiled) : bool :=
  match c with SyntaxError => true | _ => false end.

Definition isUnsupported (c : compiled) : bool :=
  match c with Unsupported => true | _ => false end.

(** The last character of a string is [d]. *)
Fixpoint lastCharIs (d : ascii) (s : string) : bool :=
  match s with
  | EmptyString => false
  | String c EmptyString => Ascii.eqb c d
  | String _ rest => lastCharIs d rest
  end.

(** A string that cannot be confused with the phone placeholder: it has no
    square bracket and is not a piece of the placeholder (so it is not
    empty). *)
Definition clearOfPlaceholder (q : string) : bool :=
  negb (oneOf q "[") && negb (oneOf q "]") && negb (JsString.includes q "[PHONE REDACTED]").

(** *** What a regular expression can match

    [lang r m]: the string [m] is a concatenation of pieces that the parts
    of [r] accept (word boundaries put aside).  It bounds what the
    backtracking matcher can return. *)

Fixpoint concatStrings (ms : list string) : string :=
  match ms with
  | [] => EmptyString
  | m :: rest => (m ++ concatStrings rest)%string
  end.

Fixpoint lang (r : regex) (m : string) : Prop :=
  match r with
  | Chr cls => exists c, m = String c EmptyString /\ cls c = true
  | Eps => m = EmptyString
  | Cat r1 r2 => exists m1 m2, m = (m1 ++ m2)%string /\ lang r1 m1 /\ lang r2 m2
  | Alt r1 r2 => lang r1 m \/ lang r2 m
  | Rep min _ r' =>
      exists ms, m = concatStrings ms /\ Forall (lang r') ms /\ (min <= List.length ms)%nat
  | WordB => m = EmptyString
  end.

(** Every quantifier has its minimum below its maximum. *)
Fixpoint boundsOrdered (r : regex) : bool :=
  match r with
  | Cat r1 r2 | Alt r1 r2 => boundsOrdered r1 && boundsOrdered r2
  | Rep min max r' =>
      match max with Some mx => Nat.leb min mx | None => true end && boundsOrdered r'
  | _ => true
  end.

(** Every character class of [r] lies within [P]. *)
Fixpoint classesWithin (P : ascii -> bool) (r : regex) : Prop :=
  match r with
  | Chr cls => forall c, cls c = true -> P c = true
  | Cat r1 r2 | Alt r1 r2 => classesWithin P r1 /\ classesWithin P r2
  | Rep _ _ r' => classesWithin P r'
  | _ => True
  end.

Fixpoint allChars (P : ascii -> bool) (s : string) : bool :=
  match s with
  | EmptyString => true
  | String c rest => P c && allChars P rest
  end.

(** The characters a phone match is made of. *)
Definition isPhoneChar (c : ascii) : bool :=
  isDigit c || oneOf "+-.()" c || JsString.isSpace c.

(** The characters an email match is made of. *)
Definition isEmailChar (c : ascii) : bool :=
  isUpper c || isLower c || isDigit c || oneOf "._%+-@|" c.

(** The quantifier loop of [run], on its own: [step] matches the
    quantified pattern once. *)
Section RepeatLoop.

Variable A : Type.
Variable step : option ascii -> string -> (option ascii -> string -> option A) -> option A.
Variable k : option ascii -> string -> option A.

Fixpoint repeatLoop (n min : nat) (max : option nat) (prev : option ascii) (s : string)
  {struct n} : option A :=
  match n with
  | O => None
  | S n' =>
      match max with
      | Some O => k prev s
      | _ =>
          let again :=
            step prev s
                 (fun prev' s' =>
                    if Nat.eqb min 0 && Nat.eqb (String.length s') (String.length s)
                    then None
                    else repeatLoop n' (Nat.pred min) (option_map Nat.pred max) prev' s') in
          if negb (Nat.eqb min 0) then again
          else match again with
               | Some x => Some x
               | None => k prev s
               end
      end
  end.

End RepeatLoop.

(** ** File parser: [parseDOCX], [getFileType], [isValidFileType], [parseFile] *)

(** [/<[^>]*>/g] *)
Definition tagRegex : regex :=
  seq [ lit "<"; Rep 0 None (Chr (fun c => negb (Ascii.eqb c ">"))); lit ">" ].

(** [/\s+/g] *)
Definition spacesRegex : regex := plus (Chr JsString.isSpace).

Definition docxPlaceholder : string :=
  "DOCX file content extracted (text parsing simplified for demo)".

(** The cleaning of [parseDOCX], from the decoded text
    [buffer.toString('utf-8')] on. *)
Definition cleanDOCX (text : string) : string :=
  JsString.trim (replaceAll spacesRegex " " (replaceAll tagRegex " " text)).

Definition parseDOCX (text : string) : string :=
  let cleanText := cleanDOCX text in
  if (String.length cleanText <? 50)%nat
     || JsString.includes (String Ascii.zero EmptyString) cleanText
  then docxPlaceholder
  else cleanText.

(** What [parseFile] hands back or throws. *)
Inductive parsed : Type :=
| ParsedText (text : string)
| ParsedEntries (entries : list (string * string))
| ParserFailed (message : string)
| TempDirRequired
| UnsupportedFileType (ext : string).

Inductive fileType : Type := PdfFile | DocxFile | ZipFile | UnknownFile.

Section FileTypes.

(** [path.extname], from the Node library, and the parsers of the formats
    [parseFile] delegates to. *)
Variable extname : string -> string.
Variable parsePDF : string -> parsed.
Variable parseDOCXBuffer : string -> parsed.
Variable parseZIP : string -> string -> parsed.

Definition getFileType (filename : string) : fileType :=
  let ext := JsString.toLowerCase (extname filename) in
  if String.eqb ext ".pdf" then PdfFile
  else if String.eqb ext ".docx" then DocxFile
  else if String.eqb ext ".zip" then ZipFile
  else UnknownFile.

Definition isValidFileType (filename : string) : bool :=
  match getFileType filename with UnknownFile => false | _ => true end.

Definition parseFile (buffer filename : string) (tempDir : option string) : parsed :=
  let ext := JsString.toLowerCase (extname filename) in
  if String.eqb ext ".pdf" then parsePDF buffer
  else if String.eqb ext ".docx" then parseDOCXBuffer buffer
  else if String.eqb ext ".zip" then
    match tempDir with
    | Some dir => if String.eqb dir "" then TempDirRequired else parseZIP buffer dir
    | None => TempDirRequired
    end
  else UnsupportedFileType ext.

End FileTypes.

(** No [<] with a [>] somewhere after it. *)
Fixpoint noTag (s : string) : bool :=
  match s with
  | EmptyString => true
  | String c rest =>
      (if Ascii.eqb c "<" then negb (oneOf rest ">") else true) && noTag rest
  end.

Definition startsWithSpace (s : string) : bool :=
  match s with String c _ => JsString.isSpace c | EmptyString => false end.

(** Every white-space character is a single blank that another white-space
    character does not follow. *)
Fixpoint singleSpaced (s : string) : bool :=
  match s with
  | EmptyString => true
  | String c rest =>
      (if JsString.isSpace c then Ascii.eqb c " " && negb (startsWithSpace rest) else true)
      && singleSpaced rest
  end.

Fixpoint endsWithSpace (s : string) : bool :=
  match s with
  | EmptyString => false
  | String c EmptyString => JsString.isSpace c
  | String _ rest => endsWithSpace rest
  end.

Fixpoint dropWhile (cls : ascii -> bool) (s : string) : string :=
  match s with
  | EmptyString => EmptyString
  | String c rest => if cls c then dropWhile cls rest else s
  end.

(** What follows the first [d] of a string, if there is one. *)
Fixpoint afterFirst (d : ascii) (s : string) : option string :=
  match s with
  | EmptyString => None
  | String c rest => if Ascii.eqb d c then Some rest else afterFirst d rest
  end.

(** ** Roles, and the handlers that guard resumes and jobs *)

Inductive role : Type := USER | RECRUITER | ADMIN.

Definition role_eqb (a b : role) : bool :=
  match a, b with
  | USER, USER | RECRUITER, RECRUITER | ADMIN, ADMIN => true
  | _, _ => false
  end.

(** [req.user], as [authenticateToken] sets it. *)
Record authUser : Type := {
  user_id : string;
  user_email : string;
  user_role : role
}.

(** What a handler answers: a status with a body, or a status with an error
    code; [OutsideModel] when a step left the modelled fragment. *)
Inductive response (B : Type) : Type :=
| Ok (status : Z) (body : B)
| Failure (status : Z) (code : string)
| OutsideModel.

Arguments Ok {B} status body.
Arguments Failure {B} status code.
Arguments OutsideModel {B}.

(** [requireRole(roles)]: [None] stands for [next()]. *)
Definition requireRole {B : Type} (roles : list role) (user : option authUser)
  : option (response B) :=
  match user with
  | None => Some (Failure 401 "AUTHENTICATION_REQUIRED")
  | Some u =>
      if negb (existsb (role_eqb (user_role u)) roles)
      then Some (Failure 403 "INSUFFICIENT_PERMISSIONS")
      else None
  end.

(** A JavaScript string used as a condition: null, undefined and the empty
    string are false. *)
Definition truthy (s : option string) : bool :=
  match s with
  | Some v => negb (String.eqb v "")
  | None => false
  end.

(** The row [prisma.resume.findUnique] selects in [GET /api/resumes/:id]. *)
Record resumeRow : Type := {
  rr_id : string;
  rr_filename : string;
  rr_text : string;
  rr_pii : PIIData;
  rr_createdAt : Z;
  rr_userId : string
}.

Record resumeBody : Type := {
  rb_id : string;
  rb_filename : string;
  rb_text : string;
  rb_pii : option PIIData;
  rb_createdAt : Z
}.

(** The handler of [GET /api/resumes/:id], after [authenticateToken]: [found]
    is what the store returned for the id. *)
Definition getResume (u : authUser) (found : option resumeRow) : response resumeBody :=
  let isRecruiter := role_eqb (user_role u) RECRUITER || role_eqb (user_role u) ADMIN in
  match found with
  | None => Failure 404 "RESUME_NOT_FOUND"
  | Some resume =>
      if negb isRecruiter && negb (String.eqb (rr_userId resume) (user_id u))
      then Failure 403 "ACCESS_DENIED"
      else
        let respond processedText :=
          Ok 200 {| rb_id := rr_id resume;
                    rb_filename := rr_filename resume;
                    rb_text := processedText;
                    rb_pii := if isRecruiter then Some (rr_pii resume) else None;
                    rb_createdAt := rr_createdAt resume |} in
        if negb isRecruiter then
          match redactPII (rr_text resume) (rr_pii resume) with
          | Returns processedText => respond processedText
          | Throws => Failure 500 "FETCH_ERROR"
          | Unmodelled => OutsideModel
          end
        else respond (rr_text resume)
  end.

(** The row [prisma.job.findUnique] returns in [DELETE /api/jobs/:id]; the
    owner column may be null. *)
Record jobRow : Type := {
  jr_id : string;
  jr_userId : option string
}.

(** The middleware [requireRole(['RECRUITER', 'ADMIN'])] and the handler of
    [DELETE /api/jobs/:id]: the answer, and whether the job and its match
    results are deleted. *)
Definition deleteJob (user : option authUser) (existing : option jobRow)
  : response unit * bool :=
  match requireRole [RECRUITER; ADMIN] user with
  | Some refusal => (refusal, false)
  | None =>
      match user, existing with
      | None, _ => (OutsideModel, false)
      | Some _, None => (Failure 404 "JOB_NOT_FOUND", false)
      | Some u, Some job =>
          if role_eqb (user_role u) RECRUITER && truthy (jr_userId job)
             && negb (String.eqb (match jr_userId job with Some v => v | None => "" end)
                                 (user_id u))
          then (Failure 403 "ACCESS_DENIED", false)
          else (Ok 204 tt, true)
      end
  end.

(** ** Idempotency cache: [middleware/idempotency.ts] *)

Record cacheEntry : Type := {
  ce_response : string;
  ce_timestamp : Z
}.

(** The [Map] from idempotency keys to entries, in insertion order. *)
Definition idempotencyCache : Type := list (string * cacheEntry).

Definition CACHE_TTL : Z := 24 * 60 * 60 * 1000.

Fixpoint mapGet (key : string) (m : idempotencyCache) : option cacheEntry :=
  match m with
  | [] => None
  | (k, v) :: rest => if String.eqb key k then Some v else mapGet key rest
  end.

(** [Map.prototype.set]: a present key keeps its place. *)
Fixpoint mapSet (key : string) (value : cacheEntry) (m : idempotencyCache)
  : idempotencyCache :=
  match m with
  | [] => [(key, value)]
  | (k, v) :: rest =>
      if String.eqb key k then (k, value) :: rest else (k, v) :: mapSet key value rest
  end.

Definition mapDelete (key : string) (m : idempotencyCache) : idempotencyCache :=
  filter (fun kv => negb (String.eqb key (fst kv))) m.

(** The cache test of [idempotencyCheck] at time [now]: the response it
    sends at once, or [None] when it goes on to the store. *)
Definition cachedResponse (idempotencyKey : option string) (now : Z)
           (cache : idempotencyCache) : option string :=
  if negb (truthy idempotencyKey) then None
  else
    match mapGet (match idempotencyKey with Some k => k | None => "" end) cache with
    | Some cached =>
        if now - ce_timestamp cached <? CACHE_TTL then Some (ce_response cached) else None
    | None => None
    end.

Definition storeIdempotentResponse (idempotencyKey : string) (response : string)
           (now : Z) (cache : idempotencyCache) : idempotencyCache :=
  if negb (String.eqb idempotencyKey "")
  then mapSet idempotencyKey {| ce_response := response; ce_timestamp := now |} cache
  else cache.

(** [cleanIdempotencyCache]: the loop over the entries, deleting as it
    goes. *)
Definition cleanIdempotencyCache (now : Z) (cache : idempotencyCache) : idempotencyCache :=
  fold_left
    (fun m kv => if CACHE_TTL <? now - ce_timestamp (snd kv) then mapDelete (fst kv) m else m)
    cache cache.

Fixpoint uniqueKeys (m : idempotencyCache) : bool :=
  match m with
  | [] => true
  | (k, _) :: rest =>
      negb (existsb (fun kv => String.eqb k (fst kv)) rest) && uniqueKeys rest
  end.

(** Some entry of [entries] under [key] is past its time at [now]. *)
Definition expiredKey (now : Z) (entries : idempotencyCache) (key : string) : bool :=
  existsb (fun kv => String.eqb key (fst kv) && (CACHE_TTL <? now - ce_timestamp (snd kv)))
          entries.

(** The row [prisma.resume.create] writes in [POST /api/resumes] for a text
    parsed from an upload of [u]; the store chooses the id and the date. *)
Definition createdResume (u : authUser) (id filename text : string) (createdAt : Z)
  : resumeRow :=
  {| rr_id := id; rr_filename := filename; rr_text := text;
     rr_pii := extractPII text; rr_createdAt := createdAt;
     rr_userId := user_id u |}.

Definition isDeleted (answer : response unit * bool) : bool := snd answer.

(** ** Values of floating-point numbers, and rounding *)

(** The power of two with an integer exponent, as a real number. *)
Definition pow2 (e : Z) : R := powerRZ 2 e.

(** The real number a finite binary64 value stands for; 0 for the others. *)
Definition SF2R (f : spec_float) : R :=
  match f with
  | S754_finite s m e => (IZR (cond_Zopp s (Zpos m)) * pow2 e)%R
  | _ => 0%R
  end.

Definition floatValue (x : float) : R := SF2R (Prim2SF x).

(** [Number.isFinite] *)
Definition isFiniteFloat (x : float) : bool :=
  match Prim2SF x with
  | S754_zero _ | S754_finite _ _ _ => true
  | _ => false
  end.

Definition isPositiveFinite (x : float) : bool :=
  match Prim2SF x with
  | S754_finite false _ _ => true
  | _ => false
  end.

(** A positive normal number: 53 significant bits. *)
Definition posNormal (f : spec_float) : Prop :=
  exists m e, f = S754_finite false m e /\ digits2_pos m = 53%positive /\ -1074 <= e <= 971.

Definition isPosZero (x : float) : Prop := Prim2SF x = S754_zero false.

Definition isPosNormal (x : float) : Prop := posNormal (Prim2SF x).

Definition zeroOrNormal (x : float) : Prop := isPosZero x \/ isPosNormal x.

(** What a shift record says about the real number [y] it was cut from:
    the integer part, and where the rest lies against one half. *)
Definition located (mrs : shr_record) (y : R) : Prop :=
  0 <= shr_m mrs /\
  match shr_r mrs, shr_s mrs with
  | false, false => y = IZR (shr_m mrs)
  | false, true => (IZR (shr_m mrs) < y < IZR (shr_m mrs) + / 2)%R
  | true, false => y = (IZR (shr_m mrs) + / 2)%R
  | true, true => (IZR (shr_m mrs) + / 2 < y < IZR (shr_m mrs) + 1)%R
  end.

(** [f] is a positive normal number nearest to the positive real [x]: in
    the binade of [x], at most half a unit in the last place away. *)
Definition rounds (x : R) (f : spec_float) : Prop :=
  posNormal f /\
  exists E k : Z,
    -1074 <= E /\
    (pow2 (52 + E) <= x < pow2 (53 + E))%R /\
    (Rabs (IZR k - x * pow2 (- E)) <= / 2)%R /\
    SF2R f = (IZR k * pow2 E)%R.

(** The float [f] is what an operation with the exact result [x] returns:
    both are zero, or [f] is [x] rounded. *)
Definition approx (x : R) (f : float) : Prop :=
  (x = 0%R /\ isPosZero f) \/ rounds x (Prim2SF f).

(** Half the distance from 1 to the next binary64 number. *)
Definition ulp53 : R := pow2 (- 53).

(** ** The Euclidean norm the unit-norm property speaks about *)

Definition sumSq (v : list R) : R := fold_right (fun x acc => x * x + acc)%R 0%R v.

Definition euclideanNorm (v : list R) : R := R_sqrt.sqrt (sumSq v).

(** What [(hash % 1000) / 1000] can be: zero, or a normal number from 2^-10
    to below 1. *)
Definition incrementInRange (f : spec_float) : bool :=
  match f with
  | S754_zero false => true
  | S754_finite false m e =>
      Pos.eqb (digits2_pos m) 53 && (-62 <=? e) && (e <=? -53)
  | _ => false
  end.

(** What a component of the accumulated vector can be: zero, or a normal
    number from 2^-10 to 2^53. *)
Definition componentInRange (c : float) : Prop :=
  zeroOrNormal c /\ (floatValue c = 0 \/ pow2 (- 10) <= floatValue c <= pow2 53)%R.

(** ** The requirement loop, in the words of its description *)

Definition isSeparator (c : ascii) : bool :=
  Ascii.eqb c "," || Ascii.eqb c ":" || Ascii.eqb c ";".

Definition noSeparator (p : string) : bool :=
  allChars (fun c => negb (isSeparator c)) p.

(** [separatedInto pieces s]: [s] is the pieces, none of which holds a
    separator, with one separator between each two. *)
Inductive separatedInto : list string -> string -> Prop :=
| separated_last :
    forall p : string, noSeparator p = true -> separatedInto [p] p
| separated_more :
    forall (p : string) (c : ascii) (rest : string) (pieces : list string),
      noSeparator p = true -> isSeparator c = true ->
      separatedInto pieces rest ->
      separatedInto (p :: pieces) (p ++ String c rest).

Definition occursIn (w s : string) : Prop :=
  exists pre post : string, s = (pre ++ w ++ post)%string.

(** Some sub-phrase of the requirement, trimmed, has more than 2 characters
    and occurs in the resume text. *)
Definition subPhraseFound (resumeText requirement : string) : Prop :=
  exists (pieces : list string) (piece : string),
    separatedInto pieces requirement /\ In piece pieces /\
    (2 < String.length (JsString.trim piece))%nat /\
    occursIn (JsString.trim piece) resumeText.

(** The same with the sub-phrase taken as it stands between the separators. *)
Definition untrimmedPhraseFound (resumeText requirement : string) : Prop :=
  exists (pieces : list string) (piece : string),
    separatedInto pieces requirement /\ In piece pieces /\
    (2 < String.length piece)%nat /\
    occursIn piece resumeText.

(** Lower-casing leaves the string as it is. *)
Definition lowerFixed (s : string) : bool :=
  allChars (fun c => Ascii.eqb (JsString.lowerChar c) c) s.

(** * Properties *)

(** ** Similarity scorer *)

(** C8. For vectors of different lengths [cosineSimilarity] returns 0: the
    guard answers before any arithmetic, in the program's floating point
    and in every other instance of the arithmetic; the function is total, so
    nothing is raised. *)
Theorem cosineSimilarity_length_mismatch :
  forall (T : Type) (N : Num T) (a b : list T),
    List.length a <> List.length b ->
    cosineSimilarity a b = nzero.
Proof.
  intros T N a b Hlen.
  unfold cosineSimilarity.
  destruct (Nat.eqb (List.length a) (List.length b)) eqn:E.
  - apply Nat.eqb_eq in E. contradiction.
  - reflexivity.
Qed.

Lemma cosineSimilarity_length_mismatch_witness :
  List.length [1%float] <> List.length [1%float; 2%float] /\
  cosineSimilarity [1%float] [1%float; 2%float] = 0%float.
Proof.
  split.
  - simpl. lia.
  - apply (cosineSimilarity_length_mismatch float floatNum [1%float] [1%float; 2%float]).
    simpl. lia.
Defined.

(** ** Embedder *)

Lemma lowerChar_isSpace :
  forall c : ascii, JsString.isSpace (JsString.lowerChar c) = JsString.isSpace c.
Proof.
  intros c.
  destruct c as [[] [] [] [] [] [] [] []]; vm_compute; reflexivity.
Qed.





(** C5, refuted as stated: the embedding of the empty text has no NaN
    component, and the magnitude it is divided by is not zero. *)
Lemma empty_text_embedding_has_no_NaN :
  existsb isNaN (@generateMockEmbedding float floatNum "") = false /\
  PrimFloat.eqb (magnitude (@accumulated float floatNum "")) 0 = false.
Proof.
  split; vm_compute; reflexivity.
Qed.

(** C5, amended. The empty text has the single word "", hashed as "0" to 48:
    the accumulated vector holds 48/1000 at index 48, its magnitude is
    48/1000, and the embedding is the unit vector at index 48.  NaN
    components do arise when the accumulated vector is all zero, as for the
    text "case", whose only word hashes to a multiple of 1000: there every
    component is 0/0. *)
Theorem empty_text_embedding_is_unit_vector :
  words "" = [""] /\
  simpleHash ("" ++ JsString.ofIndex 0) = 48 /\
  @accumulated float floatNum "" = (repeat 0%float 48 ++ [0.048%float] ++ repeat 0%float 335)%list /\
  magnitude (@accumulated float floatNum "") = 0.048%float /\
  @generateMockEmbedding float floatNum "" = (repeat 0%float 48 ++ [1%float] ++ repeat 0%float 335)%list /\
  Z.rem (simpleHash ("case" ++ JsString.ofIndex 0)) 1000 = 0 /\
  @accumulated float floatNum "case" = repeat 0%float 384 /\
  forallb isNaN (@generateMockEmbedding float floatNum "case") = true.
Proof.
  repeat split; vm_compute; reflexivity.
Qed.

(** ** Floating-point facts used below *)

Lemma add_nan_r : forall x : float, PrimFloat.add x PrimFloat.nan = PrimFloat.nan.
Proof.
  intros x. apply Prim2SF_inj. rewrite add_spec.
  change (Prim2SF PrimFloat.nan) with S754_nan.
  destruct (Prim2SF x); reflexivity.
Qed.

Lemma SFcompare_antisym :
  forall a b : spec_float, SFcompare b a = option_map CompOpp (SFcompare a b).
Proof.
  intros [sa | sa | | sa ma ea] [sb | sb | | sb mb eb]; cbn [SFcompare option_map];
    try reflexivity;
    try (destruct sa; reflexivity); try (destruct sb; reflexivity);
    try (destruct sa, sb; reflexivity).
  destruct sa, sb; cbn [CompOpp]; try reflexivity;
    rewrite (Z.compare_antisym ea eb);
    destruct (ea ?= eb) eqn:E; cbn [CompOpp]; try reflexivity.
  - rewrite (Pos.compare_cont_antisym ma mb Eq). reflexivity.
  - rewrite (Pos.compare_cont_antisym ma mb Eq). reflexivity.
Qed.

Lemma SFcompare_None :
  forall a b : spec_float, SFcompare a b = None -> a = S754_nan \/ b = S754_nan.
Proof.
  intros [sa | sa | | sa ma ea] [sb | sb | | sb mb eb]; cbn [SFcompare]; intros E;
    try discriminate; auto.
Qed.

Lemma ltb_leb : forall x y : float, PrimFloat.ltb x y = true -> PrimFloat.leb x y = true.
Proof.
  intros x y. rewrite ltb_spec, leb_spec. unfold SFltb, SFleb.
  destruct (SFcompare (Prim2SF x) (Prim2SF y)) as [[] |]; congruence.
Qed.

Lemma isNaN_false : forall x : float, isNaN x = false -> Prim2SF x <> S754_nan.
Proof.
  intros x Hx Hnan. unfold isNaN in Hx. rewrite eqb_spec, Hnan in Hx.
  cbn in Hx. discriminate.
Qed.

(** Two numbers, neither NaN, neither below the other: each is at most the
    other. *)
Lemma not_ltb_leb :
  forall x y : float,
    isNaN x = false -> isNaN y = false ->
    PrimFloat.ltb x y = false -> PrimFloat.ltb y x = false ->
    PrimFloat.leb x y = true.
Proof.
  intros x y Hx Hy. rewrite !ltb_spec, leb_spec. unfold SFltb, SFleb.
  rewrite (SFcompare_antisym (Prim2SF x) (Prim2SF y)).
  destruct (SFcompare (Prim2SF x) (Prim2SF y)) as [[] |] eqn:E; cbn; try congruence.
  apply SFcompare_None in E. apply isNaN_false in Hx, Hy. tauto.
Qed.

(** ** Job matcher: scores *)

(** C3, on the code. With no requirements the handler computes 0/0: the
    keyword score is NaN, not 0, and so is the match score of every resume,
    whatever its similarity. *)
Theorem keywordScore_no_requirements :
  keywordScoreOf 0 0 = PrimFloat.nan /\
  forall (t d : string) (jobEmbedding : list float) (r : candidateResume),
    match_score (matchResume {| title := t; description := d; requirements := Some [] |}
                             jobEmbedding r) = PrimFloat.nan /\
    match_score (matchResume {| title := t; description := d; requirements := None |}
                             jobEmbedding r) = PrimFloat.nan.
Proof.
  split.
  - vm_compute. reflexivity.
  - intros t d jobEmbedding r.
    assert (Hclamp : forall similarity,
               clampScore (combinedScoreOf similarity (keywordScoreOf 0 0)) = PrimFloat.nan).
    { intros similarity. unfold combinedScoreOf.
      replace (PrimFloat.mul (keywordScoreOf 0 0) 0.7) with PrimFloat.nan
        by (vm_compute; reflexivity).
      rewrite add_nan_r. vm_compute. reflexivity. }
    split; unfold matchResume; cbn; apply Hclamp.
Qed.

(** C2, on the code. The clamp lets NaN through.  A resume whose text is
    "case" has an all-NaN embedding (all zero once stored), so its
    similarity to any job is NaN and so is its match score; a job without
    requirements gives every resume the match score NaN.  NaN does not lie
    in [0, 100].  An ordinary pair is scored 35. *)
Theorem match_score_NaN :
  let inRange (s : float) := PrimFloat.leb 0 s && PrimFloat.leb s 100 in
  let scores (j : job) (rs : list candidateResume) :=
    map match_score (matchResumes j rs 10) in
  scores reactJob [caseResume] = [PrimFloat.nan] /\
  scores reactJob [caseResumeStored] = [PrimFloat.nan] /\
  scores emptyJob [reactResume] = [PrimFloat.nan] /\
  inRange PrimFloat.nan = false /\
  scores reactJob [reactResume] = [35%float].
Proof.
  repeat split; vm_compute; reflexivity.
Qed.

(** Apart from NaN the clamp does what its comment says: every
    combined score that is a number is brought into [0, 100]. *)
Lemma clampScore_in_range :
  forall combinedScore : float,
    isNaN combinedScore = false ->
    PrimFloat.leb 0 (clampScore combinedScore) = true /\
    PrimFloat.leb (clampScore combinedScore) 100 = true.
Proof.
  intros x Hx. unfold clampScore.
  assert (Hmin : Math_min 100 x = 100%float \/
                 (Math_min 100 x = x /\ PrimFloat.leb x 100 = true)).
  { unfold Math_min. rewrite Hx.
    change (isNaN 100) with false. cbn [orb].
    destruct (PrimFloat.ltb 100 x) eqn:H1; [left; reflexivity |].
    destruct (PrimFloat.ltb x 100) eqn:H2.
    - right. split; [reflexivity | apply ltb_leb; exact H2].
    - right. change (isNegZero 100) with false. cbv iota.
      split; [reflexivity |].
      apply not_ltb_leb; try assumption. reflexivity. }
  destruct Hmin as [-> | [-> Hle]].
  - vm_compute. split; reflexivity.
  - unfold Math_max. rewrite Hx.
    change (isNaN 0) with false. cbn [orb].
    destruct (PrimFloat.ltb 0 x) eqn:H1.
    + split; [apply ltb_leb; exact H1 | exact Hle].
    + destruct (PrimFloat.ltb x 0) eqn:H2.
      * split; reflexivity.
      * change (isNegZero 0) with false. cbv iota. split; reflexivity.
Qed.

(** ** Redaction *)

(** The characters [escapeRegExp] escapes are the syntax characters; any
    other character is read by [parse] as itself. *)
Lemma escape_char_cases :
  forall c : ascii,
    (oneOf ".*+?^${}()|[]\" c = true /\ isSyntaxChar c = true /\ Ascii.eqb c "\" = false
     \/ oneOf ".*+?^${}()|[]\" c = true /\ Ascii.eqb c "\" = true) \/
    (oneOf ".*+?^${}()|[]\" c = false /\ Ascii.eqb c "|" = false /\
     Ascii.eqb c "+" = false /\ Ascii.eqb c "." = false /\ Ascii.eqb c "\" = false /\
     isSyntaxChar c = false).
Proof.
  intros c.
  destruct c as [[] [] [] [] [] [] [] []]; vm_compute;
    first [ left; left; repeat split; reflexivity
          | left; right; repeat split; reflexivity
          | right; repeat split; reflexivity ].
Qed.

Lemma parse_escapeRegExp :
  forall (p : string) (left : option regex) (done : regex) (pending : option regex),
    parse (escapeRegExp p) left done pending
    = Compiled (close left (literalFrom p done pending)).
Proof.
  induction p as [| c p IH]; intros left done pending.
  - reflexivity.
  - destruct (escape_char_cases c)
      as [[(He & Hs & Hb) | (He & Hb)] | (He & H1 & H2 & H3 & H4 & Hs)].
    + cbn [escapeRegExp]. rewrite He.
      change (parse (String "\" (String c (escapeRegExp p))) left done pending)
        with (if isSyntaxChar c || Ascii.eqb c "/"
              then parse (escapeRegExp p) left (flush done pending) (Some (lit c))
              else Unsupported).
      rewrite Hs. cbn [orb]. rewrite IH. reflexivity.
    + apply Ascii.eqb_eq in Hb. subst c. cbn [escapeRegExp].
      change (oneOf ".*+?^${}()|[]\" "\") with true. cbv iota.
      change (parse (String "\" (String "\" (escapeRegExp p))) left done pending)
        with (parse (escapeRegExp p) left (flush done pending) (Some (lit "\"))).
      rewrite IH. reflexivity.
    + cbn [escapeRegExp]. rewrite He.
      cbn [parse]. rewrite H1, H2, H3, H4, Hs. rewrite IH. reflexivity.
Qed.

Lemma run_literalFrom :
  forall (A : Type) (p : string) (done : regex) (pending : option regex)
         (prev : option ascii) (s : string) (k : option ascii -> string -> option A),
    run (literalFrom p done pending) prev s k
    = run (flush done pending) prev s
          (fun prev' s' =>
             if JsString.startsWith p s'
             then k (lastChar p prev') (JsString.skipn (String.length p) s')
             else None).
Proof.
  intros A p. induction p as [| c p IH]; intros done pending prev s k.
  - reflexivity.
  - cbn [literalFrom]. rewrite IH.
    change (flush (flush done pending) (Some (lit c))) with (Cat (flush done pending) (lit c)).
    cbn [run]. f_equal.
    extensionality prev'. extensionality s'.
    destruct s' as [| a s'']; [reflexivity |].
    unfold lit. cbn [run JsString.startsWith].
    destruct (Ascii.eqb c a) eqn:E; [| reflexivity].
    apply Ascii.eqb_eq in E. subst a. reflexivity.
Qed.

(** A literal pattern matches here exactly when the text starts with it. *)
Lemma matchHere_literal :
  forall (p : string) (prev : option ascii) (s : string),
    matchHere (literalRegex p) prev s
    = if JsString.startsWith p s then Some (JsString.skipn (String.length p) s) else None.
Proof.
  intros p prev s. unfold matchHere, literalRegex.
  rewrite run_literalFrom. reflexivity.
Qed.

(** The phone path of [redactPII] never throws and replaces the literal
    occurrences of the phone string, whatever characters it contains. *)
Lemma redactPhone_literal :
  forall phone redactedText : string,
    redactPhone phone redactedText
    = Returns (replaceAll (literalRegex phone) "[PHONE REDACTED]" redactedText).
Proof.
  intros phone redactedText.
  unfold redactPhone, replaceRegExp, compile.
  rewrite parse_escapeRegExp. reflexivity.
Qed.

(** C4, on the code. The email is handed to [new RegExp] unescaped.  An
    address with [+] is not matched by its own pattern and stays in the text;
    the [.] of an address matches any character, so text that is no
    occurrence of the address is replaced.  The phone path escapes and
    matches literally; escaped the same way, the address with [+] would have
    been replaced. *)
Theorem redactPII_email_unescaped :
  emails (extractPII "write to a+b@x.com") = Some ["a+b@x.com"] /\
  redactPII "write to a+b@x.com" (extractPII "write to a+b@x.com")
    = Returns "write to a+b@x.com" /\
  emails (extractPII "jane@example.com or jane@exampleXcom") = Some ["jane@example.com"] /\
  redactPII "jane@example.com or jane@exampleXcom"
            (extractPII "jane@example.com or jane@exampleXcom")
    = Returns "[EMAIL REDACTED] or [EMAIL REDACTED]" /\
  phones (extractPII "555.123.4567 or 555x123y4567") = Some ["555.123.4567"] /\
  redactPII "555.123.4567 or 555x123y4567" (extractPII "555.123.4567 or 555x123y4567")
    = Returns "[PHONE REDACTED] or 555x123y4567" /\
  replaceRegExp (escapeRegExp "a+b@x.com") "[EMAIL REDACTED]" "write to a+b@x.com"
    = Returns "write to [EMAIL REDACTED]".
Proof.
  repeat split; vm_compute; reflexivity.
Qed.

(** C6, on the code. Redacting twice is not redacting once: the address
    "x@y.aa|ED", which [extractPII] returns for the text below, is compiled
    as the alternation of [x@y.aa] and [ED], and [ED] occurs in the
    placeholder itself.  Escaped as the phone path escapes, the address is
    replaced once and a second pass changes nothing. *)
Theorem redactPII_not_idempotent :
  let t := "x@y.aa|ED" in
  let pii := extractPII t in
  emails pii = Some ["x@y.aa|ED"] /\
  redactPII t pii = Returns "[EMAIL REDACTED]|[EMAIL REDACTED]" /\
  redactPII "[EMAIL REDACTED]|[EMAIL REDACTED]" pii
    = Returns "[EMAIL R[EMAIL REDACTED]ACT[EMAIL REDACTED]]|[EMAIL R[EMAIL REDACTED]ACT[EMAIL REDACTED]]" /\
  redactPII "[EMAIL REDACTED]|[EMAIL REDACTED]" pii <> redactPII t pii /\
  replaceRegExp (escapeRegExp t) "[EMAIL REDACTED]" t = Returns "[EMAIL REDACTED]" /\
  replaceRegExp (escapeRegExp t) "[EMAIL REDACTED]" "[EMAIL REDACTED]"
    = Returns "[EMAIL REDACTED]".
Proof.
  repeat split; try (vm_compute; reflexivity).
  vm_compute. discriminate.
Qed.

(** ** Job matcher: the requirement loop *)

Lemma startsWith_spec :
  forall w s : string,
    JsString.startsWith w s = true <-> exists post, s = (w ++ post)%string.
Proof.
  induction w as [| a w IH]; intros s.
  - split; [intros _; exists s; reflexivity | reflexivity].
  - destruct s as [| b s]; cbn [JsString.startsWith].
    + split; [discriminate | intros [post Hpost]; discriminate].
    + rewrite andb_true_iff, Ascii.eqb_eq, IH. split.
      * intros [-> [post ->]]. exists post. reflexivity.
      * intros [post Hpost]. injection Hpost as -> ->. split; [reflexivity | eauto].
Qed.

(** [includes] is substring containment. *)
Lemma includes_spec :
  forall w s : string,
    JsString.includes w s = true <-> exists pre post, s = (pre ++ w ++ post)%string.
Proof.
  intros w s. unfold JsString.includes.
  induction s as [| b s IH].
  - cbn [JsString.indexOf].
    destruct (JsString.startsWith w EmptyString) eqn:E.
    + split; [intros _ | reflexivity].
      apply startsWith_spec in E. destruct E as [post ->].
      exists EmptyString, post. reflexivity.
    + split; [discriminate |].
      intros (pre & post & Heq).
      destruct pre; [| discriminate]. cbn in Heq.
      assert (JsString.startsWith w EmptyString = true) by (apply startsWith_spec; eauto).
      congruence.
  - cbn [JsString.indexOf].
    destruct (JsString.startsWith w (String b s)) eqn:E.
    + split; [intros _ | reflexivity].
      apply startsWith_spec in E. destruct E as [post ->].
      exists EmptyString, post. reflexivity.
    + destruct (JsString.indexOf w s) as [n |]; cbn [option_map].
      * split; [intros _ | reflexivity].
        destruct IH as [IH _]. destruct (IH eq_refl) as (pre & post & ->).
        exists (String b pre), post. reflexivity.
      * split; [discriminate |].
        intros (pre & post & Heq).
        destruct pre as [| b' pre].
        -- cbn in Heq.
           assert (JsString.startsWith w (String b s) = true)
             by (apply startsWith_spec; eauto).
           congruence.
        -- cbn in Heq. injection Heq as -> ->.
           destruct IH as [_ IH]. discriminate IH. eauto.
Qed.

Lemma firstEvidence_found :
  forall (originalText resumeText : string) (ws : list string),
    existsb (wordFound resumeText) ws = true ->
    exists snippet, firstEvidence originalText resumeText ws = Some snippet.
Proof.
  induction ws as [| word ws IH]; cbn [existsb firstEvidence]; intros Hex.
  - discriminate.
  - destruct (wordFound resumeText word); [eauto | apply IH; exact Hex].
Qed.

Lemma firstEvidence_missing :
  forall (originalText resumeText : string) (ws : list string),
    existsb (wordFound resumeText) ws = false ->
    firstEvidence originalText resumeText ws = None.
Proof.
  induction ws as [| word ws IH]; cbn [existsb firstEvidence]; intros Hex.
  - reflexivity.
  - destruct (wordFound resumeText word); [discriminate | apply IH; exact Hex].
Qed.

Lemma scanRequirement_matched :
  forall (originalText resumeText : string) (evidence missing : list string) (r : string),
    existsb (wordFound resumeText) (requirementWords r) = true ->
    exists snippet,
      scanRequirement originalText resumeText (evidence, missing) r
      = ((evidence ++ [snippet])%list, missing).
Proof.
  intros originalText resumeText evidence missing r Hm. unfold scanRequirement.
  destruct (firstEvidence_found originalText resumeText _ Hm) as [snippet ->].
  exists snippet. reflexivity.
Qed.

Lemma scanRequirement_missing :
  forall (originalText resumeText : string) (evidence missing : list string) (r : string),
    existsb (wordFound resumeText) (requirementWords r) = false ->
    scanRequirement originalText resumeText (evidence, missing) r
    = (evidence, (missing ++ [r])%list).
Proof.
  intros originalText resumeText evidence missing r Hm. unfold scanRequirement.
  rewrite (firstEvidence_missing originalText resumeText _ Hm). reflexivity.
Qed.

(** The two arrays after the loop, from any starting state: evidence grows
    by one per matched requirement, and the missing list by the unmatched
    requirements, in order. *)
Lemma scanRequirements_fold :
  forall (originalText resumeText : string) (reqs evidence missing : list string),
    List.length (fst (fold_left (scanRequirement originalText resumeText) reqs
                                (evidence, missing)))
    = (List.length evidence
       + List.length (filter (fun r => existsb (wordFound resumeText) (requirementWords r))
                             reqs))%nat /\
    snd (fold_left (scanRequirement originalText resumeText) reqs (evidence, missing))
    = (missing ++ filter (fun r => negb (existsb (wordFound resumeText) (requirementWords r)))
                         reqs)%list.
Proof.
  intros originalText resumeText reqs.
  induction reqs as [| r reqs IH]; intros evidence missing.
  - cbn. split; [lia | rewrite app_nil_r; reflexivity].
  - cbn [fold_left filter].
    destruct (existsb (wordFound resumeText) (requirementWords r)) eqn:Hm.
    + destruct (scanRequirement_matched originalText resumeText evidence missing r Hm)
        as [snippet ->].
      destruct (IH (evidence ++ [snippet])%list missing) as [IH1 IH2]. split.
      * rewrite IH1, length_app. cbn. lia.
      * cbn [negb]. exact IH2.
    + rewrite (scanRequirement_missing originalText resumeText evidence missing r Hm).
      destruct (IH evidence (missing ++ [r])%list) as [IH1 IH2]. split.
      * exact IH1.
      * cbn [negb]. rewrite IH2, <- app_assoc. reflexivity.
Qed.

(** ** Semantic retriever *)

Section SortAndThreshold.

Variable A : Type.
Variable compare : A -> A -> float.
Variable p : A -> bool.

Lemma insertBy_In :
  forall (x y : A) (l : list A), In y (insertBy compare x l) <-> y = x \/ In y l.
Proof.
  intros x y l. induction l as [| z l IH]; cbn [insertBy].
  - cbn. intuition.
  - destruct (PrimFloat.ltb 0 (compare x z)); cbn [In] in *; rewrite ?IH; intuition.
Qed.

Lemma sortBy_In :
  forall (y : A) (l : list A), In y (sortBy compare l) <-> In y l.
Proof.
  intros y l. induction l as [| x l IH]; cbn [sortBy].
  - reflexivity.
  - rewrite insertBy_In. cbn [In]. rewrite IH. intuition.
Qed.



Lemma insertBy_length :
  forall (x : A) (l : list A), List.length (insertBy compare x l) = S (List.length l).
Proof.
  intros x l. induction l as [| z l IH]; cbn [insertBy].
  - reflexivity.
  - destruct (PrimFloat.ltb 0 (compare x z)); cbn [List.length]; lia.
Qed.

Lemma sortBy_length :
  forall l : list A, List.length (sortBy compare l) = List.length l.
Proof.
  induction l as [| x l IH]; cbn [sortBy].
  - reflexivity.
  - rewrite insertBy_length, IH. reflexivity.
Qed.

Lemma insertBy_none :
  forall (x : A) (l : list A),
    p x = false ->
    forallb (fun y => negb (p y)) l = true ->
    forallb (fun y => negb (p y)) (insertBy compare x l) = true.
Proof.
  intros x l Hx. induction l as [| z l IH]; cbn [insertBy forallb]; intros Hl.
  - rewrite Hx. reflexivity.
  - apply andb_true_iff in Hl. destruct Hl as [Hz Hl].
    destruct (PrimFloat.ltb 0 (compare x z)); cbn [forallb].
    + rewrite Hz, IH by exact Hl. reflexivity.
    + rewrite Hx, Hz, Hl. reflexivity.
Qed.

(** Insertion keeps the elements that satisfy [p] in front, as long as the
    comparator ranks the new element apart from those already there. *)
Lemma insertBy_partitioned :
  forall (x : A) (l : list A),
    partitioned p l = true ->
    (forall y, In y l -> apart compare p x y = true /\ apart compare p y x = true) ->
    partitioned p (insertBy compare x l) = true.
Proof.
  intros x l. induction l as [| z l IH]; intros Hpart Hapart.
  - cbn. destruct (p x); reflexivity.
  - cbn [insertBy].
    destruct (Hapart z (or_introl eq_refl)) as [Hxz Hzx].
    unfold apart in Hxz, Hzx.
    cbn [partitioned] in Hpart.
    destruct (PrimFloat.ltb 0 (compare x z)) eqn:Hcmp.
    + (* x goes after z *)
      cbn [partitioned]. destruct (p z) eqn:Hz.
      * apply IH; [exact Hpart |].
        intros y Hy. apply Hapart. right. exact Hy.
      * destruct (p x) eqn:Hx.
        -- cbn in Hxz. discriminate.
        -- apply insertBy_none; assumption.
    + (* x stays in front of z *)
      cbn [partitioned]. destruct (p x) eqn:Hx.
      * exact Hpart.
      * destruct (p z) eqn:Hz.
        -- cbn in Hzx. rewrite andb_false_r in Hzx. discriminate.
        -- cbn [forallb]. rewrite Hz. exact Hpart.
Qed.

Lemma allApart_In :
  forall (l : list A) (a b : A),
    allApart compare p l = true -> In a l -> In b l -> apart compare p a b = true.
Proof.
  intros l a b Hall Ha Hb. unfold allApart in Hall.
  rewrite forallb_forall in Hall. specialize (Hall a Ha).
  rewrite forallb_forall in Hall. exact (Hall b Hb).
Qed.

Lemma sortBy_partitioned :
  forall l : list A,
    (forall a b, In a l -> In b l -> apart compare p a b = true) ->
    partitioned p (sortBy compare l) = true.
Proof.
  induction l as [| x l IH]; intros Hapart.
  - reflexivity.
  - cbn [sortBy]. apply insertBy_partitioned.
    + apply IH. intros a b Ha Hb. apply Hapart; right; assumption.
    + intros y Hy. apply (proj1 (sortBy_In y l)) in Hy.
      split; apply Hapart; solve [left; reflexivity | right; exact Hy].
Qed.

Lemma filter_all_false :
  forall l : list A, forallb (fun y => negb (p y)) l = true -> filter p l = [].
Proof.
  induction l as [| x l IH]; cbn [forallb filter]; intros Hl.
  - reflexivity.
  - apply andb_true_iff in Hl. destruct Hl as [Hx Hl].
    apply negb_true_iff in Hx. rewrite Hx. apply IH. exact Hl.
Qed.


Lemma forallb_firstn :
  forall (q : A -> bool) (l : list A) (n : nat),
    forallb q l = true -> forallb q (firstn n l) = true.
Proof.
  intros q. induction l as [| x l IH]; intros n Hl.
  - destruct n; reflexivity.
  - destruct n as [| n]; [reflexivity |].
    cbn [forallb firstn] in *. apply andb_true_iff in Hl. destruct Hl as [Hx Hl].
    rewrite Hx, IH by exact Hl. reflexivity.
Qed.

(** In a partitioned list, cutting and filtering commute. *)
Lemma partitioned_filter_firstn :
  forall (l : list A) (n : nat),
    partitioned p l = true ->
    filter p (firstn n l) = firstn n (filter p l).
Proof.
  induction l as [| x l IH]; intros n Hpart.
  - destruct n; reflexivity.
  - destruct n as [| n]; [reflexivity |].
    cbn [partitioned] in Hpart. cbn [filter firstn].
    destruct (p x) eqn:Hx.
    + cbn [firstn]. rewrite IH by exact Hpart. reflexivity.
    + rewrite (filter_all_false l Hpart).
      assert (Hsub : filter p (firstn n l) = []).
      { apply filter_all_false. apply forallb_firstn. exact Hpart. }
      rewrite Hsub. reflexivity.
Qed.

Lemma filter_length_le :
  forall l : list A, (List.length (filter p l) <= List.length l)%nat.
Proof.
  induction l as [| x l IH]; cbn [filter List.length].
  - lia.
  - destruct (p x); cbn [List.length]; lia.
Qed.

End SortAndThreshold.

Lemma slice0_firstn :
  forall (A : Type) (k : Z) (l : list A),
    0 <= k -> slice0 k l = firstn (Z.to_nat k) l.
Proof.
  intros A k l Hk. unfold slice0.
  destruct (k <? 0) eqn:E; [apply Z.ltb_lt in E; lia |].
  destruct (Z.le_gt_cases k (Z.of_nat (List.length l))) as [Hle | Hgt].
  - rewrite Z.min_l by exact Hle. reflexivity.
  - rewrite Z.min_r by lia. rewrite Nat2Z.id.
    rewrite firstn_all. symmetry. apply firstn_all2. lia.
Qed.




(** X30. Under the same ranking condition the order of the last two steps
    does not matter: truncating and then filtering, as the code does,
    returns what filtering and then truncating returns. *)
Lemma rankHits_order_irrelevant :
  forall (results : list hit) (k : Z),
    0 <= k ->
    thresholdRespected results = true ->
    rankHits results k = slice0 k (filter aboveThreshold (sortBy byScoreDesc results)).
Proof.
  intros results k Hk Hsep. unfold rankHits.
  rewrite !slice0_firstn by exact Hk.
  apply partitioned_filter_firstn.
  apply sortBy_partitioned. intros a b Ha Hb.
  apply (allApart_In _ byScoreDesc aboveThreshold results); assumption.
Qed.

(** ** Unit norm, over the reals *)

Lemma sumSquares_from_ge :
  forall (v : list R) (acc : R),
    (acc <= fold_left (fun sum val => sum + val * val) v acc)%R.
Proof.
  induction v as [| x v IH]; intros acc; cbn [fold_left].
  - lra.
  - eapply Rle_trans; [| apply IH]. nra.
Qed.

Lemma sumSquares_from_scaled :
  forall (m : R) (v : list R) (acc : R),
    m <> 0%R ->
    fold_left (fun sum val => sum + val * val)%R (map (fun val => val / m)%R v)
              (acc / (m * m))%R
    = (fold_left (fun sum val => sum + val * val)%R v acc / (m * m))%R.
Proof.
  intros m v. induction v as [| x v IH]; intros acc Hm; cbn [fold_left map].
  - reflexivity.
  - rewrite <- IH by exact Hm. f_equal. field. exact Hm.
Qed.

Lemma sumSquares_nonneg : forall v : list R, (0 <= @sumSquares R realNum v)%R.
Proof.
  intros v. unfold sumSquares. cbn [nadd nmul nzero realNum].
  apply sumSquares_from_ge.
Qed.

(** Dividing a vector by its nonzero magnitude gives a vector of magnitude 1. *)
Lemma normalize_unit_norm :
  forall v : list R,
    @magnitude R realNum v <> 0%R ->
    @magnitude R realNum (@normalize R realNum v) = 1%R.
Proof.
  intros v Hm.
  pose proof (sumSquares_nonneg v) as Hnonneg.
  unfold normalize, magnitude in *. cbn [nsqrt ndiv realNum] in *.
  set (m := sqrt (@sumSquares R realNum v)) in *.
  assert (Hmm : (m * m = @sumSquares R realNum v)%R) by (apply sqrt_sqrt; exact Hnonneg).
  unfold sumSquares at 1. cbn [nadd nmul nzero realNum].
  replace 0%R with (0 / (m * m))%R at 1 by (field; exact Hm).
  rewrite sumSquares_from_scaled by exact Hm.
  change (fold_left (fun sum val => sum + val * val)%R v 0%R) with (@sumSquares R realNum v).
  rewrite <- Hmm.
  replace (m * m / (m * m))%R with 1%R by (field; exact Hm).
  apply sqrt_1.
Qed.

Lemma sumSquares_from_In :
  forall (x : R) (v : list R) (acc : R),
    In x v ->
    (acc + x * x <= fold_left (fun sum val => sum + val * val) v acc)%R.
Proof.
  intros x v. induction v as [| y v IH]; intros acc Hin; cbn [fold_left].
  - destruct Hin.
  - destruct Hin as [-> | Hin].
    + apply sumSquares_from_ge.
    + eapply Rle_trans; [| apply IH; exact Hin]. nra.
Qed.

(** A vector with a nonzero component has a nonzero magnitude. *)
Lemma magnitude_nonzero :
  forall (x : R) (v : list R),
    In x v -> x <> 0%R -> @magnitude R realNum v <> 0%R.
Proof.
  intros x v Hin Hx. unfold magnitude, sumSquares. cbn [nsqrt nadd nmul nzero realNum].
  pose proof (sumSquares_from_In x v 0%R Hin) as Hge.
  assert (Hpos : (0 < x * x)%R) by nra.
  apply Rgt_not_eq. apply sqrt_lt_R0. lra.
Qed.

Lemma addAt_In :
  forall (T : Type) (N : Num T) (v : list T) (d : nat) (x dflt : T),
    (d < List.length v)%nat ->
    In (nadd (nth d v dflt) x) (addAt d x v).
Proof.
  intros T N v. induction v as [| y v IH]; intros d x dflt Hd.
  - cbn in Hd. lia.
  - destruct d as [| d]; cbn [addAt nth].
    + left. reflexivity.
    + right. apply IH. cbn in Hd. lia.
Qed.

Lemma hi_magnitude_nonzero :
  @magnitude R realNum (@accumulated R realNum "hi") <> 0%R.
Proof.
  apply (magnitude_nonzero (0 + IZR 247 / IZR 1000)%R); [| lra].
  unfold accumulated.
  change (words "hi") with ["hi"].
  cbn [accumulateFrom]. unfold accumulateWord.
  replace (simpleHash ("hi" ++ JsString.ofIndex 0)) with 103247
    by (vm_compute; reflexivity).
  rewrite repeat_length.
  change (Z.rem 103247 1000) with 247.
  change (Z.to_nat (Z.rem 103247 (Z.of_nat dimensions))) with 335%nat.
  cbn [ndiv nofZ realNum].
  replace (0 + IZR 247 / IZR 1000)%R
    with (nadd (nth 335 (repeat (@nzero R realNum) dimensions) (@nzero R realNum))
               (IZR 247 / IZR 1000)%R).
  - apply addAt_In. rewrite repeat_length. unfold dimensions. lia.
  - rewrite nth_repeat. reflexivity.
Qed.

(** In the program's floating point the norm is 1 up to rounding; on these
    texts it is within 1e-9 of 1. *)
Lemma unit_norm_float_samples :
  forallb (fun s => PrimFloat.ltb
                      (PrimFloat.abs
                         (PrimFloat.sub (magnitude (@generateMockEmbedding float floatNum s)) 1))
                      1e-9)
          [ "hi"; ""; "React developer"; "I have 5 years of React experience";
            "Senior engineer with Kubernetes, Docker and AWS" ] = true.
Proof.
  vm_compute. reflexivity.
Qed.

(** * Further properties of the code *)

Set Warnings "-notation-for-abbreviation".

(** ** Hasher *)

Lemma toInt32_range : forall z : Z, - 2 ^ 31 <= toInt32 z < 2 ^ 31.
Proof.
  intros z. unfold toInt32.
  pose proof (Z.mod_pos_bound (z + 2 ^ 31) (2 ^ 32) ltac:(lia)). lia.
Qed.

Lemma toInt32_congr :
  forall a b : Z, a mod 2 ^ 32 = b mod 2 ^ 32 -> toInt32 a = toInt32 b.
Proof.
  intros a b Hab. unfold toInt32.
  rewrite (Z.add_mod a), (Z.add_mod b), Hab by lia. reflexivity.
Qed.

Lemma toInt32_mod : forall z : Z, toInt32 z mod 2 ^ 32 = z mod 2 ^ 32.
Proof.
  intros z. unfold toInt32.
  rewrite Zminus_mod, Z.mod_mod by lia.
  rewrite <- Zminus_mod. f_equal. lia.
Qed.

Lemma toInt32_fixed : forall z : Z, - 2 ^ 31 <= z < 2 ^ 31 -> toInt32 z = z.
Proof.
  intros z Hz. unfold toInt32. rewrite Z.mod_small by lia. lia.
Qed.

(** One round of the loop is [31 * hash + char], wrapped to 32 bits: the
    shift-and-subtract of the source is the multiplication by 31. *)
Lemma hashStep_31 :
  forall hash char : Z, hashStep hash char = toInt32 (31 * hash + char).
Proof.
  intros hash char. unfold hashStep. cbv zeta.
  rewrite Z.land_diag. apply toInt32_congr.
  rewrite Z.shiftl_mul_pow2 by lia.
  rewrite Zplus_mod, Zminus_mod, toInt32_mod.
  rewrite (Zmult_mod (toInt32 hash)), toInt32_mod.
  rewrite <- Zmult_mod, <- Zminus_mod, <- Zplus_mod.
  f_equal. lia.
Qed.

Lemma hashLoop_congr :
  forall (str : string) (h1 h2 : Z),
    h1 mod 2 ^ 32 = h2 mod 2 ^ 32 ->
    hashLoop str h1 mod 2 ^ 32 = polyLoop str h2 mod 2 ^ 32.
Proof.
  induction str as [| c rest IH]; intros h1 h2 Hh; cbn [hashLoop polyLoop].
  - exact Hh.
  - apply IH. rewrite hashStep_31, toInt32_mod.
    rewrite Zplus_mod, Zmult_mod, Hh, <- Zmult_mod, <- Zplus_mod. reflexivity.
Qed.

Lemma hashLoop_range :
  forall (str : string) (h : Z),
    - 2 ^ 31 <= h < 2 ^ 31 -> - 2 ^ 31 <= hashLoop str h < 2 ^ 31.
Proof.
  induction str as [| c rest IH]; intros h Hh; cbn [hashLoop].
  - exact Hh.
  - apply IH. rewrite hashStep_31. apply toInt32_range.
Qed.

(** X1. [simpleHash] is the polynomial rolling hash with base 31: the
    absolute value of the 32-bit wrap of the sum of [code * 31^k]. *)
Theorem simpleHash_polynomial :
  forall str : string, simpleHash str = Z.abs (toInt32 (polyLoop str 0)).
Proof.
  intros str. unfold simpleHash. f_equal.
  rewrite <- (toInt32_fixed (hashLoop str 0)) by (apply hashLoop_range; lia).
  apply toInt32_congr. apply hashLoop_congr. reflexivity.
Qed.

(** X2. The hash is an integer from 0 to 2^31, so the bucket [hash % 384]
    is a valid index of the 384-component vector and [hash % 1000] lies in
    0..999: the value added to a bucket is at least 0 and below 1. *)
Theorem simpleHash_range :
  forall str : string,
    0 <= simpleHash str <= 2 ^ 31 /\
    0 <= Z.rem (simpleHash str) 384 < 384 /\
    0 <= Z.rem (simpleHash str) 1000 < 1000.
Proof.
  intros str.
  assert (H : 0 <= simpleHash str <= 2 ^ 31).
  { unfold simpleHash. pose proof (hashLoop_range str 0 ltac:(lia)). lia. }
  split; [exact H |].
  rewrite !Z.rem_mod_nonneg by lia.
  split; apply Z.mod_pos_bound; lia.
Qed.

(** ** Embedder *)

Lemma addAt_length :
  forall (T : Type) (N : Num T) (v : list T) (d : nat) (x : T),
    List.length (addAt d x v) = List.length v.
Proof.
  intros T N v. induction v as [| y v IH]; intros d x.
  - destruct d; reflexivity.
  - destruct d; cbn [addAt List.length]; [reflexivity | rewrite IH; reflexivity].
Qed.

Lemma accumulateFrom_length :
  forall (T : Type) (N : Num T) (ws : list string) (index : nat) (v : list T),
    List.length (accumulateFrom ws index v) = List.length v.
Proof.
  intros T N ws. induction ws as [| w ws IH]; intros index v; cbn [accumulateFrom].
  - reflexivity.
  - rewrite IH. unfold accumulateWord. apply addAt_length.
Qed.

(** X3. Every embedding has exactly 384 components, whatever the text and
    whatever the arithmetic; in particular two embeddings always pass the
    length guard of [cosineSimilarity]. *)
Theorem generateMockEmbedding_length :
  forall (T : Type) (N : Num T) (text : string),
    List.length (@generateMockEmbedding T N text) = 384%nat.
Proof.
  intros T N text. unfold generateMockEmbedding, normalize, accumulated.
  rewrite length_map, accumulateFrom_length, repeat_length. reflexivity.
Qed.

Lemma lowerChar_idempotent :
  forall c : ascii, JsString.lowerChar (JsString.lowerChar c) = JsString.lowerChar c.
Proof.
  intros c.
  destruct c as [[] [] [] [] [] [] [] []]; vm_compute; reflexivity.
Qed.

Lemma toLowerCase_idempotent :
  forall s : string, JsString.toLowerCase (JsString.toLowerCase s) = JsString.toLowerCase s.
Proof.
  induction s as [| c s IH]; cbn [JsString.toLowerCase].
  - reflexivity.
  - rewrite lowerChar_idempotent, IH. reflexivity.
Qed.

(** X4. The embedding ignores letter case: a text and its lower-cased form
    have the same words and the same embedding. *)
Theorem generateMockEmbedding_case_insensitive :
  forall (T : Type) (N : Num T) (text : string),
    words (JsString.toLowerCase text) = words text /\
    @generateMockEmbedding T N (JsString.toLowerCase text) = @generateMockEmbedding T N text.
Proof.
  intros T N text.
  assert (Hw : words (JsString.toLowerCase text) = words text).
  { unfold words. rewrite toLowerCase_idempotent. reflexivity. }
  split; [exact Hw |].
  unfold generateMockEmbedding, accumulated. rewrite Hw. reflexivity.
Qed.

(** ** Similarity scorer *)

Lemma cosineLoop_swap :
  forall (T : Type) (N : Num T),
    (forall x y : T, nmul x y = nmul y x) ->
    forall (a b : list T) (dotProduct normA normB : T),
      cosineLoop b a dotProduct normB normA
      = let '(d, na, nb) := cosineLoop a b dotProduct normA normB in (d, nb, na).
Proof.
  intros T N Hcomm a. induction a as [| x a IH]; intros b dotProduct normA normB.
  - destruct b; reflexivity.
  - destruct b as [| y b]; [reflexivity |].
    cbn [cosineLoop]. rewrite IH, (Hcomm y x). reflexivity.
Qed.

Lemma cosineSimilarity_comm :
  forall (T : Type) (N : Num T),
    (forall x y : T, nmul x y = nmul y x) ->
    forall a b : list T, cosineSimilarity a b = cosineSimilarity b a.
Proof.
  intros T N Hcomm a b. unfold cosineSimilarity.
  rewrite (Nat.eqb_sym (List.length b) (List.length a)).
  destruct (Nat.eqb (List.length a) (List.length b)); cbn [negb]; [| reflexivity].
  rewrite (cosineLoop_swap T N Hcomm a b).
  destruct (cosineLoop a b nzero nzero nzero) as [[d na] nb].
  rewrite (Hcomm (nsqrt nb) (nsqrt na)). reflexivity.
Qed.

Lemma SFmul_comm :
  forall x y : spec_float, SFmul prec emax x y = SFmul prec emax y x.
Proof.
  intros [sx | sx | | sx mx ex] [sy | sy | | sy my ey]; cbn [SFmul];
    rewrite ?(xorb_comm sx sy); try reflexivity.
  rewrite (Pos.mul_comm mx my), (Z.add_comm ex ey). reflexivity.
Qed.

Lemma float_mul_comm : forall x y : float, PrimFloat.mul x y = PrimFloat.mul y x.
Proof.
  intros x y. apply Prim2SF_inj. rewrite !mul_spec. apply SFmul_comm.
Qed.

(** X5. [cosineSimilarity] is symmetric in the program's floating point,
    bit for bit: the products are commutative and the sums are taken in the
    same order. *)
Theorem cosineSimilarity_symmetric :
  forall a b : list float,
    @cosineSimilarity float floatNum a b = @cosineSimilarity float floatNum b a.
Proof.
  apply cosineSimilarity_comm. exact float_mul_comm.
Qed.

(** Numbers whose value is a zero, and numbers that are a zero or NaN. *)
Lemma isZero_spec :
  forall x : float, isZero x = true -> exists s, Prim2SF x = S754_zero s.
Proof.
  intros x Hx. unfold isZero in Hx. rewrite eqb_spec in Hx.
  change (Prim2SF 0) with (S754_zero false) in Hx.
  destruct (Prim2SF x) as [s | s | | s m e]; cbn in Hx;
    try discriminate; try (destruct s; discriminate).
  exists s. reflexivity.
Qed.

Lemma mul_zero_zeroOrNaN :
  forall x y : float,
    (exists s, Prim2SF y = S754_zero s) ->
    (exists s, Prim2SF (PrimFloat.mul x y) = S754_zero s)
    \/ Prim2SF (PrimFloat.mul x y) = S754_nan.
Proof.
  intros x y [s Hy]. rewrite mul_spec, Hy.
  destruct (Prim2SF x) as [sx | sx | | sx mx ex]; cbn; eauto.
Qed.

Lemma mul_zero_zero :
  forall y : float,
    (exists s, Prim2SF y = S754_zero s) ->
    exists s, Prim2SF (PrimFloat.mul y y) = S754_zero s.
Proof.
  intros y [s Hy]. rewrite mul_spec, Hy. cbn. eauto.
Qed.

Lemma add_zeroOrNaN :
  forall a b : float,
    ((exists s, Prim2SF a = S754_zero s) \/ Prim2SF a = S754_nan) ->
    ((exists s, Prim2SF b = S754_zero s) \/ Prim2SF b = S754_nan) ->
    (exists s, Prim2SF (PrimFloat.add a b) = S754_zero s)
    \/ Prim2SF (PrimFloat.add a b) = S754_nan.
Proof.
  intros a b [[sa Ha] | Ha] [[sb Hb] | Hb]; rewrite add_spec, Ha, Hb; cbn; auto.
  left. destruct sa, sb; eauto.
Qed.

Lemma add_zero_zero :
  forall a b : float,
    (exists s, Prim2SF a = S754_zero s) ->
    (exists s, Prim2SF b = S754_zero s) ->
    exists s, Prim2SF (PrimFloat.add a b) = S754_zero s.
Proof.
  intros a b [sa Ha] [sb Hb]. rewrite add_spec, Ha, Hb. cbn.
  destruct sa, sb; eauto.
Qed.

Lemma cosineLoop_zero_vector :
  forall (a b : list float) (dotProduct normA normB : float),
    forallb isZero b = true ->
    ((exists s, Prim2SF dotProduct = S754_zero s) \/ Prim2SF dotProduct = S754_nan) ->
    (exists s, Prim2SF normB = S754_zero s) ->
    ((exists s, Prim2SF (fst (fst (@cosineLoop float floatNum a b dotProduct normA normB)))
                = S754_zero s)
     \/ Prim2SF (fst (fst (@cosineLoop float floatNum a b dotProduct normA normB))) = S754_nan)
    /\ exists s, Prim2SF (snd (@cosineLoop float floatNum a b dotProduct normA normB))
                 = S754_zero s.
Proof.
  induction a as [| x a IH]; intros b dotProduct normA normB Hb Hd Hn.
  - destruct b; cbn; auto.
  - destruct b as [| y b]; [cbn; auto |].
    cbn [forallb] in Hb. apply andb_true_iff in Hb. destruct Hb as [Hy Hb].
    apply isZero_spec in Hy.
    cbn [cosineLoop nadd nmul floatNum]. apply IH.
    + exact Hb.
    + apply add_zeroOrNaN; [exact Hd | apply mul_zero_zeroOrNaN; exact Hy].
    + apply add_zero_zero; [exact Hn | apply mul_zero_zero; exact Hy].
Qed.

(** X6. Against a vector of zeros of the same length the similarity is NaN,
    whatever the other vector is, and on either side.  A stored embedding
    whose NaN components came back as null is such a vector. *)
Theorem cosineSimilarity_zero_vector :
  forall a b : list float,
    List.length a = List.length b ->
    forallb isZero b = true ->
    @cosineSimilarity float floatNum a b = PrimFloat.nan /\
    @cosineSimilarity float floatNum b a = PrimFloat.nan.
Proof.
  intros a b Hlen Hb.
  assert (H : @cosineSimilarity float floatNum a b = PrimFloat.nan).
  { unfold cosineSimilarity. rewrite Hlen, Nat.eqb_refl. cbn [negb].
    destruct (cosineLoop_zero_vector a b 0%float 0%float 0%float Hb) as [Hd Hn].
    - left. exists false. reflexivity.
    - exists false. reflexivity.
    - cbn [nzero floatNum].
      destruct (@cosineLoop float floatNum a b 0%float 0%float 0%float) as [[d na] nb].
      cbn [fst snd] in Hd, Hn. cbn [ndiv nmul nsqrt floatNum].
      apply Prim2SF_inj. change (Prim2SF PrimFloat.nan) with S754_nan.
      assert (Hs : exists s, Prim2SF (PrimFloat.sqrt nb) = S754_zero s).
      { destruct Hn as [s Hn]. rewrite sqrt_spec, Hn. cbn. eauto. }
      destruct (mul_zero_zeroOrNaN (PrimFloat.sqrt na) (PrimFloat.sqrt nb) Hs) as [[s Hm] | Hm];
        rewrite div_spec, Hm; destruct Hd as [[sd Hd] | Hd]; rewrite Hd; reflexivity. }
  split; [exact H |].
  rewrite (cosineSimilarity_comm float floatNum float_mul_comm b a). exact H.
Qed.

Lemma cosineSimilarity_zero_vector_witness :
  List.length (@generateMockEmbedding float floatNum "react developer")
  = List.length (repeat 0%float 384) /\
  forallb isZero (repeat 0%float 384) = true /\
  @cosineSimilarity float floatNum (generateMockEmbedding "react developer")
                    (repeat 0%float 384) = PrimFloat.nan.
Proof.
  assert (H1 : List.length (@generateMockEmbedding float floatNum "react developer")
               = List.length (repeat 0%float 384))
    by (vm_compute; reflexivity).
  assert (H2 : forallb isZero (repeat 0%float 384) = true) by (vm_compute; reflexivity).
  split; [exact H1 | split; [exact H2 |]].
  exact (proj1 (cosineSimilarity_zero_vector _ _ H1 H2)).
Defined.

(** ** PII scanner *)

Lemma memString_In :
  forall (x : string) (l : list string), memString x l = true <-> In x l.
Proof.
  intros x l. unfold memString. rewrite existsb_exists. split.
  - intros (y & Hy & Hxy). apply String.eqb_eq in Hxy. subst y. exact Hy.
  - intros Hx. exists x. split; [exact Hx | apply String.eqb_refl].
Qed.

Lemma uniqueFrom_spec :
  forall xs seen : list string,
    NoDup (uniqueFrom seen xs) /\
    forall x, In x (uniqueFrom seen xs) <-> In x xs /\ ~ In x seen.
Proof.
  induction xs as [| y xs IH]; intros seen; cbn [uniqueFrom].
  - split; [constructor | intros x; cbn; tauto].
  - destruct (memString y seen) eqn:Hy.
    + apply memString_In in Hy.
      destruct (IH seen) as [Hnd Hin]. split; [exact Hnd |].
      intros x. rewrite Hin. cbn [In]. split; [tauto |].
      intros [[-> | Hx] Hns]; tauto.
    + assert (Hyn : ~ In y seen).
      { intros Hc. apply memString_In in Hc. congruence. }
      destruct (IH (y :: seen)) as [Hnd Hin]. split.
      * constructor; [| exact Hnd]. rewrite Hin. cbn [In]. tauto.
      * intros x. cbn [In]. rewrite Hin. cbn [In].
        destruct (String.eqb_spec y x) as [-> | Hne]; tauto.
Qed.

(** X7. [extractPII] returns every category without duplicates, and each
    category holds exactly the strings its pattern matches in the text. *)
Theorem extractPII_unique :
  forall text : string,
    exists es ps ns : list string,
      extractPII text = {| emails := Some es; phones := Some ps; names := Some ns |} /\
      NoDup es /\ NoDup ps /\ NoDup ns /\
      (forall x, In x es <-> In x (matchAll emailRegex text)) /\
      (forall x, In x ps <-> In x (matchAll phoneRegex text)) /\
      (forall x, In x ns <-> In x (matchAll nameRegex text)).
Proof.
  intros text.
  exists (unique (matchAll emailRegex text)), (unique (matchAll phoneRegex text)),
         (unique (matchAll nameRegex text)).
  split; [reflexivity |]. unfold unique.
  repeat split;
    try apply (proj1 (uniqueFrom_spec _ []));
    try (intros Hx; apply (proj2 (uniqueFrom_spec _ [])) in Hx; tauto);
    try (intros Hx; apply (proj2 (uniqueFrom_spec _ [])); cbn; tauto).
Qed.

(** ** Redaction: errors *)

Lemma forEachRedact_email_throws :
  forall (es : list string) (redactedText : string),
    existsb (fun e => isUnsupported (compile e)) es = false ->
    existsb (fun e => isSyntaxError (compile e)) es = true ->
    forEachRedact redactEmail es redactedText = Throws.
Proof.
  induction es as [| e es IH]; intros redactedText Hu Hs; cbn [existsb] in *.
  - discriminate.
  - apply orb_false_iff in Hu. destruct Hu as [Hue Hu].
    cbn [forEachRedact]. unfold redactEmail at 1, replaceRegExp.
    destruct (compile e) eqn:Hc; cbn in Hue, Hs; try discriminate; [| reflexivity].
    apply IH; assumption.
Qed.

(** X8. [redactPII] throws when some listed email is not a valid pattern,
    an address that begins with [+] for one; [extractPII] does return such
    addresses.  Nothing is returned then, not even a partly redacted text. *)
Theorem redactPII_throws :
  forall (text : string) (pii : PIIData),
    existsb (fun e => isUnsupported (compile e)) (optionalList (emails pii)) = false ->
    existsb (fun e => isSyntaxError (compile e)) (optionalList (emails pii)) = true ->
    redactPII text pii = Throws.
Proof.
  intros text pii Hu Hs. unfold redactPII.
  rewrite (forEachRedact_email_throws _ text Hu Hs). reflexivity.
Qed.

Lemma redactPII_throws_witness :
  emails (extractPII "a@b.cc+x@y.zz") = Some ["a@b.cc"; "+x@y.zz"] /\
  compile "+x@y.zz" = SyntaxError /\
  redactPII "a@b.cc+x@y.zz" (extractPII "a@b.cc+x@y.zz") = Throws.
Proof.
  split; [vm_compute; reflexivity |].
  split; [vm_compute; reflexivity |].
  apply (redactPII_throws "a@b.cc+x@y.zz" (extractPII "a@b.cc+x@y.zz")).
  - vm_compute. reflexivity.
  - vm_compute. reflexivity.
Defined.

(** ** Redaction: the phone path *)

Lemma includes_cons :
  forall (w : string) (c : ascii) (s : string),
    JsString.includes w (String c s)
    = JsString.startsWith w (String c s) || JsString.includes w s.
Proof.
  intros w c s. unfold JsString.includes. cbn [JsString.indexOf].
  destruct (JsString.startsWith w (String c s)); [reflexivity |].
  destruct (JsString.indexOf w s); reflexivity.
Qed.

Lemma includes_nil :
  forall w : string,
    JsString.includes w EmptyString = JsString.startsWith w EmptyString.
Proof.
  intros w. unfold JsString.includes. cbn [JsString.indexOf].
  destruct (JsString.startsWith w EmptyString); reflexivity.
Qed.

Lemma startsWith_length :
  forall w s : string,
    JsString.startsWith w s = true ->
    String.length (JsString.skipn (String.length w) s)
    = (String.length s - String.length w)%nat /\
    (String.length w <= String.length s)%nat.
Proof.
  induction w as [| a w IH]; intros s Hs.
  - cbn. split; lia.
  - destruct s as [| b s]; cbn [JsString.startsWith] in Hs; [discriminate |].
    apply andb_true_iff in Hs. destruct Hs as [_ Hs].
    destruct (IH s Hs) as [H1 H2]. cbn [String.length JsString.skipn]. split; lia.
Qed.

Lemma includes_skipn :
  forall (w : string) (n : nat) (s : string),
    JsString.includes w s = false -> JsString.includes w (JsString.skipn n s) = false.
Proof.
  intros w n. induction n as [| n IH]; intros s Hs.
  - destruct s; exact Hs.
  - destruct s as [| c s]; cbn [JsString.skipn]; [exact Hs |].
    rewrite includes_cons in Hs. apply orb_false_iff in Hs. apply IH. tauto.
Qed.

Section LiteralReplace.

Variable p : string.
Variable repl : string.
Hypothesis p_nonempty : p <> EmptyString.

Local Notation R := (replaceAll (literalRegex p) repl).

Lemma literal_replace_step :
  forall (prev : option ascii) (s : string),
    replaceAll_from (literalRegex p) repl prev s 0
    = if JsString.startsWith p s
      then (repl ++ match s with
                    | String c rest =>
                        replaceAll_from (literalRegex p) repl (Some c) rest
                                        (String.length p - 1)
                    | EmptyString => EmptyString
                    end)%string
      else match s with
           | String c rest =>
               String c (replaceAll_from (literalRegex p) repl (Some c) rest 0)
           | EmptyString => EmptyString
           end.
Proof.
  intros prev s.
  assert (Hp : (1 <= String.length p)%nat).
  { destruct p; [contradiction | cbn; lia]. }
  destruct s as [| c rest]; cbn [replaceAll_from]; rewrite matchHere_literal.
  - destruct (JsString.startsWith p EmptyString); reflexivity.
  - destruct (JsString.startsWith p (String c rest)) eqn:E; [| reflexivity].
    destruct (startsWith_length _ _ E) as [Hlen Hle]. rewrite Hlen.
    replace (String.length (String c rest) - (String.length (String c rest) - String.length p))%nat
      with (String.length p) by lia.
    destruct (Nat.eqb (String.length p) 0) eqn:E0; [apply Nat.eqb_eq in E0; lia |].
    reflexivity.
Qed.

Lemma literal_replace_skip :
  forall (k : nat) (prev prev' : option ascii) (s : string),
    replaceAll_from (literalRegex p) repl prev s k
    = replaceAll_from (literalRegex p) repl prev' (JsString.skipn k s) 0.
Proof.
  induction k as [| k IH]; intros prev prev' s.
  - replace (JsString.skipn 0 s) with s by (destruct s; reflexivity).
    rewrite !literal_replace_step. reflexivity.
  - destruct s as [| c rest]; cbn [JsString.skipn].
    + rewrite literal_replace_step. cbn [replaceAll_from].
      destruct p; [contradiction | reflexivity].
    + cbn [replaceAll_from]. apply IH.
Qed.

Lemma literal_replace_nil : R EmptyString = EmptyString.
Proof.
  unfold R, replaceAll. rewrite literal_replace_step.
  destruct p; [contradiction | reflexivity].
Qed.

Lemma literal_replace_match :
  forall s : string,
    JsString.startsWith p s = true ->
    R s = (repl ++ R (JsString.skipn (String.length p) s))%string.
Proof.
  intros s Hs. unfold R, replaceAll. rewrite literal_replace_step, Hs.
  destruct s as [| c rest].
  - destruct p; [contradiction | discriminate].
  - f_equal. rewrite (literal_replace_skip _ (Some c) None).
    destruct p as [| a p']; [contradiction |].
    cbn [String.length JsString.skipn].
    replace (S (String.length p') - 1)%nat with (String.length p') by lia.
    reflexivity.
Qed.

Lemma literal_replace_nomatch :
  forall (c : ascii) (rest : string),
    JsString.startsWith p (String c rest) = false ->
    R (String c rest) = String c (R rest).
Proof.
  intros c rest Hs. unfold R, replaceAll. rewrite literal_replace_step, Hs.
  f_equal. rewrite (literal_replace_skip 0 (Some c) None).
  destruct rest; reflexivity.
Qed.

(** A text in which the literal does not occur is returned as it is. *)
Lemma literal_replace_absent :
  forall s : string, JsString.includes p s = false -> R s = s.
Proof.
  induction s as [| c rest IH]; intros Hs.
  - apply literal_replace_nil.
  - rewrite includes_cons in Hs. apply orb_false_iff in Hs. destruct Hs as [H1 H2].
    rewrite literal_replace_nomatch by exact H1. rewrite IH by exact H2. reflexivity.
Qed.

End LiteralReplace.

Lemma oneOf_cons :
  forall (a : ascii) (q : string) (d : ascii),
    oneOf (String a q) d = Ascii.eqb d a || oneOf q d.
Proof.
  intros a q d. unfold oneOf. rewrite includes_cons.
  cbn [JsString.startsWith]. rewrite andb_true_r. reflexivity.
Qed.

Lemma lastCharIs_oneOf :
  forall (d : ascii) (s : string), lastCharIs d s = true -> oneOf s d = true.
Proof.
  intros d. induction s as [| c s IH]; intros H.
  - discriminate.
  - rewrite oneOf_cons. destruct s as [| c' s'].
    + cbn in H. rewrite Ascii.eqb_sym, H. reflexivity.
    + rewrite IH by exact H. apply orb_true_r.
Qed.

(** A string found at the front of [A ++ X] lies inside [A] or covers all of
    [A]. *)
Lemma startsWith_app :
  forall q A X : string,
    JsString.startsWith q (A ++ X) = true ->
    JsString.startsWith q A = true \/
    (forall d, oneOf A d = true -> oneOf q d = true).
Proof.
  induction q as [| a q IH]; intros A X H.
  - left. reflexivity.
  - destruct A as [| c A].
    + right. intros d Hd. discriminate.
    + cbn [append JsString.startsWith] in *.
      apply andb_true_iff in H. destruct H as [Hac H].
      destruct (IH A X H) as [Hin | Hcover].
      * left. rewrite Hac, Hin. reflexivity.
      * right. intros d Hd. rewrite oneOf_cons in *.
        apply Ascii.eqb_eq in Hac. subst c.
        apply orb_true_iff in Hd. destruct Hd as [Hd | Hd].
        -- rewrite Hd. reflexivity.
        -- rewrite (Hcover d Hd). apply orb_true_r.
Qed.

Lemma includes_app_closed :
  forall (q : string) (dClose : ascii) (A X : string),
    oneOf q dClose = false ->
    (A = EmptyString \/ lastCharIs dClose A = true) ->
    JsString.includes q A = false ->
    JsString.includes q X = false ->
    JsString.includes q (A ++ X) = false.
Proof.
  intros q dClose A X Hq. induction A as [| c A IH]; intros Hlast HA HX.
  - exact HX.
  - destruct Hlast as [Hlast | Hlast]; [discriminate |].
    rewrite includes_cons in HA. apply orb_false_iff in HA. destruct HA as [HA1 HA2].
    cbn [append]. rewrite includes_cons. apply orb_false_iff. split.
    + change (String c (A ++ X)) with (String c A ++ X)%string.
      destruct (JsString.startsWith q (String c A ++ X)) eqn:E; [| reflexivity].
      destruct (startsWith_app _ _ _ E) as [Hin | Hcover].
      * congruence.
      * rewrite (Hcover dClose (lastCharIs_oneOf _ _ Hlast)) in Hq. discriminate.
    + apply IH; try assumption.
      destruct A as [| c' A']; [left; reflexivity | right; exact Hlast].
Qed.

Section PlaceholderReplace.

Variable p : string.
Variable repl0 : string.
Variables dOpen dClose : ascii.
Hypothesis p_nonempty : p <> EmptyString.
Hypothesis repl_closed : lastCharIs dClose (String dOpen repl0) = true.

Local Notation repl := (String dOpen repl0).
Local Notation R := (replaceAll (literalRegex p) repl).

(** What stands at the front of the result and has no opening bracket
    stood at the front of the text. *)
Lemma replaced_front :
  forall q : string,
    oneOf q dOpen = false ->
    forall s : string,
      JsString.startsWith q (R s) = true -> JsString.startsWith q s = true.
Proof.
  induction q as [| a q IH]; intros Hq s H.
  - reflexivity.
  - rewrite oneOf_cons in Hq. apply orb_false_iff in Hq. destruct Hq as [Ha Hq].
    destruct (JsString.startsWith p s) eqn:E.
    + rewrite (literal_replace_match p repl p_nonempty s E) in H.
      cbn [append JsString.startsWith] in H.
      rewrite Ascii.eqb_sym, Ha in H. discriminate.
    + destruct s as [| c rest].
      * rewrite (literal_replace_nil p repl p_nonempty) in H. exact H.
      * rewrite (literal_replace_nomatch p repl p_nonempty c rest E) in H.
        cbn [JsString.startsWith] in *.
        apply andb_true_iff in H. destruct H as [Hac H].
        rewrite Hac, (IH Hq rest H). reflexivity.
Qed.

(** A string clear of the placeholder that does not occur in the text does
    not occur in the result. *)
Lemma replaced_stays_absent :
  forall q : string,
    oneOf q dOpen = false -> oneOf q dClose = false ->
    JsString.includes q repl = false ->
    forall (n : nat) (s : string),
      (String.length s <= n)%nat ->
      JsString.includes q s = false -> JsString.includes q (R s) = false.
Proof.
  intros q Hopen Hclose Hrepl. induction n as [| n IH]; intros s Hn Hs.
  - destruct s; [| cbn in Hn; lia].
    rewrite (literal_replace_nil p repl p_nonempty). exact Hs.
  - destruct (JsString.startsWith p s) eqn:E.
    + rewrite (literal_replace_match p repl p_nonempty s E).
      destruct (startsWith_length _ _ E) as [Hlen Hle].
      assert (Hp : (1 <= String.length p)%nat)
        by (destruct p; [contradiction | cbn; lia]).
      apply (includes_app_closed q dClose); auto.
      apply IH; [lia | apply includes_skipn; exact Hs].
    + destruct s as [| c rest].
      * rewrite (literal_replace_nil p repl p_nonempty). exact Hs.
      * rewrite (literal_replace_nomatch p repl p_nonempty c rest E).
        rewrite includes_cons. apply orb_false_iff.
        rewrite includes_cons in Hs. apply orb_false_iff in Hs. destruct Hs as [H1 H2].
        split.
        -- destruct (JsString.startsWith q (String c (R rest))) eqn:F; [| reflexivity].
           rewrite <- (literal_replace_nomatch p repl p_nonempty c rest E) in F.
           apply (replaced_front q Hopen) in F. congruence.
        -- apply IH; [cbn in Hn; lia | exact H2].
Qed.

(** The replaced literal itself, when clear of the placeholder, does not
    occur in the result. *)
Lemma replaced_is_absent :
  oneOf p dOpen = false -> oneOf p dClose = false ->
  JsString.includes p repl = false ->
  forall (n : nat) (s : string),
    (String.length s <= n)%nat -> JsString.includes p (R s) = false.
Proof.
  intros Hopen Hclose Hrepl.
  assert (Hnil : JsString.includes p EmptyString = false).
  { rewrite includes_nil. destruct p; [contradiction | reflexivity]. }
  induction n as [| n IH]; intros s Hn.
  - destruct s; [| cbn in Hn; lia].
    rewrite (literal_replace_nil p repl p_nonempty). exact Hnil.
  - destruct (JsString.startsWith p s) eqn:E.
    + rewrite (literal_replace_match p repl p_nonempty s E).
      destruct (startsWith_length _ _ E) as [Hlen Hle].
      assert (Hp : (1 <= String.length p)%nat)
        by (destruct p; [contradiction | cbn; lia]).
      apply (includes_app_closed p dClose); auto.
      apply IH. lia.
    + destruct s as [| c rest].
      * rewrite (literal_replace_nil p repl p_nonempty). exact Hnil.
      * rewrite (literal_replace_nomatch p repl p_nonempty c rest E).
        rewrite includes_cons. apply orb_false_iff. split.
        -- destruct (JsString.startsWith p (String c (R rest))) eqn:F; [| reflexivity].
           rewrite <- (literal_replace_nomatch p repl p_nonempty c rest E) in F.
           apply (replaced_front p Hopen) in F. congruence.
        -- apply IH. cbn in Hn. lia.
Qed.

End PlaceholderReplace.

Lemma clearOfPlaceholder_spec :
  forall q : string,
    clearOfPlaceholder q = true ->
    q <> EmptyString /\ oneOf q "[" = false /\ oneOf q "]" = false /\
    JsString.includes q "[PHONE REDACTED]" = false.
Proof.
  intros q H. unfold clearOfPlaceholder in H.
  apply andb_true_iff in H. destruct H as [H H3].
  apply andb_true_iff in H. destruct H as [H1 H2].
  apply negb_true_iff in H1, H2, H3.
  repeat split; try assumption.
  intros ->. vm_compute in H3. discriminate.
Qed.

Lemma forEachRedact_phone_removes :
  forall (ps : list string) (redactedText : string) (done : list string),
    forallb clearOfPlaceholder ps = true ->
    forallb clearOfPlaceholder done = true ->
    (forall q, In q done -> JsString.includes q redactedText = false) ->
    exists out,
      forEachRedact redactPhone ps redactedText = Returns out /\
      forall q, In q done \/ In q ps -> JsString.includes q out = false.
Proof.
  induction ps as [| p ps IH]; intros redactedText done Hps Hdone Habsent.
  - exists redactedText. split; [reflexivity |].
    intros q [Hq | []]. apply Habsent. exact Hq.
  - cbn [forallb] in Hps. apply andb_true_iff in Hps. destruct Hps as [Hp Hps].
    destruct (clearOfPlaceholder_spec p Hp) as (Hne & Hopen & Hclose & Hrepl).
    cbn [forEachRedact]. rewrite redactPhone_literal.
    destruct (IH (replaceAll (literalRegex p) "[PHONE REDACTED]" redactedText) (p :: done))
      as (out & Hout & Hall).
    + exact Hps.
    + cbn [forallb]. rewrite Hp, Hdone. reflexivity.
    + intros q [<- | Hq].
      * apply (replaced_is_absent p "PHONE REDACTED]" "[" "]" Hne eq_refl Hopen Hclose Hrepl
                                  (String.length redactedText)).
        lia.
      * rewrite forallb_forall in Hdone.
        destruct (clearOfPlaceholder_spec q (Hdone q Hq)) as (_ & Hqo & Hqc & Hqr).
        apply (replaced_stays_absent p "PHONE REDACTED]" "[" "]" Hne eq_refl q Hqo Hqc Hqr
                                     (String.length redactedText)).
        -- lia.
        -- apply Habsent. exact Hq.
    + exists out. split; [exact Hout |].
      intros q Hq. apply Hall. cbn [In] in *. tauto.
Qed.

(** X9. When [redactPII] returns, no listed phone occurs in the returned
    text any more, provided every listed phone is clear of the placeholder
    (no square bracket, not a piece of "[PHONE REDACTED]"), as a string of
    digits and separators is.  Replacing one phone neither leaves it behind
    nor brings an earlier one back. *)
Theorem redactPII_removes_phones :
  forall (text : string) (pii : PIIData) (out : string),
    redactPII text pii = Returns out ->
    forallb clearOfPlaceholder (optionalList (phones pii)) = true ->
    forallb (fun p => negb (JsString.includes p out)) (optionalList (phones pii)) = true.
Proof.
  intros text pii out Hret Hclear. unfold redactPII in Hret.
  destruct (forEachRedact redactEmail (optionalList (emails pii)) text) as [t1 | |];
    try discriminate.
  destruct (forEachRedact_phone_removes (optionalList (phones pii)) t1 [] Hclear eq_refl)
    as (out' & Hout & Hall).
  - intros q [].
  - rewrite Hout in Hret. injection Hret as <-.
    apply forallb_forall. intros q Hq. apply negb_true_iff. apply Hall. right. exact Hq.
Qed.

Lemma redactPII_removes_phones_witness :
  phones (extractPII "Call 555-123-4567 or (555) 987-6543, not 555-123-4567 x")
  = Some ["555-123-4567"; "(555) 987-6543"] /\
  redactPII "Call 555-123-4567 or (555) 987-6543, not 555-123-4567 x"
            (extractPII "Call 555-123-4567 or (555) 987-6543, not 555-123-4567 x")
  = Returns "Call [PHONE REDACTED] or [PHONE REDACTED], not [PHONE REDACTED] x" /\
  forallb (fun p => negb (JsString.includes p
             "Call [PHONE REDACTED] or [PHONE REDACTED], not [PHONE REDACTED] x"))
          (optionalList
             (phones (extractPII "Call 555-123-4567 or (555) 987-6543, not 555-123-4567 x")))
  = true.
Proof.
  assert (H1 : redactPII "Call 555-123-4567 or (555) 987-6543, not 555-123-4567 x"
                 (extractPII "Call 555-123-4567 or (555) 987-6543, not 555-123-4567 x")
               = Returns "Call [PHONE REDACTED] or [PHONE REDACTED], not [PHONE REDACTED] x")
    by (vm_compute; reflexivity).
  split; [vm_compute; reflexivity |].
  split; [exact H1 |].
  apply (redactPII_removes_phones _ _ _ H1).
  vm_compute. reflexivity.
Defined.

Lemma forEachRedact_phone_absent :
  forall (ps : list string) (redactedText : string),
    forallb (fun p => negb (JsString.includes p redactedText)) ps = true ->
    forEachRedact redactPhone ps redactedText = Returns redactedText.
Proof.
  induction ps as [| p ps IH]; intros redactedText Hps.
  - reflexivity.
  - cbn [forallb] in Hps. apply andb_true_iff in Hps. destruct Hps as [Hp Hps].
    apply negb_true_iff in Hp.
    cbn [forEachRedact]. rewrite redactPhone_literal.
    rewrite literal_replace_absent.
    + apply IH. exact Hps.
    + intros ->. destruct redactedText; cbn in Hp; discriminate.
    + exact Hp.
Qed.

(** X10. With no emails listed, a text in which none of the listed phones
    occurs is returned unchanged: the phone path alters nothing but
    occurrences of a listed phone. *)
Theorem redactPII_unchanged :
  forall (text : string) (pii : PIIData),
    optionalList (emails pii) = [] ->
    forallb (fun p => negb (JsString.includes p text)) (optionalList (phones pii)) = true ->
    redactPII text pii = Returns text.
Proof.
  intros text pii He Hp. unfold redactPII. rewrite He. cbn [forEachRedact].
  apply forEachRedact_phone_absent. exact Hp.
Qed.

Lemma redactPII_unchanged_witness :
  optionalList (emails {| emails := None; phones := Some ["555-123-4567"; "(a|b)*"];
                          names := Some ["Jane Doe"] |}) = [] /\
  redactPII "Jane Doe, 555-123-4568, (a|b)"
            {| emails := None; phones := Some ["555-123-4567"; "(a|b)*"];
               names := Some ["Jane Doe"] |}
  = Returns "Jane Doe, 555-123-4568, (a|b)".
Proof.
  split; [reflexivity |].
  apply (redactPII_unchanged "Jane Doe, 555-123-4568, (a|b)"
           {| emails := None; phones := Some ["555-123-4567"; "(a|b)*"];
              names := Some ["Jane Doe"] |}).
  - reflexivity.
  - vm_compute. reflexivity.
Defined.

(** ** What the patterns of the scanner can match *)

Lemma append_assoc_string :
  forall a b c : string, ((a ++ b) ++ c)%string = (a ++ (b ++ c))%string.
Proof.
  induction a as [| x a IH]; intros b c; cbn [append].
  - reflexivity.
  - rewrite IH. reflexivity.
Qed.

Lemma append_nil_r_string : forall a : string, (a ++ EmptyString)%string = a.
Proof.
  induction a as [| x a IH]; cbn [append]; [reflexivity | rewrite IH; reflexivity].
Qed.

Lemma run_Rep :
  forall (A : Type) (min : nat) (max : option nat) (r' : regex)
         (prev : option ascii) (s : string) (k : option ascii -> string -> option A),
    run (Rep min max r') prev s k
    = repeatLoop A (fun prev' s' k' => run r' prev' s' k') k
                 (S (min + String.length s)) min max prev s.
Proof.
  reflexivity.
Qed.

Lemma repeatLoop_sound :
  forall (A : Type)
         (step : option ascii -> string -> (option ascii -> string -> option A) -> option A)
         (L : string -> Prop),
    (forall prev s k x,
        step prev s k = Some x ->
        exists m rest prev', s = (m ++ rest)%string /\ L m /\ k prev' rest = Some x) ->
    forall (k : option ascii -> string -> option A) (n min : nat) (max : option nat)
           (prev : option ascii) (s : string) (x : A),
      match max with Some mx => Nat.leb min mx | None => true end = true ->
      repeatLoop A step k n min max prev s = Some x ->
      exists m rest prev',
        s = (m ++ rest)%string /\
        (exists ms, m = concatStrings ms /\ Forall L ms /\ (min <= List.length ms)%nat) /\
        k prev' rest = Some x.
Proof.
  intros A step L Hstep k.
  assert (Hstop : forall prev s x,
             k prev s = Some x ->
             exists m rest prev',
               s = (m ++ rest)%string /\
               (exists ms, m = concatStrings ms /\ Forall L ms /\ (0 <= List.length ms)%nat) /\
               k prev' rest = Some x).
  { intros prev s x Hk. exists EmptyString, s, prev. split; [reflexivity |].
    split; [| exact Hk]. exists []. cbn. auto. }
  assert (Hmore : forall n min max,
             (forall prev s x,
                 repeatLoop A step k n (Nat.pred min) (option_map Nat.pred max) prev s = Some x ->
                 exists m rest prev',
                   s = (m ++ rest)%string /\
                   (exists ms, m = concatStrings ms /\ Forall L ms
                               /\ (Nat.pred min <= List.length ms)%nat) /\
                   k prev' rest = Some x) ->
             forall prev s x,
               step prev s
                    (fun prev' s' =>
                       if Nat.eqb min 0 && Nat.eqb (String.length s') (String.length s)
                       then None
                       else repeatLoop A step k n (Nat.pred min) (option_map Nat.pred max)
                                       prev' s') = Some x ->
               exists m rest prev',
                 s = (m ++ rest)%string /\
                 (exists ms, m = concatStrings ms /\ Forall L ms
                             /\ (min <= List.length ms)%nat) /\
                 k prev' rest = Some x).
  { intros n min max IHn prev s x Hrun.
    destruct (Hstep _ _ _ _ Hrun) as (m1 & rest1 & p1 & -> & Hl1 & Hk1).
    destruct (Nat.eqb min 0 && Nat.eqb (String.length rest1) (String.length (m1 ++ rest1)));
      [discriminate |].
    destruct (IHn _ _ _ Hk1) as (m2 & rest2 & p2 & -> & (ms & -> & Hms & Hlen) & Hk2).
    exists (m1 ++ concatStrings ms)%string, rest2, p2.
    rewrite append_assoc_string. split; [reflexivity |].
    split; [| exact Hk2]. exists (m1 :: ms). cbn. split; [reflexivity |].
    split; [constructor; assumption | lia]. }
  induction n as [| n IHn]; intros min max prev s x Hmax Hrun; [discriminate |].
  assert (Hpred : match option_map Nat.pred max with
                  | Some mx => Nat.leb (Nat.pred min) mx
                  | None => true
                  end = true).
  { destruct max as [mx |]; cbn; [| reflexivity].
    apply Nat.leb_le in Hmax. apply Nat.leb_le. lia. }
  pose proof (fun prev0 s0 x0 H0 =>
                IHn (Nat.pred min) (option_map Nat.pred max) prev0 s0 x0 Hpred H0) as IHn'.
  clear Hpred. cbn [repeatLoop] in Hrun.
  destruct max as [[| mx] |].
  - apply Nat.leb_le in Hmax. assert (min = 0%nat) by lia. subst min.
    exact (Hstop _ _ _ Hrun).
  - destruct (Nat.eqb min 0) eqn:Hmin; cbn [negb] in Hrun.
    + apply Nat.eqb_eq in Hmin. subst min.
      match type of Hrun with
      | match ?again with _ => _ end = _ => destruct again as [y |] eqn:E
      end.
      * injection Hrun as ->.
        exact (Hmore n 0%nat (Some (S mx)) IHn' _ _ _ E).
      * exact (Hstop _ _ _ Hrun).
    + refine (Hmore n min (Some (S mx)) IHn' _ _ _ _).
      rewrite Hmin. exact Hrun.
  - destruct (Nat.eqb min 0) eqn:Hmin; cbn [negb] in Hrun.
    + apply Nat.eqb_eq in Hmin. subst min.
      match type of Hrun with
      | match ?again with _ => _ end = _ => destruct again as [y |] eqn:E
      end.
      * injection Hrun as ->.
        exact (Hmore n 0%nat None IHn' _ _ _ E).
      * exact (Hstop _ _ _ Hrun).
    + refine (Hmore n min None IHn' _ _ _ _).
      rewrite Hmin. exact Hrun.
Qed.

(** Whatever the matcher hands to its continuation is a split of the text
    into a piece of the language of the pattern and the rest. *)
Lemma run_sound :
  forall (A : Type) (r : regex),
    boundsOrdered r = true ->
    forall (prev : option ascii) (s : string)
           (k : option ascii -> string -> option A) (x : A),
      run r prev s k = Some x ->
      exists m rest prev',
        s = (m ++ rest)%string /\ lang r m /\ k prev' rest = Some x.
Proof.
  intros A r. induction r as [cls | | r1 IH1 r2 IH2 | r1 IH1 r2 IH2 | min max r' IH | ];
    intros Hwf prev s k x Hrun.
  - cbn [run] in Hrun. destruct s as [| c s']; [discriminate |].
    destruct (cls c) eqn:Hc; [| discriminate].
    exists (String c EmptyString), s', (Some c). cbn [lang append]. eauto.
  - cbn [run] in Hrun. exists EmptyString, s, prev. cbn. auto.
  - cbn [boundsOrdered] in Hwf. apply andb_true_iff in Hwf. destruct Hwf as [Hwf1 Hwf2].
    cbn [run] in Hrun.
    destruct (IH1 Hwf1 _ _ _ _ Hrun) as (m1 & rest1 & p1 & -> & Hl1 & Hk1).
    destruct (IH2 Hwf2 _ _ _ _ Hk1) as (m2 & rest2 & p2 & -> & Hl2 & Hk2).
    exists (m1 ++ m2)%string, rest2, p2. rewrite append_assoc_string.
    cbn [lang]. eauto 8.
  - cbn [boundsOrdered] in Hwf. apply andb_true_iff in Hwf. destruct Hwf as [Hwf1 Hwf2].
    cbn [run] in Hrun.
    destruct (run r1 prev s k) as [y |] eqn:E1.
    + injection Hrun as ->.
      destruct (IH1 Hwf1 _ _ _ _ E1) as (m & rest & p1 & -> & Hl & Hk).
      exists m, rest, p1. cbn [lang]. auto.
    + destruct (IH2 Hwf2 _ _ _ _ Hrun) as (m & rest & p1 & -> & Hl & Hk).
      exists m, rest, p1. cbn [lang]. auto.
  - cbn [boundsOrdered] in Hwf. apply andb_true_iff in Hwf. destruct Hwf as [Hmax Hwf].
    rewrite run_Rep in Hrun. cbn [lang].
    apply (repeatLoop_sound A _ (lang r') (IH Hwf) k _ min max prev s x Hmax Hrun).
  - cbn [run] in Hrun.
    destruct (xorb (isWordAt prev) (isWordAt (headChar s))); [| discriminate].
    exists EmptyString, s, prev. cbn. auto.
Qed.

Lemma length_append_string :
  forall a b : string,
    String.length (a ++ b) = (String.length a + String.length b)%nat.
Proof.
  induction a as [| x a IH]; intros b; cbn [append String.length].
  - reflexivity.
  - rewrite IH. reflexivity.
Qed.

Lemma firstn_append_string :
  forall a b : string, JsString.firstn (String.length a) (a ++ b) = a.
Proof.
  induction a as [| x a IH]; intros b; cbn [append String.length JsString.firstn].
  - destruct b; reflexivity.
  - rewrite IH. reflexivity.
Qed.

Lemma startsWith_append : forall a b : string, JsString.startsWith a (a ++ b) = true.
Proof.
  intros a b. apply startsWith_spec. exists b. reflexivity.
Qed.

Lemma startsWith_includes :
  forall w s : string, JsString.startsWith w s = true -> JsString.includes w s = true.
Proof.
  intros w s H. destruct s as [| c s].
  - rewrite includes_nil. exact H.
  - rewrite includes_cons, H. reflexivity.
Qed.

Lemma matchHere_sound :
  forall (r : regex) (prev : option ascii) (s after : string),
    boundsOrdered r = true ->
    matchHere r prev s = Some after ->
    exists m, s = (m ++ after)%string /\ lang r m.
Proof.
  intros r prev s after Hwf H. unfold matchHere in H.
  destruct (run_sound _ r Hwf _ _ _ _ H) as (m & rest & p' & -> & Hl & Hk).
  injection Hk as ->. exists m. auto.
Qed.

(** Every string [text.match(re)] returns belongs to the language of the
    pattern and occurs in the text. *)
Lemma matchAll_from_sound :
  forall (r : regex),
    boundsOrdered r = true ->
    forall (s : string) (prev : option ascii) (skip : nat) (x : string),
      In x (matchAll_from r prev s skip) ->
      lang r x /\ JsString.includes x s = true.
Proof.
  intros r Hwf. induction s as [| c rest IH]; intros prev skip x Hin.
  - destruct skip as [| skip]; cbn [matchAll_from] in Hin; [| destruct Hin].
    destruct (matchHere r prev EmptyString) as [after |] eqn:E; [| destruct Hin].
    destruct Hin as [<- | []].
    destruct (matchHere_sound _ _ _ _ Hwf E) as (m & Hs & Hl).
    destruct m; [| discriminate]. destruct after; [| discriminate].
    cbn. auto.
  - destruct skip as [| skip]; cbn [matchAll_from] in Hin.
    + destruct (matchHere r prev (String c rest)) as [after |] eqn:E.
      * destruct Hin as [<- | Hin].
        -- destruct (matchHere_sound _ _ _ _ Hwf E) as (m & Hs & Hl).
           rewrite Hs, length_append_string.
           replace (String.length m + String.length after - String.length after)%nat
             with (String.length m) by lia.
           rewrite firstn_append_string. split; [exact Hl |].
           apply startsWith_includes, startsWith_append.
        -- destruct (IH _ _ _ Hin) as [Hl Hi]. split; [exact Hl |].
           rewrite includes_cons, Hi. apply orb_true_r.
      * destruct (IH _ _ _ Hin) as [Hl Hi]. split; [exact Hl |].
        rewrite includes_cons, Hi. apply orb_true_r.
    + destruct (IH _ _ _ Hin) as [Hl Hi]. split; [exact Hl |].
      rewrite includes_cons, Hi. apply orb_true_r.
Qed.

Lemma allChars_app :
  forall (P : ascii -> bool) (a b : string),
    allChars P (a ++ b) = allChars P a && allChars P b.
Proof.
  intros P. induction a as [| x a IH]; intros b; cbn [append allChars].
  - reflexivity.
  - rewrite IH, andb_assoc. reflexivity.
Qed.

Lemma lang_classesWithin :
  forall (P : ascii -> bool) (r : regex) (m : string),
    classesWithin P r -> lang r m -> allChars P m = true.
Proof.
  intros P. induction r as [cls | | r1 IH1 r2 IH2 | r1 IH1 r2 IH2 | min max r' IH | ];
    intros m Hc Hl; cbn [classesWithin lang] in *.
  - destruct Hl as (c & -> & Hcls). cbn. rewrite (Hc c Hcls). reflexivity.
  - subst m. reflexivity.
  - destruct Hc as [Hc1 Hc2]. destruct Hl as (m1 & m2 & -> & Hl1 & Hl2).
    rewrite allChars_app, (IH1 _ Hc1 Hl1), (IH2 _ Hc2 Hl2). reflexivity.
  - destruct Hc as [Hc1 Hc2]. destruct Hl as [Hl | Hl]; auto.
  - destruct Hl as (ms & -> & Hms & _).
    induction Hms as [| y ms Hy Hms IHms]; cbn [concatStrings].
    + reflexivity.
    + rewrite allChars_app, (IH _ Hc Hy), IHms. reflexivity.
  - subst m. reflexivity.
Qed.

Lemma oneOf_nil : forall c : ascii, oneOf EmptyString c = false.
Proof.
  intros c. reflexivity.
Qed.

Lemma oneOf_app :
  forall (a b : string) (c : ascii), oneOf (a ++ b) c = oneOf a c || oneOf b c.
Proof.
  induction a as [| x a IH]; intros b c; cbn [append].
  - reflexivity.
  - rewrite !oneOf_cons, IH, orb_assoc. reflexivity.
Qed.

Lemma allChars_oneOf :
  forall (P : ascii -> bool) (m : string) (c : ascii),
    allChars P m = true -> oneOf m c = true -> P c = true.
Proof.
  intros P. induction m as [| x m IH]; intros c Hall Hc.
  - discriminate.
  - cbn [allChars] in Hall. apply andb_true_iff in Hall. destruct Hall as [Hx Hall].
    rewrite oneOf_cons in Hc. apply orb_true_iff in Hc. destruct Hc as [Hc | Hc].
    + apply Ascii.eqb_eq in Hc. subst c. exact Hx.
    + apply IH; assumption.
Qed.

Lemma includes_chars :
  forall (q A : string) (c : ascii),
    JsString.includes q A = true -> oneOf q c = true -> oneOf A c = true.
Proof.
  intros q A c Hi Hc. apply includes_spec in Hi. destruct Hi as (pre & post & ->).
  rewrite !oneOf_app, Hc. rewrite orb_true_r. reflexivity.
Qed.

Lemma phoneRegex_shape :
  boundsOrdered phoneRegex = true /\ classesWithin isPhoneChar phoneRegex.
Proof.
  split; [reflexivity |].
  unfold phoneRegex. cbv zeta. cbn [seq opt times lit classesWithin].
  repeat split; intros c;
    destruct c as [[] [] [] [] [] [] [] []]; vm_compute; intros H;
    first [reflexivity | discriminate H].
Qed.

Lemma emailRegex_shape :
  boundsOrdered emailRegex = true /\ classesWithin isEmailChar emailRegex.
Proof.
  split; [reflexivity |].
  unfold emailRegex. cbv zeta. cbn [seq plus atLeast lit classesWithin].
  repeat split; intros c;
    destruct c as [[] [] [] [] [] [] [] []]; vm_compute; intros H;
    first [reflexivity | discriminate H].
Qed.

Lemma phone_has_digit :
  forall m : string,
    lang phoneRegex m -> exists c, isDigit c = true /\ oneOf m c = true.
Proof.
  intros m Hl. unfold phoneRegex in Hl. cbv zeta in Hl.
  cbn [seq lang] in Hl.
  destruct Hl as (m1 & r1 & -> & _ & (m2 & r2 & -> & _ & (m3 & r3 & -> & Hd & _))).
  unfold times in Hd. cbn [lang] in Hd.
  destruct Hd as (ms & -> & Hms & Hlen).
  destruct ms as [| y ms]; [cbn in Hlen; lia |].
  inversion Hms as [| ? ? Hy Hrest]; subst.
  destruct Hy as (c & -> & Hc).
  exists c. split; [exact Hc |].
  cbn [concatStrings]. rewrite !oneOf_app, oneOf_cons, Ascii.eqb_refl.
  cbn [orb]. rewrite !orb_true_r. reflexivity.
Qed.

Lemma email_has_at :
  forall m : string, lang emailRegex m -> oneOf m "@" = true.
Proof.
  intros m Hl. unfold emailRegex in Hl. cbv zeta in Hl.
  cbn [seq lang] in Hl.
  destruct Hl as (m1 & r1 & -> & _ & (m2 & r2 & -> & _ & (m3 & r3 & -> & Hat & _))).
  unfold lit in Hat. cbn [lang] in Hat. destruct Hat as (c & -> & Hc).
  apply Ascii.eqb_eq in Hc. subst c.
  rewrite !oneOf_app, oneOf_cons. cbn [Ascii.eqb Bool.eqb orb andb].
  rewrite !orb_true_r. reflexivity.
Qed.

Lemma digit_not_in_placeholder :
  forall c : ascii, isDigit c = true -> oneOf "[PHONE REDACTED]" c = false.
Proof.
  intros c. destruct c as [[] [] [] [] [] [] [] []]; vm_compute; intros H;
    first [reflexivity | discriminate H].
Qed.

Lemma unique_In :
  forall (x : string) (l : list string), In x (unique l) <-> In x l.
Proof.
  intros x l. unfold unique. rewrite (proj2 (uniqueFrom_spec l [])). cbn. tauto.
Qed.

Lemma extracted_phone_clear :
  forall text p : string,
    In p (optionalList (phones (extractPII text))) ->
    JsString.includes p text = true /\ allChars isPhoneChar p = true /\
    (exists c, isDigit c = true /\ oneOf p c = true) /\
    clearOfPlaceholder p = true.
Proof.
  intros text p Hin. cbn [extractPII phones optionalList] in Hin.
  apply (proj1 (unique_In _ _)) in Hin. unfold matchAll in Hin.
  destruct phoneRegex_shape as [Hwf Hcls].
  destruct (matchAll_from_sound _ Hwf _ _ _ _ Hin) as [Hl Hi].
  pose proof (lang_classesWithin _ _ _ Hcls Hl) as Hall.
  destruct (phone_has_digit _ Hl) as (c & Hc & Hpc).
  repeat split; try assumption; [eauto |].
  unfold clearOfPlaceholder.
  destruct (oneOf p "[") eqn:E1.
  { apply (allChars_oneOf _ _ _ Hall) in E1. discriminate. }
  destruct (oneOf p "]") eqn:E2.
  { apply (allChars_oneOf _ _ _ Hall) in E2. discriminate. }
  destruct (JsString.includes p "[PHONE REDACTED]") eqn:E3; [| reflexivity].
  pose proof (includes_chars _ _ c E3 Hpc) as Hbad.
  rewrite (digit_not_in_placeholder c Hc) in Hbad. discriminate.
Qed.

(** X11. What [extractPII] returns is well formed: every phone occurs in the
    text, is made of digits, [+], [-], [.], parentheses and white space
    only and has a digit; every email occurs in the text, contains [@] and
    is made of letters, digits and [._%+-@|] only, so it has no white
    space. *)
Theorem extractPII_wellformed :
  forall text : string,
    (forall p, In p (optionalList (phones (extractPII text))) ->
               JsString.includes p text = true /\ allChars isPhoneChar p = true /\
               exists c, isDigit c = true /\ oneOf p c = true) /\
    (forall e, In e (optionalList (emails (extractPII text))) ->
               JsString.includes e text = true /\ allChars isEmailChar e = true /\
               oneOf e "@" = true).
Proof.
  intros text. split.
  - intros p Hin. destruct (extracted_phone_clear text p Hin) as (H1 & H2 & H3 & _). auto.
  - intros e Hin. cbn [extractPII emails optionalList] in Hin.
    apply (proj1 (unique_In _ _)) in Hin. unfold matchAll in Hin.
    destruct emailRegex_shape as [Hwf Hcls].
    destruct (matchAll_from_sound _ Hwf _ _ _ _ Hin) as [Hl Hi].
    repeat split; [exact Hi | exact (lang_classesWithin _ _ _ Hcls Hl) | exact (email_has_at _ Hl)].
Qed.

(** X12. For a record that [extractPII] produced, whenever [redactPII]
    returns, none of the extracted phones occurs in the returned text,
    whatever text was redacted. *)
Theorem redactPII_removes_extracted_phones :
  forall (text scanned out : string),
    redactPII text (extractPII scanned) = Returns out ->
    forallb (fun p => negb (JsString.includes p out))
            (optionalList (phones (extractPII scanned))) = true.
Proof.
  intros text scanned out Hret. unfold redactPII in Hret.
  destruct (forEachRedact redactEmail (optionalList (emails (extractPII scanned))) text)
    as [t1 | |]; try discriminate.
  assert (Hclear : forallb clearOfPlaceholder (optionalList (phones (extractPII scanned)))
                   = true).
  { apply forallb_forall. intros p Hp. apply (extracted_phone_clear scanned p Hp). }
  destruct (forEachRedact_phone_removes _ t1 [] Hclear eq_refl) as (out' & Hout & Hall).
  - intros q [].
  - rewrite Hout in Hret. injection Hret as <-.
    apply forallb_forall. intros q Hq. apply negb_true_iff. apply Hall. right. exact Hq.
Qed.

Lemma redactPII_removes_extracted_phones_witness :
  redactPII "Phone: +1 (555) 123-4567; fax 555.987.6543"
            (extractPII "Phone: +1 (555) 123-4567; fax 555.987.6543")
  = Returns "Phone: [PHONE REDACTED]; fax [PHONE REDACTED]" /\
  forallb (fun p => negb (JsString.includes p "Phone: [PHONE REDACTED]; fax [PHONE REDACTED]"))
          (optionalList (phones (extractPII "Phone: +1 (555) 123-4567; fax 555.987.6543")))
  = true.
Proof.
  assert (H1 : redactPII "Phone: +1 (555) 123-4567; fax 555.987.6543"
                 (extractPII "Phone: +1 (555) 123-4567; fax 555.987.6543")
               = Returns "Phone: [PHONE REDACTED]; fax [PHONE REDACTED]")
    by (vm_compute; reflexivity).
  split; [exact H1 |].
  exact (redactPII_removes_extracted_phones _ _ _ H1).
Defined.

(** ** Semantic retriever: what every result satisfies *)

Lemma SFcompare_refl :
  forall a : spec_float, a <> S754_nan -> SFcompare a a = Some Eq.
Proof.
  intros [s | s | | s m e] Ha; cbn [SFcompare]; try contradiction; try reflexivity.
  - destruct s; reflexivity.
  - rewrite Z.compare_refl, Pos.compare_cont_refl. destruct s; reflexivity.
Qed.

Lemma ltb_not_NaN :
  forall x y : float, PrimFloat.ltb x y = true -> isNaN x = false /\ isNaN y = false.
Proof.
  intros x y H. rewrite ltb_spec in H. unfold SFltb in H.
  assert (Hx : Prim2SF x <> S754_nan).
  { intros E. rewrite E in H. cbn in H. discriminate. }
  assert (Hy : Prim2SF y <> S754_nan).
  { intros E. rewrite E in H. destruct (Prim2SF x); cbn in H; discriminate. }
  unfold isNaN. rewrite !eqb_spec. unfold SFeqb.
  rewrite (SFcompare_refl _ Hx), (SFcompare_refl _ Hy). split; reflexivity.
Qed.

Lemma firstn_subset :
  forall (A : Type) (n : nat) (l : list A) (x : A), In x (firstn n l) -> In x l.
Proof.
  intros A n. induction n as [| n IH]; intros l x Hin.
  - destruct Hin.
  - destruct l as [| y l]; [destruct Hin |].
    cbn [firstn In] in *. destruct Hin as [-> | Hin]; auto.
Qed.

Lemma slice0_subset :
  forall (A : Type) (k : Z) (l : list A) (x : A), In x (slice0 k l) -> In x l.
Proof.
  intros A k l x. unfold slice0. apply firstn_subset.
Qed.

Lemma slice0_length :
  forall (A : Type) (k : Z) (l : list A),
    (List.length (slice0 k l) <= List.length l)%nat /\
    (0 <= k -> Z.of_nat (List.length (slice0 k l)) <= k).
Proof.
  intros A k l. split.
  - unfold slice0. rewrite length_firstn. lia.
  - intros Hk. rewrite slice0_firstn by exact Hk. rewrite length_firstn. lia.
Qed.

Lemma string_firstn_length :
  forall (n : nat) (s : string), (String.length (JsString.firstn n s) <= n)%nat.
Proof.
  induction n as [| n IH]; intros s.
  - destruct s; cbn; lia.
  - destruct s as [| c s]; cbn [JsString.firstn String.length]; [lia |].
    specialize (IH s). lia.
Qed.

Lemma string_firstn_prefix :
  forall (n : nat) (s : string), JsString.startsWith (JsString.firstn n s) s = true.
Proof.
  induction n as [| n IH]; intros s.
  - destruct s; reflexivity.
  - destruct s as [| c s]; cbn [JsString.firstn JsString.startsWith]; [reflexivity |].
    rewrite Ascii.eqb_refl, IH. reflexivity.
Qed.

(** X13. Every hit [semanticSearch] returns has a score above 0.1 (so its
    score is a number), comes from an entry of the corpus whose id it
    carries, and its text is a prefix of that entry's text of at most 500
    characters.  No more hits are returned than the corpus has entries, and
    no more than k when k is not negative. *)
Theorem semanticSearch_hits :
  forall (query : string) (resumes : list resume) (k : Z),
    (forall h, In h (semanticSearch query resumes k) ->
               PrimFloat.ltb 0.1 (score h) = true /\ isNaN (score h) = false /\
               exists r, In r resumes /\ resume_id h = id r /\
                         score h = cosineSimilarity (generateMockEmbedding query) (embedding r) /\
                         JsString.startsWith (hit_text h) (text r) = true /\
                         (String.length (hit_text h) <= 500)%nat) /\
    (List.length (semanticSearch query resumes k) <= List.length resumes)%nat /\
    (0 <= k -> Z.of_nat (List.length (semanticSearch query resumes k)) <= k).
Proof.
  intros query resumes k. unfold semanticSearch, rankHits.
  set (results := map (toHit (generateMockEmbedding query)) resumes).
  split; [| split].
  - intros h Hin. apply filter_In in Hin. destruct Hin as [Hin Habove].
    apply slice0_subset in Hin. apply (proj1 (sortBy_In _ _ aboveThreshold _ _)) in Hin.
    apply in_map_iff in Hin. destruct Hin as (r & <- & Hr).
    unfold aboveThreshold in Habove. split; [exact Habove |].
    split; [exact (proj2 (ltb_not_NaN _ _ Habove)) |].
    exists r. cbn [toHit resume_id score hit_text]. unfold JsString.substring.
    repeat split; try assumption.
    + replace (JsString.skipn 0 (text r)) with (text r) by (destruct (text r); reflexivity).
      apply string_firstn_prefix.
    + apply string_firstn_length.
  - pose proof (filter_length_le _ aboveThreshold (slice0 k (sortBy byScoreDesc results))).
    pose proof (proj1 (slice0_length _ k (sortBy byScoreDesc results))).
    rewrite (sortBy_length _ byScoreDesc) in *.
    subst results. rewrite length_map in *. lia.
  - intros Hk.
    pose proof (filter_length_le _ aboveThreshold (slice0 k (sortBy byScoreDesc results))).
    pose proof (proj2 (slice0_length _ k (sortBy byScoreDesc results)) Hk). lia.
Qed.

Lemma rankHits_order_irrelevant_witness :
  0 <= 1 /\
  thresholdRespected (map (toHit (generateMockEmbedding "react developer"))
                          [javaEntry; reactEntry]) = true /\
  rankHits (map (toHit (generateMockEmbedding "react developer")) [javaEntry; reactEntry]) 1
  = slice0 1 (filter aboveThreshold
                     (sortBy byScoreDesc
                             (map (toHit (generateMockEmbedding "react developer"))
                                  [javaEntry; reactEntry]))).
Proof.
  assert (H0 : 0 <= 1) by lia.
  assert (H1 : thresholdRespected (map (toHit (generateMockEmbedding "react developer"))
                                       [javaEntry; reactEntry]) = true)
    by (vm_compute; reflexivity).
  split; [exact H0 | split; [exact H1 |]].
  exact (rankHits_order_irrelevant _ 1 H0 H1).
Defined.

(** ** Job matcher: candidates *)

Lemma matchResume_fields :
  forall (j : job) (jobEmbedding : list float) (r : candidateResume),
    let scanned := scanRequirements (cr_text r) (jobRequirements j) in
    let total := Z.of_nat (List.length (jobRequirements j)) in
    matchResume j jobEmbedding r
    = {| c_resume_id := cr_id r;
         candidate_name := name (cr_user r);
         candidate_email := email (cr_user r);
         resume_filename := cr_filename r;
         match_score :=
           clampScore
             (combinedScoreOf (cosineSimilarity jobEmbedding (cr_embedding r))
                              (keywordScoreOf total (total - Z.of_nat (List.length (snd scanned)))));
         evidence_snippets := slice0 3 (fst scanned);
         missing_requirements := slice0 5 (snd scanned) |}.
Proof.
  intros j jobEmbedding r. cbv zeta. unfold matchResume.
  destruct (scanRequirements (cr_text r) (jobRequirements j)) as [ev miss]. reflexivity.
Qed.


Lemma clampScore_NaN :
  forall x : float, isNaN x = true -> clampScore x = PrimFloat.nan.
Proof.
  intros x Hx. unfold clampScore, Math_min. rewrite Hx, orb_true_r. reflexivity.
Qed.

(** X15. The match score of a candidate is NaN or lies in [0, 100]; it is
    NaN exactly when the combined score is. *)
Theorem match_score_NaN_or_in_range :
  forall (j : job) (jobEmbedding : list float) (r : candidateResume),
    let total := Z.of_nat (List.length (jobRequirements j)) in
    let missing := snd (scanRequirements (cr_text r) (jobRequirements j)) in
    let combinedScore :=
      combinedScoreOf (cosineSimilarity jobEmbedding (cr_embedding r))
                      (keywordScoreOf total (total - Z.of_nat (List.length missing))) in
    let s := match_score (matchResume j jobEmbedding r) in
    (isNaN combinedScore = true /\ s = PrimFloat.nan) \/
    (isNaN combinedScore = false /\ PrimFloat.leb 0 s = true /\ PrimFloat.leb s 100 = true).
Proof.
  intros j jobEmbedding r total missing combinedScore s. subst s.
  rewrite matchResume_fields. cbv zeta. cbn [match_score].
  fold total. fold missing. fold combinedScore.
  destruct (isNaN combinedScore) eqn:E.
  - left. split; [reflexivity | apply clampScore_NaN; exact E].
  - right. split; [reflexivity | apply clampScore_in_range; exact E].
Qed.

Lemma insertBy_perm :
  forall (A : Type) (compare : A -> A -> float) (x : A) (l : list A),
    Permutation (insertBy compare x l) (x :: l).
Proof.
  intros A compare x l. induction l as [| y l IH]; cbn [insertBy].
  - apply Permutation_refl.
  - destruct (PrimFloat.ltb 0 (compare x y)).
    + eapply Permutation_trans; [apply perm_skip; exact IH | apply perm_swap].
    + apply Permutation_refl.
Qed.

Lemma sortBy_perm :
  forall (A : Type) (compare : A -> A -> float) (l : list A),
    Permutation (sortBy compare l) l.
Proof.
  intros A compare l. induction l as [| x l IH]; cbn [sortBy].
  - apply Permutation_refl.
  - eapply Permutation_trans; [apply insertBy_perm | apply perm_skip; exact IH].
Qed.

(** X16. The handler returns candidates of the resumes it was given and
    nothing else: each is [matchResume] of one of them; there are no more
    than there are resumes, and no more than [top_n] when that is not
    negative; when [top_n] is at least the number of resumes, the result is
    a rearrangement of all candidates, none lost and none repeated. *)
Theorem matchResumes_candidates :
  forall (j : job) (resumes : list candidateResume) (top_n : Z),
    let all := map (matchResume j (generateMockEmbedding (jobText j))) resumes in
    (forall c, In c (matchResumes j resumes top_n) -> In c all) /\
    (List.length (matchResumes j resumes top_n) <= List.length resumes)%nat /\
    (0 <= top_n -> Z.of_nat (List.length (matchResumes j resumes top_n)) <= top_n) /\
    (Z.of_nat (List.length resumes) <= top_n ->
     Permutation (matchResumes j resumes top_n) all).
Proof.
  intros j resumes top_n all. unfold matchResumes. fold all.
  split; [| split; [| split]].
  - intros c Hc. apply slice0_subset in Hc.
    eapply Permutation_in; [apply sortBy_perm | exact Hc].
  - pose proof (proj1 (slice0_length _ top_n (sortBy byMatchScoreDesc all))) as H.
    rewrite sortBy_length in H. subst all. rewrite length_map in H. exact H.
  - apply slice0_length.
  - intros Hn. rewrite slice0_firstn by lia.
    rewrite firstn_all2; [apply sortBy_perm |].
    rewrite sortBy_length. subst all. rewrite length_map. lia.
Qed.

(** X17. A requirement all of whose sub-phrases have at most 2 characters
    is always reported missing, whatever the resume says: "Go", "C" or
    "R, C" can never be matched. *)
Theorem short_requirement_missing :
  forall (originalText : string) (evidence missing : list string) (requirement : string),
    forallb (fun word => Nat.leb (String.length word) 2) (requirementWords requirement) = true ->
    scanRequirement originalText (JsString.toLowerCase originalText)
                    (evidence, missing) requirement
    = (evidence, (missing ++ [requirement])%list).
Proof.
  intros originalText evidence missing requirement Hshort.
  apply scanRequirement_missing.
  induction (requirementWords requirement) as [| w ws IH]; cbn [existsb forallb] in *.
  - reflexivity.
  - apply andb_true_iff in Hshort. destruct Hshort as [Hw Hws].
    rewrite (IH Hws), orb_false_r. unfold wordFound.
    apply Nat.leb_le in Hw.
    destruct (Nat.ltb 2 (String.length w)) eqn:E; [apply Nat.ltb_lt in E; lia | reflexivity].
Qed.

Lemma short_requirement_missing_witness :
  forallb (fun word => Nat.leb (String.length word) 2) (requirementWords "go") = true /\
  JsString.includes "go" (JsString.toLowerCase "I write Go and C every day") = true /\
  scanRequirement "I write Go and C every day"
                  (JsString.toLowerCase "I write Go and C every day") ([], []) "go"
  = ([], ["go"]).
Proof.
  assert (H : forallb (fun word => Nat.leb (String.length word) 2) (requirementWords "go")
              = true) by (vm_compute; reflexivity).
  split; [exact H |]. split; [vm_compute; reflexivity |].
  exact (short_requirement_missing "I write Go and C every day" [] [] "go" H).
Defined.

(** ** Job matcher: evidence snippets *)

Lemma toLowerCase_length :
  forall s : string, String.length (JsString.toLowerCase s) = String.length s.
Proof.
  induction s as [| c s IH]; cbn [JsString.toLowerCase String.length]; congruence.
Qed.

Lemma toLowerCase_firstn :
  forall (n : nat) (s : string),
    JsString.toLowerCase (JsString.firstn n s) = JsString.firstn n (JsString.toLowerCase s).
Proof.
  induction n as [| n IH]; intros s.
  - destruct s; reflexivity.
  - destruct s as [| c s]; cbn [JsString.firstn JsString.toLowerCase]; [reflexivity |].
    rewrite IH. reflexivity.
Qed.

Lemma toLowerCase_skipn :
  forall (n : nat) (s : string),
    JsString.toLowerCase (JsString.skipn n s) = JsString.skipn n (JsString.toLowerCase s).
Proof.
  induction n as [| n IH]; intros s.
  - destruct s; reflexivity.
  - destruct s as [| c s]; cbn [JsString.skipn JsString.toLowerCase]; [reflexivity |].
    apply IH.
Qed.


Lemma startsWith_firstn :
  forall (w : string) (n : nat) (s : string),
    JsString.startsWith w s = true -> (String.length w <= n)%nat ->
    JsString.startsWith w (JsString.firstn n s) = true.
Proof.
  induction w as [| a w IH]; intros n s Hs Hn.
  - reflexivity.
  - destruct s as [| b s]; [discriminate |].
    destruct n as [| n]; [cbn in Hn; lia |].
    cbn [JsString.startsWith JsString.firstn] in *.
    apply andb_true_iff in Hs. destruct Hs as [Hab Hs].
    rewrite Hab, IH; [reflexivity | exact Hs | cbn in Hn; lia].
Qed.

Lemma includes_empty : forall s : string, JsString.includes EmptyString s = true.
Proof.
  intros s. destruct s; reflexivity.
Qed.

Lemma includes_firstn :
  forall (w : string) (d n : nat) (s : string),
    JsString.startsWith w (JsString.skipn d s) = true ->
    (d + String.length w <= n)%nat ->
    JsString.includes w (JsString.firstn n s) = true.
Proof.
  intros w. induction d as [| d IH]; intros n s Hs Hn.
  - replace (JsString.skipn 0 s) with s in Hs by (destruct s; reflexivity).
    apply startsWith_includes, startsWith_firstn; [exact Hs | lia].
  - destruct s as [| c s].
    + cbn in Hs. destruct w; [apply includes_empty | discriminate].
    + destruct n as [| n]; [lia |].
      cbn [JsString.skipn JsString.firstn] in *.
      rewrite includes_cons, (IH n s Hs) by lia. apply orb_true_r.
Qed.

Lemma skipn_skipn_string :
  forall (a b : nat) (s : string),
    JsString.skipn a (JsString.skipn b s) = JsString.skipn (b + a) s.
Proof.
  intros a b. revert a. induction b as [| b IH]; intros a s.
  - destruct s; reflexivity.
  - destruct s as [| c s]; cbn [JsString.skipn Nat.add].
    + destruct a; reflexivity.
    + apply IH.
Qed.


(** ** Global replacement with a pattern that does not look behind *)

Lemma skipn_append_string :
  forall a b : string, JsString.skipn (String.length a) (a ++ b) = b.
Proof.
  induction a as [| x a IH]; intros b; cbn [append String.length JsString.skipn].
  - destruct b; reflexivity.
  - apply IH.
Qed.

Section GlobalReplace.

Variable r : regex.
Variable repl : string.
Hypothesis prev_free :
  forall (prev prev' : option ascii) (s : string), matchHere r prev s = matchHere r prev' s.
Hypothesis match_nonempty :
  forall (prev : option ascii) (s after : string),
    matchHere r prev s = Some after ->
    exists m, m <> EmptyString /\ s = (m ++ after)%string.

Lemma global_replace_nil :
  forall prev : option ascii, replaceAll_from r repl prev EmptyString 0 = EmptyString.
Proof.
  intros prev. cbn [replaceAll_from].
  destruct (matchHere r prev EmptyString) as [after |] eqn:E; [| reflexivity].
  destruct (match_nonempty _ _ _ E) as (m & Hm & Hs).
  destruct m; [contradiction | discriminate].
Qed.

Lemma global_replace_skip :
  forall (k : nat) (prev prev' : option ascii) (s : string),
    replaceAll_from r repl prev s k
    = replaceAll_from r repl prev' (JsString.skipn k s) 0.
Proof.
  induction k as [| k IH]; intros prev prev' s.
  - replace (JsString.skipn 0 s) with s by (destruct s; reflexivity).
    destruct s as [| c rest]; cbn [replaceAll_from]; rewrite (prev_free prev prev'); reflexivity.
  - destruct s as [| c rest]; cbn [JsString.skipn].
    + rewrite global_replace_nil. reflexivity.
    + cbn [replaceAll_from]. apply IH.
Qed.

Lemma global_replace_match :
  forall s after : string,
    matchHere r None s = Some after ->
    replaceAll r repl s = (repl ++ replaceAll r repl after)%string.
Proof.
  intros s after E. unfold replaceAll.
  destruct (match_nonempty _ _ _ E) as (m & Hm & ->).
  destruct m as [| c m']; [contradiction |].
  cbn [append replaceAll_from]. cbn [append] in E. rewrite E.
  cbn [String.length]. rewrite length_append_string.
  replace (S (String.length m' + String.length after) - String.length after)%nat
    with (S (String.length m')) by lia.
  cbn [Nat.eqb]. f_equal.
  rewrite (global_replace_skip _ (Some c) None).
  replace (S (String.length m') - 1)%nat with (String.length m') by lia.
  rewrite skipn_append_string. reflexivity.
Qed.

Lemma global_replace_nomatch :
  forall (c : ascii) (rest : string),
    matchHere r None (String c rest) = None ->
    replaceAll r repl (String c rest) = String c (replaceAll r repl rest).
Proof.
  intros c rest E. unfold replaceAll. cbn [replaceAll_from]. rewrite E.
  f_equal. rewrite (global_replace_skip 0 (Some c) None).
  destruct rest; reflexivity.
Qed.

(** The result holds nothing but characters of the text and of the
    replacement. *)
Lemma global_replace_chars :
  forall (d : ascii) (n : nat) (s : string),
    (String.length s <= n)%nat ->
    oneOf (replaceAll r repl s) d = true -> oneOf s d = true \/ oneOf repl d = true.
Proof.
  intros d. induction n as [| n IH]; intros s Hn H.
  - destruct s; [| cbn in Hn; lia].
    unfold replaceAll in H. rewrite global_replace_nil in H. discriminate.
  - destruct (matchHere r None s) as [after |] eqn:E.
    + rewrite (global_replace_match _ _ E) in H.
      destruct (match_nonempty _ _ _ E) as (m & Hm & ->).
      rewrite oneOf_app in H. apply orb_true_iff in H. destruct H as [H | H]; [auto |].
      rewrite length_append_string in Hn.
      assert (Hml : (1 <= String.length m)%nat) by (destruct m; [contradiction | cbn; lia]).
      destruct (IH after ltac:(lia) H) as [H' | H']; [| auto].
      left. rewrite oneOf_app, H'. apply orb_true_r.
    + destruct s as [| c rest].
      * unfold replaceAll in H. rewrite global_replace_nil in H. discriminate.
      * rewrite (global_replace_nomatch _ _ E) in H.
        rewrite oneOf_cons in *. apply orb_true_iff in H. destruct H as [H | H].
        -- left. rewrite H. reflexivity.
        -- cbn in Hn. destruct (IH rest ltac:(lia) H) as [H' | H']; [| auto].
           left. rewrite H'. apply orb_true_r.
Qed.

End GlobalReplace.

(** ** [parseDOCX]: what the two patterns match *)

Lemma run_Cat :
  forall (A : Type) (r1 r2 : regex) (prev : option ascii) (s : string)
         (k : option ascii -> string -> option A),
    run (Cat r1 r2) prev s k = run r1 prev s (fun prev' s' => run r2 prev' s' k).
Proof.
  reflexivity.
Qed.

Lemma run_Chr :
  forall (A : Type) (cls : ascii -> bool) (prev : option ascii) (s : string)
         (k : option ascii -> string -> option A),
    run (Chr cls) prev s k
    = match s with
      | String c s' => if cls c then k (Some c) s' else None
      | EmptyString => None
      end.
Proof.
  reflexivity.
Qed.

Lemma repeatLoop_star_class :
  forall (cls : ascii -> bool) (s : string) (n : nat) (prev : option ascii),
    (String.length s < n)%nat ->
    repeatLoop string (fun p s' k => run (Chr cls) p s' k) (fun _ rest => Some rest)
               n 0 None prev s
    = Some (dropWhile cls s).
Proof.
  intros cls. induction s as [| c rest IH]; intros n prev Hn.
  - destruct n as [| n]; [cbn in Hn; lia |]. reflexivity.
  - destruct n as [| n]; [cbn in Hn; lia |].
    cbn [repeatLoop run dropWhile Nat.eqb negb andb Nat.pred option_map].
    destruct (cls c) eqn:Hc; [| reflexivity].
    replace (Nat.eqb (String.length rest) (String.length (String c rest))) with false
      by (symmetry; apply Nat.eqb_neq; cbn; lia).
    rewrite IH by (cbn in Hn; lia). reflexivity.
Qed.

(** [/\s+/] matches, at a white-space character, the whole run of white
    space that starts there, and nowhere else. *)
Lemma spacesRegex_matchHere :
  forall (prev : option ascii) (s : string),
    matchHere spacesRegex prev s
    = match s with
      | String c rest =>
          if JsString.isSpace c then Some (dropWhile JsString.isSpace rest) else None
      | EmptyString => None
      end.
Proof.
  intros prev s. unfold matchHere, spacesRegex, plus. rewrite run_Rep.
  cbn [repeatLoop Nat.eqb negb andb Nat.pred option_map].
  destruct s as [| c rest]; cbn [run]; [reflexivity |].
  destruct (JsString.isSpace c); [| reflexivity].
  apply repeatLoop_star_class. cbn. lia.
Qed.

Lemma repeatLoop_star_gt :
  forall (s : string) (n : nat) (prev : option ascii),
    (String.length s < n)%nat ->
    repeatLoop string (fun p s' k => run (Chr (fun c => negb (Ascii.eqb c ">"))) p s' k)
               (fun p s' => run (lit ">") p s' (fun _ rest => Some rest))
               n 0 None prev s
    = afterFirst ">" s.
Proof.
  induction s as [| c rest IH]; intros n prev Hn.
  - destruct n as [| n]; [cbn in Hn; lia |]. reflexivity.
  - destruct n as [| n]; [cbn in Hn; lia |].
    cbn [repeatLoop run lit afterFirst Nat.eqb negb andb Nat.pred option_map].
    rewrite (Ascii.eqb_sym c ">").
    destruct (Ascii.eqb ">" c) eqn:Hc; cbn [negb]; [reflexivity |].
    replace (Nat.eqb (String.length rest) (String.length (String c rest))) with false
      by (symmetry; apply Nat.eqb_neq; cbn; lia).
    rewrite IH by (cbn in Hn; lia).
    destruct (afterFirst ">" rest); reflexivity.
Qed.

(** [/<[^>]*>/] matches, at a [<] that some [>] follows, up to the first
    such [>], and nowhere else. *)
Lemma tagRegex_matchHere :
  forall (prev : option ascii) (s : string),
    matchHere tagRegex prev s
    = match s with
      | String c rest => if Ascii.eqb "<" c then afterFirst ">" rest else None
      | EmptyString => None
      end.
Proof.
  intros prev s. unfold matchHere, tagRegex. cbn [seq].
  rewrite run_Cat. unfold lit at 1. rewrite run_Chr.
  destruct s as [| c rest]; [reflexivity |].
  destruct (Ascii.eqb "<" c); [| reflexivity].
  rewrite run_Cat, run_Rep. apply repeatLoop_star_gt. cbn. lia.
Qed.

Lemma dropWhile_suffix :
  forall (cls : ascii -> bool) (s : string),
    exists m, s = (m ++ dropWhile cls s)%string.
Proof.
  intros cls. induction s as [| c rest IH]; cbn [dropWhile].
  - exists EmptyString. reflexivity.
  - destruct (cls c).
    + destruct IH as [m Hm]. exists (String c m). cbn [append]. rewrite <- Hm. reflexivity.
    + exists EmptyString. reflexivity.
Qed.

Lemma afterFirst_suffix :
  forall (d : ascii) (s after : string),
    afterFirst d s = Some after ->
    exists m, s = (m ++ after)%string /\ m <> EmptyString.
Proof.
  intros d. induction s as [| c rest IH]; intros after H; cbn [afterFirst] in H.
  - discriminate.
  - destruct (Ascii.eqb d c).
    + injection H as <-. exists (String c EmptyString). split; [reflexivity | discriminate].
    + destruct (IH _ H) as (m & -> & _). exists (String c m). split; [reflexivity | discriminate].
Qed.

Lemma afterFirst_None :
  forall (d : ascii) (s : string), afterFirst d s = None -> oneOf s d = false.
Proof.
  intros d. induction s as [| c rest IH]; intros H; cbn [afterFirst] in H.
  - reflexivity.
  - rewrite oneOf_cons. destruct (Ascii.eqb d c); [discriminate |].
    rewrite IH by exact H. reflexivity.
Qed.

Lemma spacesRegex_nonempty :
  forall (prev : option ascii) (s after : string),
    matchHere spacesRegex prev s = Some after ->
    exists m, m <> EmptyString /\ s = (m ++ after)%string.
Proof.
  intros prev s after H. rewrite spacesRegex_matchHere in H.
  destruct s as [| c rest]; [discriminate |].
  destruct (JsString.isSpace c); [| discriminate]. injection H as <-.
  destruct (dropWhile_suffix JsString.isSpace rest) as [m Hm].
  exists (String c m). split; [discriminate |]. cbn [append]. rewrite <- Hm. reflexivity.
Qed.

Lemma tagRegex_nonempty :
  forall (prev : option ascii) (s after : string),
    matchHere tagRegex prev s = Some after ->
    exists m, m <> EmptyString /\ s = (m ++ after)%string.
Proof.
  intros prev s after H. rewrite tagRegex_matchHere in H.
  destruct s as [| c rest]; [discriminate |].
  destruct (Ascii.eqb "<" c); [| discriminate].
  destruct (afterFirst_suffix _ _ _ H) as (m & -> & _).
  exists (String c m). split; [discriminate | reflexivity].
Qed.

Lemma spacesRegex_prev_free :
  forall (prev prev' : option ascii) (s : string),
    matchHere spacesRegex prev s = matchHere spacesRegex prev' s.
Proof.
  intros. rewrite !spacesRegex_matchHere. reflexivity.
Qed.

Lemma tagRegex_prev_free :
  forall (prev prev' : option ascii) (s : string),
    matchHere tagRegex prev s = matchHere tagRegex prev' s.
Proof.
  intros. rewrite !tagRegex_matchHere. reflexivity.
Qed.

(** ** [parseDOCX]: the cleaned text *)

Lemma rev_acc_app :
  forall s acc : string, JsString.rev_acc s acc = (JsString.rev s ++ acc)%string.
Proof.
  unfold JsString.rev. induction s as [| c s IH]; intros acc; cbn [JsString.rev_acc].
  - reflexivity.
  - rewrite IH, (IH (String c EmptyString)), append_assoc_string. reflexivity.
Qed.

Lemma rev_cons :
  forall (c : ascii) (s : string),
    JsString.rev (String c s) = (JsString.rev s ++ String c EmptyString)%string.
Proof.
  intros c s. unfold JsString.rev at 1. cbn [JsString.rev_acc]. apply rev_acc_app.
Qed.

Lemma rev_app :
  forall a b : string, JsString.rev (a ++ b) = (JsString.rev b ++ JsString.rev a)%string.
Proof.
  induction a as [| c a IH]; intros b; cbn [append].
  - change (JsString.rev EmptyString) with EmptyString.
    rewrite append_nil_r_string. reflexivity.
  - rewrite !rev_cons, IH, append_assoc_string. reflexivity.
Qed.

Lemma rev_involutive_string : forall s : string, JsString.rev (JsString.rev s) = s.
Proof.
  induction s as [| c s IH].
  - reflexivity.
  - rewrite rev_cons, rev_app, IH. reflexivity.
Qed.

Lemma trimStart_suffix :
  forall s : string, exists m, s = (m ++ JsString.trimStart s)%string.
Proof.
  induction s as [| c s IH]; cbn [JsString.trimStart].
  - exists EmptyString. reflexivity.
  - destruct (JsString.isSpace c).
    + destruct IH as [m Hm]. exists (String c m). cbn [append]. rewrite <- Hm. reflexivity.
    + exists EmptyString. reflexivity.
Qed.

Lemma trimStart_start :
  forall s : string, startsWithSpace (JsString.trimStart s) = false.
Proof.
  induction s as [| c s IH]; cbn [JsString.trimStart].
  - reflexivity.
  - destruct (JsString.isSpace c) eqn:E; [exact IH | cbn; exact E].
Qed.

Lemma endsWithSpace_app :
  forall a b : string, b <> EmptyString -> endsWithSpace (a ++ b) = endsWithSpace b.
Proof.
  induction a as [| c a IH]; intros b Hb; cbn [append].
  - reflexivity.
  - rewrite <- (IH b Hb). cbn [endsWithSpace].
    destruct (a ++ b)%string eqn:E; [| reflexivity].
    destruct a; [| discriminate]. cbn in E. contradiction.
Qed.

Lemma endsWithSpace_rev :
  forall s : string, endsWithSpace (JsString.rev s) = startsWithSpace s.
Proof.
  intros s. destruct s as [| c s]; [reflexivity |].
  rewrite rev_cons, endsWithSpace_app by discriminate. reflexivity.
Qed.

Lemma startsWithSpace_rev :
  forall s : string, startsWithSpace (JsString.rev s) = endsWithSpace s.
Proof.
  intros s. rewrite <- (rev_involutive_string s) at 2.
  rewrite endsWithSpace_rev. reflexivity.
Qed.

(** [trim] returns a piece of its argument that neither starts nor ends
    with white space. *)
Lemma trim_spec :
  forall s : string,
    (exists pre post, s = (pre ++ JsString.trim s ++ post)%string) /\
    startsWithSpace (JsString.trim s) = false /\
    endsWithSpace (JsString.trim s) = false.
Proof.
  intros s. unfold JsString.trim.
  destruct (trimStart_suffix s) as [pre Hpre].
  set (Y := JsString.trimStart s) in *.
  destruct (trimStart_suffix (JsString.rev Y)) as [q Hq].
  set (Z := JsString.trimStart (JsString.rev Y)) in *.
  assert (HY : Y = (JsString.rev Z ++ JsString.rev q)%string).
  { rewrite <- rev_app, <- Hq, rev_involutive_string. reflexivity. }
  split; [| split].
  - exists pre, (JsString.rev q). rewrite <- HY. exact Hpre.
  - rewrite startsWithSpace_rev.
    destruct Z as [| z Z'] eqn:EZ; [reflexivity |].
    rewrite <- (endsWithSpace_app q (String z Z')) by discriminate.
    rewrite <- Hq, endsWithSpace_rev. subst Y. apply trimStart_start.
  - rewrite endsWithSpace_rev. subst Z. apply trimStart_start.
Qed.

Lemma noTag_suffix :
  forall a b : string, noTag (a ++ b) = true -> noTag b = true.
Proof.
  induction a as [| c a IH]; intros b H; cbn [append noTag] in *.
  - exact H.
  - apply andb_true_iff in H. apply IH. tauto.
Qed.

Lemma noTag_prefix :
  forall a b : string, noTag (a ++ b) = true -> noTag a = true.
Proof.
  induction a as [| c a IH]; intros b H; cbn [append noTag] in *.
  - reflexivity.
  - apply andb_true_iff in H. destruct H as [H1 H2].
    rewrite (IH b H2), andb_true_r.
    destruct (Ascii.eqb c "<"); [| reflexivity].
    rewrite oneOf_app in H1. apply negb_true_iff in H1. apply orb_false_iff in H1.
    apply negb_true_iff. tauto.
Qed.

Lemma singleSpaced_suffix :
  forall a b : string, singleSpaced (a ++ b) = true -> singleSpaced b = true.
Proof.
  induction a as [| c a IH]; intros b H; cbn [append singleSpaced] in *.
  - exact H.
  - apply andb_true_iff in H. apply IH. tauto.
Qed.

Lemma singleSpaced_prefix :
  forall a b : string, singleSpaced (a ++ b) = true -> singleSpaced a = true.
Proof.
  induction a as [| c a IH]; intros b H; cbn [append singleSpaced] in *.
  - reflexivity.
  - apply andb_true_iff in H. destruct H as [H1 H2].
    rewrite (IH b H2), andb_true_r.
    destruct (JsString.isSpace c); [| reflexivity].
    apply andb_true_iff in H1. destruct H1 as [H1 H3]. rewrite H1. cbn [andb].
    destruct a as [| c' a']; [reflexivity | exact H3].
Qed.

Lemma includes_app_l :
  forall w a b : string, JsString.includes w a = true -> JsString.includes w (a ++ b) = true.
Proof.
  intros w a b H. apply includes_spec in H. destruct H as (pre & post & ->).
  apply includes_spec. exists pre, (post ++ b)%string.
  rewrite !append_assoc_string. reflexivity.
Qed.

(** Removing the tags leaves no tag. *)
Lemma stripTags_noTag :
  forall (n : nat) (s : string),
    (String.length s <= n)%nat -> noTag (replaceAll tagRegex " " s) = true.
Proof.
  induction n as [| n IH]; intros s Hn.
  - destruct s; [| cbn in Hn; lia]. reflexivity.
  - destruct (matchHere tagRegex None s) as [after |] eqn:E.
    + rewrite (global_replace_match _ _ tagRegex_prev_free tagRegex_nonempty _ _ E).
      destruct (tagRegex_nonempty _ _ _ E) as (m & Hm & ->).
      rewrite length_append_string in Hn.
      assert ((1 <= String.length m)%nat) by (destruct m; [contradiction | cbn; lia]).
      cbn [append noTag Ascii.eqb Bool.eqb andb]. apply IH. lia.
    + destruct s as [| c rest]; [reflexivity |].
      rewrite (global_replace_nomatch _ _ tagRegex_prev_free tagRegex_nonempty _ _ E).
      cbn [noTag]. rewrite IH by (cbn in Hn; lia). rewrite andb_true_r.
      destruct (Ascii.eqb c "<") eqn:Hc; [| reflexivity].
      rewrite tagRegex_matchHere, (Ascii.eqb_sym "<" c), Hc in E.
      apply afterFirst_None in E. apply negb_true_iff.
      destruct (oneOf (replaceAll tagRegex " " rest) ">") eqn:F; [| reflexivity].
      destruct (global_replace_chars _ _ tagRegex_prev_free tagRegex_nonempty ">"
                                     (String.length rest) rest (le_n _) F) as [H | H].
      * congruence.
      * discriminate.
Qed.

Lemma dropWhile_start :
  forall s : string, startsWithSpace (dropWhile JsString.isSpace s) = false.
Proof.
  induction s as [| c s IH]; cbn [dropWhile].
  - reflexivity.
  - destruct (JsString.isSpace c) eqn:E; [exact IH | cbn; exact E].
Qed.

Lemma collapse_start :
  forall s : string,
    startsWithSpace s = false -> startsWithSpace (replaceAll spacesRegex " " s) = false.
Proof.
  intros s H. destruct s as [| c rest]; [reflexivity |].
  cbn in H.
  rewrite (global_replace_nomatch _ _ spacesRegex_prev_free spacesRegex_nonempty).
  - cbn. exact H.
  - rewrite spacesRegex_matchHere, H. reflexivity.
Qed.

(** Collapsing the runs of white space leaves single blanks, and brings no
    tag back. *)
Lemma collapse_spec :
  forall (n : nat) (s : string),
    (String.length s <= n)%nat ->
    singleSpaced (replaceAll spacesRegex " " s) = true /\
    (noTag s = true -> noTag (replaceAll spacesRegex " " s) = true).
Proof.
  induction n as [| n IH]; intros s Hn.
  - destruct s; [| cbn in Hn; lia]. split; reflexivity.
  - destruct (matchHere spacesRegex None s) as [after |] eqn:E.
    + rewrite (global_replace_match _ _ spacesRegex_prev_free spacesRegex_nonempty _ _ E).
      destruct (spacesRegex_nonempty _ _ _ E) as (m & Hm & Hs).
      assert (Hlen : (String.length after <= n)%nat).
      { rewrite Hs, length_append_string in Hn.
        destruct m; [contradiction | cbn in Hn; lia]. }
      destruct (IH after Hlen) as [IH1 IH2].
      assert (Hstart : startsWithSpace (replaceAll spacesRegex " " after) = false).
      { apply collapse_start. rewrite spacesRegex_matchHere in E.
        destruct s as [| c rest]; [discriminate |].
        destruct (JsString.isSpace c); [| discriminate].
        injection E as <-. apply dropWhile_start. }
      split.
      * cbn [append singleSpaced]. rewrite Hstart, IH1. reflexivity.
      * intros Ht. cbn [append noTag Ascii.eqb Bool.eqb andb]. apply IH2.
        rewrite Hs in Ht. exact (noTag_suffix _ _ Ht).
    + destruct s as [| c rest]; [split; reflexivity |].
      rewrite (global_replace_nomatch _ _ spacesRegex_prev_free spacesRegex_nonempty _ _ E).
      destruct (IH rest ltac:(cbn in Hn; lia)) as [IH1 IH2].
      rewrite spacesRegex_matchHere in E.
      destruct (JsString.isSpace c) eqn:Hc; [discriminate |].
      split.
      * cbn [singleSpaced]. rewrite Hc, IH1. reflexivity.
      * intros Ht. cbn [noTag] in *. apply andb_true_iff in Ht. destruct Ht as [Ht1 Ht2].
        rewrite (IH2 Ht2), andb_true_r.
        destruct (Ascii.eqb c "<"); [| reflexivity].
        apply negb_true_iff in Ht1. apply negb_true_iff.
        destruct (oneOf (replaceAll spacesRegex " " rest) ">") eqn:F; [| reflexivity].
        destruct (global_replace_chars _ _ spacesRegex_prev_free spacesRegex_nonempty ">"
                                       (String.length rest) rest (le_n _) F) as [H | H].
        -- congruence.
        -- discriminate.
Qed.

Lemma cleanDOCX_spec :
  forall text : string,
    noTag (cleanDOCX text) = true /\ singleSpaced (cleanDOCX text) = true /\
    startsWithSpace (cleanDOCX text) = false /\ endsWithSpace (cleanDOCX text) = false.
Proof.
  intros text. unfold cleanDOCX.
  set (stripped := replaceAll tagRegex " " text).
  set (collapsed := replaceAll spacesRegex " " stripped).
  destruct (collapse_spec (String.length stripped) stripped (le_n _)) as [Hss Hnt].
  fold collapsed in Hss, Hnt.
  specialize (Hnt (stripTags_noTag (String.length text) text (le_n _))).
  destruct (trim_spec collapsed) as ((pre & post & Hsub) & Hstart & Hend).
  rewrite Hsub in Hss, Hnt.
  repeat split; try assumption.
  - exact (noTag_prefix _ _ (noTag_suffix _ _ Hnt)).
  - exact (singleSpaced_prefix _ _ (singleSpaced_suffix _ _ Hss)).
Qed.

Lemma parseDOCX_clean_facts :
  forall text : string,
    (50 <= String.length (parseDOCX text))%nat /\
    singleSpaced (parseDOCX text) = true /\
    startsWithSpace (parseDOCX text) = false /\ endsWithSpace (parseDOCX text) = false.
Proof.
  intros text. unfold parseDOCX. cbv zeta.
  destruct (cleanDOCX_spec text) as (H1 & H2 & H3 & H4).
  destruct (Nat.ltb (String.length (cleanDOCX text)) 50) eqn:Elen; cbn [orb].
  - vm_compute. repeat split; try reflexivity. lia.
  - destruct (JsString.includes (String Ascii.zero EmptyString) (cleanDOCX text)) eqn:Enul.
    + vm_compute. repeat split; try reflexivity. lia.
    + apply Nat.ltb_ge in Elen. repeat split; auto.
Qed.

(** X19. Whatever the decoded bytes, [parseDOCX] returns a text of at least
    50 characters without NUL, in which no [<] is followed by a [>] (no tag
    is left), every white-space character is a single blank, and which
    neither starts nor ends with white space: either the cleaned text or
    the fixed placeholder. *)
Theorem parseDOCX_clean :
  forall text : string,
    (parseDOCX text = docxPlaceholder \/ parseDOCX text = cleanDOCX text) /\
    (50 <= String.length (parseDOCX text))%nat /\
    JsString.includes (String Ascii.zero EmptyString) (parseDOCX text) = false /\
    noTag (parseDOCX text) = true /\ singleSpaced (parseDOCX text) = true /\
    startsWithSpace (parseDOCX text) = false /\ endsWithSpace (parseDOCX text) = false.
Proof.
  intros text. unfold parseDOCX. cbv zeta.
  destruct (cleanDOCX_spec text) as (H1 & H2 & H3 & H4).
  destruct (Nat.ltb (String.length (cleanDOCX text)) 50) eqn:Elen; cbn [orb].
  - split; [left; reflexivity |]. vm_compute. repeat split; try reflexivity. lia.
  - destruct (JsString.includes (String Ascii.zero EmptyString) (cleanDOCX text)) eqn:Enul.
    + split; [left; reflexivity |]. vm_compute. repeat split; try reflexivity. lia.
    + apply Nat.ltb_ge in Elen. repeat split; auto.
Qed.

Lemma rev_nonempty :
  forall s : string, s <> EmptyString -> JsString.rev s <> EmptyString.
Proof.
  intros s Hs H. apply (f_equal JsString.rev) in H.
  rewrite rev_involutive_string in H. contradiction.
Qed.

Lemma lowerChar_space_fixed :
  forall c : ascii, JsString.isSpace c = true -> JsString.lowerChar c = c.
Proof.
  intros c. destruct c as [[] [] [] [] [] [] [] []]; vm_compute; intros H;
    first [reflexivity | discriminate H].
Qed.

Lemma toLowerCase_spacing :
  forall s : string,
    startsWithSpace (JsString.toLowerCase s) = startsWithSpace s /\
    endsWithSpace (JsString.toLowerCase s) = endsWithSpace s /\
    singleSpaced (JsString.toLowerCase s) = singleSpaced s.
Proof.
  induction s as [| c s IH]; cbn [JsString.toLowerCase].
  - repeat split.
  - destruct IH as (IH1 & IH2 & IH3). split; [| split].
    + cbn. apply lowerChar_isSpace.
    + cbn [endsWithSpace]. destruct s as [| c' s']; cbn [JsString.toLowerCase].
      * apply lowerChar_isSpace.
      * exact IH2.
    + cbn [singleSpaced]. rewrite lowerChar_isSpace, IH1, IH3.
      destruct (JsString.isSpace c) eqn:E; [| reflexivity].
      rewrite (lowerChar_space_fixed c E). reflexivity.
Qed.

(** Splitting a single-spaced text that does not end with white space gives
    no empty word, once a word has begun or the text begins with one. *)
Lemma splitSpaces_from_nonempty :
  forall s cur : string,
    singleSpaced s = true -> endsWithSpace s = false ->
    (cur <> EmptyString \/ (s <> EmptyString /\ startsWithSpace s = false)) ->
    Forall (fun w => w <> EmptyString) (JsString.splitSpaces_from s cur).
Proof.
  induction s as [| c s IH]; intros cur Hss Hend Hcur.
  - cbn [JsString.splitSpaces_from]. constructor; [| constructor].
    apply rev_nonempty. destruct Hcur as [H | [H _]]; [exact H | contradiction].
  - cbn [singleSpaced] in Hss. apply andb_true_iff in Hss. destruct Hss as [Hc Hss].
    assert (Hend' : endsWithSpace s = false).
    { destruct s as [| c' s']; [reflexivity | exact Hend]. }
    destruct (JsString.isSpace c) eqn:Ec.
    + assert (Hne : cur <> EmptyString).
      { destruct Hcur as [H | [_ H]]; [exact H |]. cbn in H. congruence. }
      apply andb_true_iff in Hc. destruct Hc as [_ Hnext]. apply negb_true_iff in Hnext.
      destruct s as [| c' s'].
      * cbn in Hend. congruence.
      * change (JsString.splitSpaces_from (String c (String c' s')) cur)
          with (if JsString.isSpace c
                then if JsString.isSpace c'
                     then JsString.splitSpaces_from (String c' s') cur
                     else JsString.rev cur
                            :: JsString.splitSpaces_from (String c' s') EmptyString
                else JsString.splitSpaces_from (String c' s') (String c cur)).
        rewrite Ec. cbn in Hnext. rewrite Hnext.
        constructor; [apply rev_nonempty; exact Hne |].
        apply IH; try assumption. right. split; [discriminate | exact Hnext].
    + change (JsString.splitSpaces_from (String c s) cur)
        with (if JsString.isSpace c
              then match s with
                   | String c' _ =>
                       if JsString.isSpace c' then JsString.splitSpaces_from s cur
                       else JsString.rev cur :: JsString.splitSpaces_from s EmptyString
                   | EmptyString => JsString.rev cur :: JsString.splitSpaces_from s EmptyString
                   end
              else JsString.splitSpaces_from s (String c cur)).
      rewrite Ec. apply IH; try assumption. left. discriminate.
Qed.

(** X20. The text [parseDOCX] returns has no empty word for the embedder:
    it is never empty and never starts or ends with white space, so
    [split(/\s+/)] gives neither the empty first word that moves every
    index nor an empty last one. *)
Theorem parseDOCX_words_nonempty :
  forall text : string,
    parseDOCX text <> EmptyString /\
    Forall (fun w => w <> EmptyString) (words (parseDOCX text)).
Proof.
  intros text.
  destruct (parseDOCX_clean_facts text) as (Hlen & Hss & Hstart & Hend).
  assert (Hne : parseDOCX text <> EmptyString).
  { intros E. rewrite E in Hlen. cbn in Hlen. lia. }
  split; [exact Hne |].
  unfold words, JsString.splitSpaces.
  destruct (toLowerCase_spacing (parseDOCX text)) as (L1 & L2 & L3).
  apply splitSpaces_from_nonempty.
  - rewrite L3. exact Hss.
  - rewrite L2. exact Hend.
  - right. split; [| rewrite L1; exact Hstart].
    intros E. apply (f_equal String.length) in E.
    rewrite toLowerCase_length in E. cbn in E. lia.
Qed.

(** ** File types *)

(** X21. [parseFile] dispatches exactly as [getFileType] classifies: a name
    that [isValidFileType] accepts reaches the parser of its type (for a
    ZIP archive, only with a temporary directory), and a name it refuses is
    the one [parseFile] rejects as unsupported, with the lower-cased
    extension in the message. *)
Theorem parseFile_follows_getFileType :
  forall (extname : string -> string) (parsePDF parseDOCXBuffer : string -> parsed)
         (parseZIP : string -> string -> parsed)
         (buffer filename : string) (tempDir : option string),
    parseFile extname parsePDF parseDOCXBuffer parseZIP buffer filename tempDir
    = (if isValidFileType extname filename then
         match getFileType extname filename with
         | PdfFile => parsePDF buffer
         | DocxFile => parseDOCXBuffer buffer
         | _ =>
             if truthy tempDir
             then parseZIP buffer (match tempDir with Some dir => dir | None => "" end)
             else TempDirRequired
         end
       else UnsupportedFileType (JsString.toLowerCase (extname filename))).
Proof.
  intros. unfold parseFile, isValidFileType, getFileType.
  destruct (String.eqb _ ".pdf"); [reflexivity |].
  destruct (String.eqb _ ".docx"); [reflexivity |].
  destruct (String.eqb _ ".zip"); [| reflexivity].
  destruct tempDir as [dir |]; cbn; [| reflexivity].
  destruct (String.eqb dir ""); reflexivity.
Qed.

(** ** Access to resumes and jobs *)

Lemma role_eqb_eq : forall a b, role_eqb a b = true <-> a = b.
Proof. intros [] []; cbn; split; intros H; try reflexivity; discriminate. Qed.

(** X22. What [GET /api/resumes/:id] answers with status 200 to a caller
    whose role is USER: the resume is the caller's own, the [pii] field is
    left out, and the text is the redacted one; when the stored [pii] is
    what [extractPII] found in the text, no phone number found there occurs
    in the answer. *)
Theorem getResume_user_redacted :
  forall (u : authUser) (found : option resumeRow) (status : Z) (body : resumeBody),
    user_role u = USER ->
    getResume u found = Ok status body ->
    exists resume,
      found = Some resume
      /\ rr_userId resume = user_id u
      /\ status = 200
      /\ rb_pii body = None
      /\ redactPII (rr_text resume) (rr_pii resume) = Returns (rb_text body)
      /\ (rr_pii resume = extractPII (rr_text resume) ->
          forallb (fun phone => negb (JsString.includes phone (rb_text body)))
                  (optionalList (phones (rr_pii resume))) = true).
Proof.
  intros u found status body Hrole Hget. unfold getResume in Hget.
  rewrite Hrole in Hget. cbn in Hget.
  destruct found as [resume |]; [| discriminate].
  destruct (String.eqb (rr_userId resume) (user_id u)) eqn:Hown; cbn in Hget;
    [| discriminate].
  destruct (redactPII (rr_text resume) (rr_pii resume)) as [t | |] eqn:Hred;
    try discriminate.
  injection Hget as Hs Hb. subst status body. cbn.
  exists resume. apply String.eqb_eq in Hown.
  repeat split; try assumption.
  intros Hpii. rewrite Hpii in Hred |- *.
  unfold redactPII in Hred.
  destruct (forEachRedact redactEmail
              (optionalList (emails (extractPII (rr_text resume)))) (rr_text resume))
    as [t1 | |]; try discriminate.
  assert (Hclear : forallb clearOfPlaceholder
                     (optionalList (phones (extractPII (rr_text resume)))) = true).
  { apply forallb_forall. intros p Hp. apply (extracted_phone_clear (rr_text resume) p Hp). }
  destruct (forEachRedact_phone_removes _ t1 [] Hclear eq_refl) as (out & Hout & Hall).
  - intros q [].
  - rewrite Hout in Hred. injection Hred as <-.
    apply forallb_forall. intros q Hq. apply negb_true_iff. apply Hall. right. exact Hq.
Qed.

Lemma getResume_user_redacted_witness :
  let u := {| user_id := "u1"; user_email := "ann@example.com"; user_role := USER |} in
  let resume := createdResume u "r1" "cv.docx" "Call 555-123-4567 now" 0 in
  exists stored,
    Some resume = Some stored
    /\ rr_userId stored = user_id u
    /\ 200 = 200
    /\ @None PIIData = None
    /\ redactPII (rr_text stored) (rr_pii stored) = Returns "Call [PHONE REDACTED] now"
    /\ (rr_pii stored = extractPII (rr_text stored) ->
        forallb (fun phone => negb (JsString.includes phone "Call [PHONE REDACTED] now"))
                (optionalList (phones (rr_pii stored))) = true).
Proof.
  intros u resume.
  assert (Hget : getResume u (Some resume)
                 = Ok 200 {| rb_id := "r1"; rb_filename := "cv.docx";
                             rb_text := "Call [PHONE REDACTED] now";
                             rb_pii := None; rb_createdAt := 0 |})
    by (vm_compute; reflexivity).
  exact (getResume_user_redacted u (Some resume) 200 _ eq_refl Hget).
Defined.

(** X23. [GET /api/resumes/:id] refuses with 403 ACCESS_DENIED exactly when
    the resume exists, the caller's role is USER and the resume belongs to
    someone else. *)
Theorem getResume_denied_iff :
  forall (u : authUser) (found : option resumeRow),
    getResume u found = Failure 403 "ACCESS_DENIED"
    <-> exists resume,
          found = Some resume /\ user_role u = USER /\ rr_userId resume <> user_id u.
Proof.
  intros u found. unfold getResume. split.
  - destruct found as [resume |]; [| discriminate].
    destruct (user_role u) eqn:Hrole; cbn;
      try (intros H; discriminate H).
    destruct (String.eqb (rr_userId resume) (user_id u)) eqn:Hown; cbn.
    + destruct (redactPII _ _); intros H; discriminate H.
    + intros _. exists resume. apply String.eqb_neq in Hown. auto.
  - intros (resume & -> & Hrole & Hown). rewrite Hrole. cbn.
    apply String.eqb_neq in Hown. rewrite Hown. reflexivity.
Qed.

(** X24. A recruiter or an administrator gets every resume that exists, with
    the text as stored and the PII record beside it, whoever owns it. *)
Theorem getResume_recruiter_unredacted :
  forall (u : authUser) (resume : resumeRow),
    user_role u <> USER ->
    getResume u (Some resume)
    = Ok 200 {| rb_id := rr_id resume; rb_filename := rr_filename resume;
                rb_text := rr_text resume; rb_pii := Some (rr_pii resume);
                rb_createdAt := rr_createdAt resume |}.
Proof.
  intros u resume Hrole. unfold getResume.
  destruct (user_role u); [contradiction | reflexivity | reflexivity].
Qed.

Lemma getResume_recruiter_unredacted_witness :
  let owner := {| user_id := "u1"; user_email := "ann@example.com"; user_role := USER |} in
  let u := {| user_id := "u2"; user_email := "hr@example.com"; user_role := RECRUITER |} in
  let resume := createdResume owner "r1" "cv.docx" "Call 555-123-4567 now" 0 in
  getResume u (Some resume)
  = Ok 200 {| rb_id := "r1"; rb_filename := "cv.docx";
              rb_text := "Call 555-123-4567 now";
              rb_pii := Some (rr_pii resume);
              rb_createdAt := 0 |}.
Proof.
  intros owner u resume.
  refine (getResume_recruiter_unredacted u resume _).
  cbn. discriminate.
Defined.

(** X25. The owner of a resume is answered 500 FETCH_ERROR, not the resume,
    when one of the stored email addresses is not a valid pattern: the
    exception of [redactPII] reaches the handler's [catch].  A text with an
    address that begins with [+] is stored that way by the upload. *)
Theorem getResume_owner_fetch_error :
  forall (u : authUser) (resume : resumeRow),
    user_role u = USER ->
    rr_userId resume = user_id u ->
    existsb (fun e => isUnsupported (compile e)) (optionalList (emails (rr_pii resume)))
    = false ->
    existsb (fun e => isSyntaxError (compile e)) (optionalList (emails (rr_pii resume)))
    = true ->
    getResume u (Some resume) = Failure 500 "FETCH_ERROR".
Proof.
  intros u resume Hrole Hown Hu Hs. unfold getResume.
  rewrite Hrole, Hown, String.eqb_refl. cbn.
  unfold redactPII. rewrite (forEachRedact_email_throws _ (rr_text resume) Hu Hs).
  reflexivity.
Qed.

Lemma getResume_owner_fetch_error_witness :
  let u := {| user_id := "u1"; user_email := "ann@example.com"; user_role := USER |} in
  getResume u (Some (createdResume u "r1" "cv.docx" "a@b.cc+x@y.zz" 0))
  = Failure 500 "FETCH_ERROR".
Proof.
  intros u.
  refine (getResume_owner_fetch_error u (createdResume u "r1" "cv.docx" "a@b.cc+x@y.zz" 0)
            eq_refl eq_refl _ _).
  - vm_compute. reflexivity.
  - vm_compute. reflexivity.
Defined.

(** X26. [DELETE /api/jobs/:id] deletes the job exactly when the caller is
    authenticated, the job exists, and the caller is an administrator or a
    recruiter who owns the job or meets a job without an owner; it answers
    204 in exactly those cases. *)
Theorem deleteJob_policy :
  forall (user : option authUser) (existing : option jobRow),
    (isDeleted (deleteJob user existing) = true
     <-> exists u job,
           user = Some u /\ existing = Some job
           /\ (user_role u = ADMIN
               \/ user_role u = RECRUITER
                  /\ (truthy (jr_userId job) = false
                      \/ jr_userId job = Some (user_id u))))
    /\ (isDeleted (deleteJob user existing) = true
        <-> fst (deleteJob user existing) = Ok 204 tt).
Proof.
  intros user existing. unfold isDeleted, deleteJob, requireRole.
  destruct user as [u |]; cbn.
  2:{ split; split; try discriminate. intros (u & job & H & _). discriminate. }
  destruct (user_role u) eqn:Hrole; cbn.
  - split; split; try discriminate.
    intros (u' & job & Hu & _ & [H | [H _]]); injection Hu as <-; congruence.
  - destruct existing as [job |]; cbn.
    2:{ split; split; try discriminate. intros (u' & job & _ & H & _). discriminate. }
    destruct (jr_userId job) as [owner |] eqn:Hjob; cbn.
    + destruct (String.eqb owner "") eqn:He; cbn.
      * split; split; try reflexivity. intros _. exists u, job.
        repeat split. right. split; [exact Hrole |]. left. rewrite Hjob. cbn.
        rewrite He. reflexivity.
      * destruct (String.eqb owner (user_id u)) eqn:Ho; cbn.
        -- split; split; try reflexivity. intros _. exists u, job.
           repeat split. right. split; [exact Hrole |]. right.
           apply String.eqb_eq in Ho. congruence.
        -- split; split; try discriminate.
           intros (u' & job' & Hu & Hj & [H | [_ [H | H]]]);
             injection Hu as <-; injection Hj as <-.
           ++ congruence.
           ++ rewrite Hjob in H. cbn in H. rewrite He in H. discriminate.
           ++ rewrite Hjob in H. injection H as ->.
              rewrite String.eqb_refl in Ho. discriminate.
    + split; split; try reflexivity. intros _. exists u, job.
      repeat split. right. split; [exact Hrole |]. left. rewrite Hjob. reflexivity.
  - destruct existing as [job |]; cbn.
    2:{ split; split; try discriminate. intros (u' & job & _ & H & _). discriminate. }
    split; split; try reflexivity. intros _. exists u, job. repeat split. left. exact Hrole.
Qed.

(** ** Idempotency cache *)

Lemma mapGet_mapSet_same :
  forall (key : string) (value : cacheEntry) (m : idempotencyCache),
    mapGet key (mapSet key value m) = Some value.
Proof.
  intros key value m. induction m as [| [k v] rest IH]; cbn.
  - rewrite String.eqb_refl. reflexivity.
  - destruct (String.eqb key k) eqn:E; cbn; rewrite E; [reflexivity | exact IH].
Qed.

Lemma mapGet_mapSet_other :
  forall (key other : string) (value : cacheEntry) (m : idempotencyCache),
    other <> key ->
    mapGet other (mapSet key value m) = mapGet other m.
Proof.
  intros key other value m Hne. apply String.eqb_neq in Hne.
  induction m as [| [k v] rest IH]; cbn.
  - rewrite Hne. reflexivity.
  - destruct (String.eqb key k) eqn:E; cbn.
    + apply String.eqb_eq in E. subst k. rewrite Hne. reflexivity.
    + rewrite IH. reflexivity.
Qed.

Lemma mapGet_mapDelete :
  forall (key other : string) (m : idempotencyCache),
    mapGet other (mapDelete key m)
    = if String.eqb other key then None else mapGet other m.
Proof.
  intros key other m. unfold mapDelete.
  induction m as [| [k v] rest IH]; cbn.
  - destruct (String.eqb other key); reflexivity.
  - destruct (String.eqb key k) eqn:E; cbn.
    + apply String.eqb_eq in E. subst k. rewrite IH.
      destruct (String.eqb other key); reflexivity.
    + rewrite IH. destruct (String.eqb other k) eqn:E2; [| reflexivity].
      apply String.eqb_eq in E2. subst k.
      rewrite String.eqb_sym in E. rewrite E. reflexivity.
Qed.

Lemma clean_fold :
  forall (now : Z) (entries m : idempotencyCache) (key : string),
    mapGet key
      (fold_left
         (fun m kv =>
            if CACHE_TTL <? now - ce_timestamp (snd kv) then mapDelete (fst kv) m else m)
         entries m)
    = if expiredKey now entries key then None else mapGet key m.
Proof.
  intros now entries. induction entries as [| [k v] rest IH]; intros m key.
  - reflexivity.
  - cbn [fold_left fst snd]. rewrite IH.
    change (expiredKey now ((k, v) :: rest) key)
      with ((String.eqb key k && (CACHE_TTL <? now - ce_timestamp v))
            || expiredKey now rest key).
    destruct (expiredKey now rest key) eqn:Hrest.
    + rewrite orb_true_r. reflexivity.
    + rewrite orb_false_r.
      destruct (CACHE_TTL <? now - ce_timestamp v).
      * rewrite mapGet_mapDelete, andb_true_r. destruct (String.eqb key k); reflexivity.
      * rewrite andb_false_r. reflexivity.
Qed.

Lemma expiredKey_absent :
  forall (now : Z) (m : idempotencyCache) (key : string),
    existsb (fun kv => String.eqb key (fst kv)) m = false ->
    expiredKey now m key = false.
Proof.
  intros now m key. induction m as [| [k v] rest IH]; intros H.
  - reflexivity.
  - cbn [existsb fst] in H. apply orb_false_iff in H. destruct H as [H1 H2].
    change (expiredKey now ((k, v) :: rest) key)
      with ((String.eqb key k && (CACHE_TTL <? now - ce_timestamp v))
            || expiredKey now rest key).
    rewrite H1, (IH H2). reflexivity.
Qed.

Lemma mapGet_absent :
  forall (m : idempotencyCache) (key : string),
    existsb (fun kv => String.eqb key (fst kv)) m = false ->
    mapGet key m = None.
Proof.
  intros m key. induction m as [| [k v] rest IH]; cbn; intros H.
  - reflexivity.
  - apply orb_false_iff in H. destruct H as [H1 H2]. rewrite H1. exact (IH H2).
Qed.

Lemma expiredKey_unique :
  forall (now : Z) (m : idempotencyCache) (key : string),
    uniqueKeys m = true ->
    expiredKey now m key
    = match mapGet key m with
      | Some cached => CACHE_TTL <? now - ce_timestamp cached
      | None => false
      end.
Proof.
  intros now m key. induction m as [| [k v] rest IH]; intros Hu.
  - reflexivity.
  - cbn [uniqueKeys] in Hu. apply andb_true_iff in Hu. destruct Hu as [Hk Hu].
    apply negb_true_iff in Hk.
    change (expiredKey now ((k, v) :: rest) key)
      with ((String.eqb key k && (CACHE_TTL <? now - ce_timestamp v))
            || expiredKey now rest key).
    cbn [mapGet].
    destruct (String.eqb key k) eqn:E.
    + apply String.eqb_eq in E. subst k.
      rewrite (expiredKey_absent now rest key Hk), orb_false_r. reflexivity.
    + exact (IH Hu).
Qed.

Lemma mapSet_uniqueKeys :
  forall (key : string) (value : cacheEntry) (m : idempotencyCache),
    uniqueKeys m = true -> uniqueKeys (mapSet key value m) = true.
Proof.
  intros key value m. induction m as [| [k v] rest IH]; cbn; intros Hu.
  - reflexivity.
  - apply andb_true_iff in Hu. destruct Hu as [Hk Hu].
    destruct (String.eqb key k) eqn:E; cbn.
    + rewrite Hk, Hu. reflexivity.
    + rewrite (IH Hu), andb_true_r. apply negb_true_iff.
      apply negb_true_iff in Hk.
      clear IH Hu. induction rest as [| [k' v'] rest IH]; cbn in *.
      * rewrite String.eqb_sym. rewrite E. reflexivity.
      * apply orb_false_iff in Hk. destruct Hk as [Hk1 Hk2].
        destruct (String.eqb key k') eqn:E'; cbn.
        -- rewrite Hk1, Hk2. reflexivity.
        -- rewrite Hk1. cbn. exact (IH Hk2).
Qed.

(** X27. A response stored under a non-empty idempotency key is the one the
    cache serves for that key for as long as its age is under 24 hours;
    what the cache serves for any other key is not changed by the store;
    and without a key, or with the empty one, nothing is stored and nothing
    is served. *)
Theorem storeIdempotentResponse_served :
  forall (key response : string) (stored now : Z) (cache : idempotencyCache),
    key <> "" ->
    now - stored < CACHE_TTL ->
    cachedResponse (Some key) now (storeIdempotentResponse key response stored cache)
    = Some response
    /\ (forall other,
          other <> Some key ->
          cachedResponse other now (storeIdempotentResponse key response stored cache)
          = cachedResponse other now cache)
    /\ storeIdempotentResponse "" response stored cache = cache
    /\ cachedResponse None now cache = None
    /\ cachedResponse (Some "") now cache = None.
Proof.
  intros key response stored now cache Hkey Hage.
  apply String.eqb_neq in Hkey.
  unfold storeIdempotentResponse, cachedResponse. cbn. rewrite Hkey. cbn.
  repeat split.
  - rewrite mapGet_mapSet_same. cbn [ce_timestamp ce_response].
    apply Z.ltb_lt in Hage. unfold CACHE_TTL in Hage. cbn in Hage |- *.
    rewrite Hage. reflexivity.
  - intros [other |] Hother; cbn; [| reflexivity].
    destruct (String.eqb other ""); cbn; [reflexivity |].
    rewrite mapGet_mapSet_other; [reflexivity |]. congruence.
Qed.

Lemma storeIdempotentResponse_served_witness :
  cachedResponse (Some "k1") 86399999
    (storeIdempotentResponse "k1" "created" 0 [("k0", {| ce_response := "old"; ce_timestamp := 0 |})])
  = Some "created".
Proof.
  refine (proj1 (storeIdempotentResponse_served "k1" "created" 0 86399999
                   [("k0", {| ce_response := "old"; ce_timestamp := 0 |})] _ _)).
  - discriminate.
  - vm_compute. reflexivity.
Defined.

(** X28. An entry is served only while its age is strictly under 24 hours:
    from that age on the cache does not answer, whatever was stored. *)
Theorem cachedResponse_expires :
  forall (key response : string) (stored now : Z) (cache : idempotencyCache),
    CACHE_TTL <= now - stored ->
    cachedResponse (Some key) now (storeIdempotentResponse key response stored cache)
    = None.
Proof.
  intros key response stored now cache Hage.
  unfold storeIdempotentResponse, cachedResponse. cbn.
  destruct (String.eqb key "") eqn:Hkey; cbn; [reflexivity |].
  rewrite mapGet_mapSet_same. cbn [ce_timestamp ce_response].
  apply Z.ltb_ge in Hage. unfold CACHE_TTL in Hage. cbn in Hage |- *.
  rewrite Hage. reflexivity.
Qed.

Lemma cachedResponse_expires_witness :
  cachedResponse (Some "k1") 86400000 (storeIdempotentResponse "k1" "created" 0 []) = None.
Proof.
  refine (cachedResponse_expires "k1" "created" 0 86400000 [] _).
  vm_compute. discriminate.
Defined.

(** X29. [cleanIdempotencyCache] removes exactly the entries older than 24
    hours and leaves the others as they are; since the check serves only
    entries younger than 24 hours, cleaning at some time never changes what
    the cache serves at that time or later. *)
Theorem cleanIdempotencyCache_spec :
  forall (cleaned : Z) (cache : idempotencyCache),
    uniqueKeys cache = true ->
    (forall key,
       mapGet key (cleanIdempotencyCache cleaned cache)
       = match mapGet key cache with
         | Some cached =>
             if CACHE_TTL <? cleaned - ce_timestamp cached then None else Some cached
         | None => None
         end)
    /\ (forall key now,
          cleaned <= now ->
          cachedResponse key now (cleanIdempotencyCache cleaned cache)
          = cachedResponse key now cache).
Proof.
  intros cleaned cache Hu.
  assert (Hget : forall key,
             mapGet key (cleanIdempotencyCache cleaned cache)
             = match mapGet key cache with
               | Some cached =>
                   if CACHE_TTL <? cleaned - ce_timestamp cached then None else Some cached
               | None => None
               end).
  { intros key. unfold cleanIdempotencyCache. rewrite clean_fold.
    rewrite (expiredKey_unique cleaned cache key Hu).
    destruct (mapGet key cache); reflexivity. }
  split; [exact Hget |].
  intros key now Hnow. unfold cachedResponse.
  destruct (negb (truthy key)); [reflexivity |].
  rewrite Hget.
  destruct (mapGet _ cache) as [cached |]; [| reflexivity].
  destruct (Z.ltb_spec CACHE_TTL (cleaned - ce_timestamp cached)); [| reflexivity].
  destruct (Z.ltb_spec (now - ce_timestamp cached) CACHE_TTL); [lia | reflexivity].
Qed.

Lemma cleanIdempotencyCache_spec_witness :
  mapGet "k0"
    (cleanIdempotencyCache 86400001
       [("k0", {| ce_response := "old"; ce_timestamp := 0 |});
        ("k1", {| ce_response := "new"; ce_timestamp := 2 |})])
  = None
  /\ cachedResponse (Some "k1") 86400001
       (cleanIdempotencyCache 86400001
          [("k0", {| ce_response := "old"; ce_timestamp := 0 |});
           ("k1", {| ce_response := "new"; ce_timestamp := 2 |})])
     = Some "new".
Proof.
  assert (Hu : uniqueKeys [("k0", {| ce_response := "old"; ce_timestamp := 0 |});
                           ("k1", {| ce_response := "new"; ce_timestamp := 2 |})] = true)
    by (vm_compute; reflexivity).
  split.
  - exact (proj1 (cleanIdempotencyCache_spec 86400001 _ Hu) "k0").
  - refine (eq_trans (proj2 (cleanIdempotencyCache_spec 86400001 _ Hu)
                            (Some "k1") 86400001 _) _).
    + lia.
    + vm_compute. reflexivity.
Defined.

(** * Rounding in binary64

    The operations of the embedder on IEEE doubles, read off the kernel's
    specification of the primitive floats: on positive normal numbers each
    of [+], [*], [/] and [Math.sqrt] returns a number nearest to the exact
    result, as long as that result stays in the normal range. *)

Lemma pow2_pos : forall e, (0 < pow2 e)%R.
Proof. intros e. apply powerRZ_lt. lra. Qed.

Lemma pow2_add : forall a b, pow2 (a + b) = (pow2 a * pow2 b)%R.
Proof. intros a b. apply powerRZ_add. lra. Qed.

Lemma pow2_0 : pow2 0 = 1%R.
Proof. reflexivity. Qed.

Lemma pow2_opp : forall a, pow2 (- a) = (/ pow2 a)%R.
Proof. intros a. apply powerRZ_neg'. Qed.

Lemma pow2_IZR : forall n, 0 <= n -> pow2 n = IZR (2 ^ n).
Proof.
  intros n Hn. unfold pow2. destruct n as [| p | p]; [reflexivity | | lia].
  rewrite <- Zpower_pos_powerRZ. reflexivity.
Qed.

Lemma pow2_ge1 : forall n, 0 <= n -> (1 <= pow2 n)%R.
Proof.
  intros n Hn. rewrite pow2_IZR by exact Hn. apply IZR_le.
  pose proof (Z.pow_pos_nonneg 2 n ltac:(lia) Hn). lia.
Qed.

Lemma pow2_gt1 : forall n, 0 < n -> (2 <= pow2 n)%R.
Proof.
  intros n Hn. rewrite pow2_IZR by lia. apply IZR_le.
  replace n with (Z.succ (n - 1)) by lia. rewrite Z.pow_succ_r by lia.
  pose proof (Z.pow_pos_nonneg 2 (n - 1) ltac:(lia) ltac:(lia)). lia.
Qed.

Lemma pow2_le : forall a b, a <= b -> (pow2 a <= pow2 b)%R.
Proof.
  intros a b Hab. replace b with (a + (b - a)) by lia. rewrite pow2_add.
  pose proof (pow2_pos a). pose proof (pow2_ge1 (b - a) ltac:(lia)). nra.
Qed.

Lemma pow2_lt : forall a b, a < b -> (pow2 a < pow2 b)%R.
Proof.
  intros a b Hab. replace b with (a + (b - a)) by lia. rewrite pow2_add.
  pose proof (pow2_pos a). pose proof (pow2_gt1 (b - a) ltac:(lia)). nra.
Qed.

Lemma pow2_lt_inv : forall a b, (pow2 a < pow2 b)%R -> a < b.
Proof.
  intros a b H. destruct (Z_lt_le_dec a b) as [Hlt | Hge]; [exact Hlt |].
  pose proof (pow2_le b a Hge). lra.
Qed.

Lemma pow2_le_inv : forall a b, (pow2 a <= pow2 b)%R -> a <= b.
Proof.
  intros a b H. destruct (Z_le_gt_dec a b) as [Hle | Hgt]; [exact Hle |].
  pose proof (pow2_lt b a ltac:(lia)). lra.
Qed.

Lemma pow2_succ : forall a, pow2 (a + 1) = (2 * pow2 a)%R.
Proof. intros a. rewrite pow2_add. change (pow2 1) with (2 * 1)%R. lra. Qed.

Lemma pow2_cancel : forall a, (pow2 a * pow2 (- a) = 1)%R.
Proof. intros a. rewrite <- pow2_add. replace (a + - a) with 0 by lia. reflexivity. Qed.

Lemma digits2_pos_bounds :
  forall p, 2 ^ (Zpos (digits2_pos p) - 1) <= Zpos p < 2 ^ Zpos (digits2_pos p).
Proof.
  induction p as [p IH | p IH |]; cbn [digits2_pos].
  - rewrite Pos2Z.inj_succ. replace (Z.succ (Zpos (digits2_pos p)) - 1)
      with (Z.succ (Zpos (digits2_pos p) - 1)) by lia.
    rewrite !Z.pow_succ_r by lia. lia.
  - rewrite Pos2Z.inj_succ. replace (Z.succ (Zpos (digits2_pos p)) - 1)
      with (Z.succ (Zpos (digits2_pos p) - 1)) by lia.
    rewrite !Z.pow_succ_r by lia. lia.
  - cbn. lia.
Qed.

Lemma digits2_pos_unique :
  forall p d, 0 < d -> 2 ^ (d - 1) <= Zpos p < 2 ^ d -> Zpos (digits2_pos p) = d.
Proof.
  intros p d Hd [Hlo Hhi].
  pose proof (digits2_pos_bounds p) as [Hlo' Hhi'].
  assert (H1 : d - 1 < Zpos (digits2_pos p)).
  { apply (Z.pow_lt_mono_r_iff 2); lia. }
  assert (H2 : Zpos (digits2_pos p) - 1 < d).
  { apply (Z.pow_lt_mono_r_iff 2); lia. }
  lia.
Qed.

Lemma digits2_pos_ge :
  forall p d, 0 <= d -> 2 ^ d <= Zpos p -> d < Zpos (digits2_pos p).
Proof.
  intros p d Hd Hlo. pose proof (digits2_pos_bounds p) as [_ Hhi].
  apply (Z.pow_lt_mono_r_iff 2); lia.
Qed.

Lemma shr_1_located : forall mrs y, located mrs y -> located (shr_1 mrs) (y / 2).
Proof.
  intros [m r s] y [Hm Hloc]. cbn [shr_m shr_r shr_s] in *.
  destruct m as [| p | p]; [| | lia].
  - unfold shr_1, located. cbn [shr_m shr_r shr_s]. split; [lia |].
    destruct r, s; cbn [orb]; lra.
  - destruct p as [p | p |].
    + unfold shr_1, located. cbn [shr_m shr_r shr_s]. split; [lia |].
      rewrite Pos2Z.inj_xI, plus_IZR, mult_IZR in Hloc.
      destruct r, s; cbn [orb]; lra.
    + unfold shr_1, located. cbn [shr_m shr_r shr_s]. split; [lia |].
      rewrite Pos2Z.inj_xO, mult_IZR in Hloc.
      destruct r, s; cbn [orb]; lra.
    + unfold shr_1, located. cbn [shr_m shr_r shr_s]. split; [lia |].
      destruct r, s; cbn [orb]; lra.
Qed.

Lemma iter_pos_shr_located :
  forall p mrs y, located mrs y -> located (SpecFloat.iter_pos shr_1 p mrs) (y * pow2 (- Zpos p)).
Proof.
  induction p as [p IH | p IH |]; intros mrs y H; cbn [SpecFloat.iter_pos].
  - replace (y * pow2 (- Zpos p~1))%R
      with (y / 2 * pow2 (- Zpos p) * pow2 (- Zpos p))%R.
    + apply IH, IH, shr_1_located, H.
    + rewrite Pos2Z.inj_xI. replace (- (2 * Zpos p + 1)) with (- Zpos p + (- Zpos p + -1)) by lia.
      rewrite !pow2_add. change (pow2 (-1)) with (/ (2 * 1))%R. field.
  - replace (y * pow2 (- Zpos p~0))%R
      with (y * pow2 (- Zpos p) * pow2 (- Zpos p))%R.
    + apply IH, IH, H.
    + rewrite Pos2Z.inj_xO. replace (- (2 * Zpos p)) with (- Zpos p + - Zpos p) by lia.
      rewrite !pow2_add. ring.
  - replace (y * pow2 (Z.opp (Zpos 1)))%R with (y / 2)%R.
    + apply shr_1_located, H.
    + change (pow2 (Z.opp (Zpos 1))) with (/ (2 * 1))%R. field.
Qed.

Lemma shr_located :
  forall mrs e n y,
    0 <= n -> located mrs y ->
    located (fst (shr mrs e n)) (y * pow2 (- n)) /\ snd (shr mrs e n) = e + n.
Proof.
  intros mrs e n y Hn H. destruct n as [| p | p]; [| | lia].
  - cbn. rewrite Rmult_1_r. split; [exact H | lia].
  - cbn [shr fst snd]. split; [apply iter_pos_shr_located, H | reflexivity].
Qed.

Lemma located_floor :
  forall mrs y, located mrs y -> (IZR (shr_m mrs) <= y < IZR (shr_m mrs) + 1)%R.
Proof.
  intros [m r s] y [_ H]. cbn [shr_m shr_r shr_s] in *. destruct r, s; lra.
Qed.

Lemma round_nearest_even_located :
  forall mrs y,
    located mrs y ->
    let k := round_nearest_even (shr_m mrs) (loc_of_shr_record mrs) in
    (Rabs (IZR k - y) <= / 2)%R /\ shr_m mrs <= k <= shr_m mrs + 1.
Proof.
  intros [m r s] y [_ H]. cbn [shr_m shr_r shr_s] in *.
  destruct r, s; cbn [loc_of_shr_record round_nearest_even].
  - split; [| lia]. rewrite plus_IZR. apply Rabs_le. lra.
  - destruct (Z.even m); (split; [| lia]); try rewrite plus_IZR; apply Rabs_le; lra.
  - split; [| lia]. apply Rabs_le. lra.
  - split; [| lia]. apply Rabs_le. lra.
Qed.

Lemma IZR_floor_bounds :
  forall (m lo hi : Z) (t : R),
    (IZR m <= t < IZR m + 1)%R -> (IZR lo <= t < IZR hi)%R -> lo <= m < hi.
Proof.
  intros m lo hi t [H1 H2] [H3 H4]. split.
  - assert (H : (IZR lo < IZR (m + 1))%R) by (rewrite plus_IZR; lra).
    apply lt_IZR in H. lia.
  - apply lt_IZR. lra.
Qed.

Lemma posNormal_bounds :
  forall m e, digits2_pos m = 53%positive ->
    (pow2 (52 + e) <= IZR (Zpos m) * pow2 e < pow2 (53 + e))%R.
Proof.
  intros m e Hd. pose proof (digits2_pos_bounds m) as [Hlo Hhi]. rewrite Hd in Hlo, Hhi.
  rewrite !pow2_add. rewrite (pow2_IZR 52), (pow2_IZR 53) by lia.
  pose proof (pow2_pos e). apply IZR_le in Hlo. apply IZR_lt in Hhi.
  change (53 - 1) with 52 in Hlo. nra.
Qed.

Lemma binary_round_aux_rounds :
  forall (mx ex : Z) (lx : location) (y : R),
    0 < mx ->
    located (shr_record_of_loc mx lx) y ->
    53 <= Zdigits2 mx ->
    -1074 <= ex + Zdigits2 mx - 53 <= 970 ->
    rounds (y * pow2 ex) (binary_round_aux prec emax false mx ex lx).
Proof.
  intros mx ex lx y Hmx Hin Hd HE.
  destruct mx as [| px | px]; try lia. cbn [Zdigits2] in *.
  set (d := Zpos (digits2_pos px)) in *.
  set (E := ex + d - 53) in *.
  assert (Hy : (IZR (Zpos px) <= y < IZR (Zpos px) + 1)%R).
  { pose proof (located_floor _ _ Hin) as H. destruct lx as [| []]; exact H. }
  unfold binary_round_aux, shr_fexp. cbn [Zdigits2]. fold d.
  assert (Hfexp : fexp prec emax (d + ex) - ex = d - 53).
  { unfold fexp, emin, prec, emax. lia. }
  rewrite Hfexp.
  destruct (shr_located (shr_record_of_loc (Zpos px) lx) ex (d - 53) y ltac:(lia) Hin)
    as [Hin1 He1].
  destruct (shr (shr_record_of_loc (Zpos px) lx) ex (d - 53)) as [mrs1 e1].
  cbn [fst snd] in Hin1, He1.
  set (t := (y * pow2 (- (d - 53)))%R) in *.
  assert (Ht : (IZR (2 ^ 52) <= t < IZR (2 ^ 53))%R).
  { pose proof (digits2_pos_bounds px) as [Hlo Hhi]. fold d in Hlo, Hhi.
    assert (Hlo' : (pow2 (d - 1) <= IZR (Zpos px))%R).
    { rewrite pow2_IZR by lia. apply IZR_le. exact Hlo. }
    assert (Hhi' : (IZR (Zpos px) + 1 <= pow2 d)%R).
    { rewrite pow2_IZR by lia. rewrite <- plus_IZR. apply IZR_le. lia. }
    rewrite <- !pow2_IZR by lia.
    unfold t. pose proof (pow2_pos (- (d - 53))) as Hp.
    split.
    - assert (Heq : pow2 52 = (pow2 (d - 1) * pow2 (- (d - 53)))%R).
      { rewrite <- pow2_add. f_equal. lia. }
      rewrite Heq. apply Rmult_le_compat_r; lra.
    - assert (Heq : pow2 53 = (pow2 d * pow2 (- (d - 53)))%R).
      { rewrite <- pow2_add. f_equal. lia. }
      rewrite Heq. apply Rmult_lt_compat_r; lra. }
  pose proof (located_floor _ _ Hin1) as Hfl.
  pose proof (IZR_floor_bounds _ _ _ _ Hfl Ht) as Hm1.
  pose proof (round_nearest_even_located _ _ Hin1) as [Hk Hk'].
  set (k := round_nearest_even (shr_m mrs1) (loc_of_shr_record mrs1)) in *.
  assert (He1' : e1 = E) by (unfold E; lia). clear He1. rewrite He1'. clear He1' e1.
  assert (HxE : (y * pow2 ex * pow2 (- E) = t)%R).
  { unfold t, E. rewrite Rmult_assoc, <- pow2_add. f_equal. f_equal. lia. }
  assert (Hbin : (pow2 (52 + E) <= y * pow2 ex < pow2 (53 + E))%R).
  { rewrite !pow2_add. rewrite <- !pow2_IZR in Ht by lia.
    pose proof (pow2_pos E) as HpE. pose proof (pow2_cancel E) as Hc.
    assert (Heq : (y * pow2 ex = t * pow2 E)%R).
    { rewrite <- HxE. rewrite !Rmult_assoc. rewrite (Rmult_comm (pow2 (- E))), Hc. ring. }
    rewrite Heq. nra. }
  destruct (Z_lt_le_dec k (2 ^ 53)) as [Hlt | Hge].
  - (* no carry *)
    destruct k as [| pk | pk] eqn:Hkeq; try lia.
    assert (Hdk : Zpos (digits2_pos pk) = 53).
    { apply digits2_pos_unique; [lia |]. change (53 - 1) with 52. lia. }
    cbn [Zdigits2]. rewrite Hdk.
    assert (Hf2 : fexp prec emax (53 + E) - E = 0).
    { unfold fexp, emin, prec, emax. lia. }
    rewrite Hf2. cbn [shr shr_record_of_loc shr_m].
    assert (Hle : (E <=? emax - prec) = true) by (apply Z.leb_le; unfold emax, prec; lia).
    rewrite Hle. split.
    + exists pk, E. split; [reflexivity |]. split; [| lia].
      apply Pos2Z.inj. exact Hdk.
    + exists E, (Zpos pk). split; [lia |]. split; [exact Hbin |].
      split; [rewrite HxE; exact Hk |]. reflexivity.
  - (* carry: k = 2^53 *)
    assert (Hkeq : k = 2 ^ 53) by lia.
    rewrite Hkeq. change (2 ^ 53) with (Zpos (Pos.iter xO 1%positive 53)).
    cbn [Zdigits2].
    assert (Hf2 : fexp prec emax
                    (Zpos (digits2_pos (Pos.iter xO 1%positive 53)) + E) - E = 1).
    { change (Zpos (digits2_pos (Pos.iter xO 1%positive 53))) with 54.
      unfold fexp, emin, prec, emax. lia. }
    rewrite Hf2.
    cbn [shr shr_record_of_loc SpecFloat.iter_pos].
    change (shr_1 {| shr_m := Zpos (Pos.iter xO 1%positive 53); shr_r := false; shr_s := false |})
      with {| shr_m := Zpos (Pos.iter xO 1%positive 52); shr_r := false; shr_s := false |}.
    cbn [shr_m].
    assert (Hle : (E + 1 <=? emax - prec) = true) by (apply Z.leb_le; unfold emax, prec; lia).
    rewrite Hle. split.
    + exists (Pos.iter xO 1%positive 52), (E + 1). split; [reflexivity |].
      split; [reflexivity | lia].
    + exists E, (2 ^ 53). split; [lia |]. split; [exact Hbin |].
      split; [rewrite HxE; rewrite <- Hkeq; exact Hk |].
      cbn [SF2R cond_Zopp]. rewrite pow2_succ.
      change (Zpos (Pos.iter xO 1%positive 52)) with (2 ^ 52).
      change (2 ^ 53) with (2 * 2 ^ 52). rewrite mult_IZR. ring.
Qed.

Lemma Rabs_le_inv : forall a b : R, (Rabs a <= b)%R -> (- b <= a <= b)%R.
Proof. intros a b. unfold Rabs. destruct (Rcase_abs a); lra. Qed.

Lemma rounds_k_bounds :
  forall (t : R) (k : Z),
    (pow2 52 <= t < pow2 53)%R -> (Rabs (IZR k - t) <= / 2)%R -> 2 ^ 52 <= k <= 2 ^ 53.
Proof.
  intros t k [Hlo Hhi] Hk. rewrite !pow2_IZR in * by lia.
  apply Rabs_le_inv in Hk. split.
  - assert (H : (IZR (2 ^ 52 - 1) < IZR k)%R) by (rewrite minus_IZR; lra).
    apply lt_IZR in H. lia.
  - assert (H : (IZR k < IZR (2 ^ 53 + 1))%R) by (rewrite plus_IZR; lra).
    apply lt_IZR in H. lia.
Qed.

Lemma scaled_bounds :
  forall (x : R) (a E : Z),
    ((pow2 (a + E) <= x -> pow2 a <= x * pow2 (- E)) /\
     (x <= pow2 (a + E) -> x * pow2 (- E) <= pow2 a) /\
     (x < pow2 (a + E) -> x * pow2 (- E) < pow2 a) /\
     (pow2 (a + E) < x -> pow2 a < x * pow2 (- E)))%R.
Proof.
  intros x a E. pose proof (pow2_pos (- E)) as Hp.
  assert (Heq : pow2 a = (pow2 (a + E) * pow2 (- E))%R).
  { rewrite <- pow2_add. f_equal. lia. }
  rewrite Heq. repeat split; intros H.
  - apply Rmult_le_compat_r; lra.
  - apply Rmult_le_compat_r; lra.
  - apply Rmult_lt_compat_r; lra.
  - apply Rmult_lt_compat_r; lra.
Qed.

Lemma unscale : forall (x : R) (E : Z), (x = x * pow2 (- E) * pow2 E)%R.
Proof.
  intros x E. rewrite Rmult_assoc, (Rmult_comm (pow2 (- E))), pow2_cancel. ring.
Qed.

Lemma rounds_pos : forall x f, rounds x f -> (0 < x)%R /\ (0 < SF2R f)%R.
Proof.
  intros x f [_ (E & k & HE & [Hlo Hhi] & Hk & Hv)].
  pose proof (pow2_pos (52 + E)). split; [lra |].
  rewrite Hv.
  destruct (scaled_bounds x 52 E) as (S1 & _). destruct (scaled_bounds x 53 E) as (_ & _ & S3 & _).
  pose proof (rounds_k_bounds _ k (conj (S1 Hlo) (S3 Hhi)) Hk) as [Hk1 _].
  apply IZR_le in Hk1. pose proof (pow2_pos E).
  assert (0 < IZR (2 ^ 52))%R by (apply IZR_lt; lia). nra.
Qed.

Lemma rounds_rel :
  forall x f, rounds x f -> (Rabs (SF2R f - x) <= pow2 (- 53) * x)%R.
Proof.
  intros x f [_ (E & k & HE & [Hlo Hhi] & Hk & Hv)].
  rewrite Hv. rewrite (unscale x E) at 1.
  replace (IZR k * pow2 E - x * pow2 (- E) * pow2 E)%R
    with ((IZR k - x * pow2 (- E)) * pow2 E)%R by ring.
  rewrite Rabs_mult. pose proof (pow2_pos E) as HpE.
  rewrite (Rabs_pos_eq (pow2 E)) by lra.
  assert (Hb : (pow2 E * / 2 <= pow2 (- 53) * x)%R).
  { assert (Heq : (pow2 E * / 2 = pow2 (- 53) * pow2 (52 + E))%R).
    { rewrite <- pow2_add. replace (- 53 + (52 + E)) with (E + - 1) by lia.
      rewrite pow2_add. change (pow2 (- 1)) with (/ (2 * 1))%R.
      rewrite Rmult_1_r. reflexivity. }
    rewrite Heq. pose proof (pow2_pos (- 53)). nra. }
  assert (Hc : (Rabs (IZR k - x * pow2 (- E)) * pow2 E <= / 2 * pow2 E)%R).
  { apply Rmult_le_compat_r; lra. }
  lra.
Qed.

Lemma rounds_ge_pow2 :
  forall x f p, rounds x f -> (pow2 p <= x)%R -> (pow2 p <= SF2R f)%R.
Proof.
  intros x f p [_ (E & k & HE & [Hlo Hhi] & Hk & Hv)] Hp. rewrite Hv.
  destruct (scaled_bounds x 52 E) as (S1 & _). destruct (scaled_bounds x 53 E) as (_ & _ & S3 & _).
  pose proof (rounds_k_bounds _ k (conj (S1 Hlo) (S3 Hhi)) Hk) as [Hk1 _].
  pose proof (pow2_pos E) as HpE.
  destruct (Z_le_gt_dec p (52 + E)) as [Hle | Hgt].
  - apply Rle_trans with (pow2 (52 + E)); [apply pow2_le; exact Hle |].
    rewrite pow2_add, pow2_IZR by lia. apply IZR_le in Hk1. nra.
  - destruct (scaled_bounds x (p - E) E) as (S1' & _).
    replace (p - E + E) with p in S1' by lia. specialize (S1' Hp).
    rewrite (pow2_IZR (p - E)) in S1' by lia.
    apply Rabs_le_inv in Hk.
    assert (H : (IZR (2 ^ (p - E) - 1) < IZR k)%R) by (rewrite minus_IZR; lra).
    apply lt_IZR in H.
    assert (Hk2 : (IZR (2 ^ (p - E)) <= IZR k)%R) by (apply IZR_le; lia).
    rewrite <- pow2_IZR in Hk2 by lia.
    replace p with ((p - E) + E) at 1 by lia. rewrite pow2_add. nra.
Qed.

Lemma rounds_le_pow2 :
  forall x f p, rounds x f -> (x <= pow2 p)%R -> (SF2R f <= pow2 p)%R.
Proof.
  intros x f p [_ (E & k & HE & [Hlo Hhi] & Hk & Hv)] Hp. rewrite Hv.
  pose proof (pow2_pos E) as HpE.
  assert (HpE' : 52 + E <= p) by (apply pow2_le_inv; lra).
  destruct (scaled_bounds x (p - E) E) as (_ & S2 & _).
  replace (p - E + E) with p in S2 by lia. specialize (S2 Hp).
  rewrite (pow2_IZR (p - E)) in S2 by lia.
  apply Rabs_le_inv in Hk.
  assert (H : (IZR k < IZR (2 ^ (p - E) + 1))%R) by (rewrite plus_IZR; lra).
  apply lt_IZR in H.
  assert (Hk2 : (IZR k <= IZR (2 ^ (p - E)))%R) by (apply IZR_le; lia).
  rewrite <- pow2_IZR in Hk2 by lia.
  replace p with ((p - E) + E) at 1 by lia. rewrite pow2_add. nra.
Qed.

Lemma rounds_stagnate :
  forall x f, rounds x f -> (x < pow2 53 + 1)%R -> (SF2R f <= pow2 53)%R.
Proof.
  intros x f Hr Hx.
  destruct (Rle_lt_dec x (pow2 53)) as [Hle | Hgt].
  - apply (rounds_le_pow2 x f 53 Hr Hle).
  - destruct Hr as [_ (E & k & HE & [Hlo Hhi] & Hk & Hv)]. rewrite Hv.
    assert (Hp53 : pow2 53 = (2 * pow2 52)%R) by (change 53 with (52 + 1); apply pow2_succ).
    assert (Hp54 : pow2 54 = (2 * pow2 53)%R) by (change 54 with (53 + 1); apply pow2_succ).
    pose proof (pow2_ge1 52 ltac:(lia)) as H52.
    assert (HE1 : 52 + E < 54) by (apply pow2_lt_inv; lra).
    assert (HE2 : 53 < 53 + E) by (apply pow2_lt_inv; lra).
    assert (E = 1) by lia. subst E.
    apply Rabs_le_inv in Hk.
    change (pow2 (Z.opp 1)) with (/ (2 * 1))%R in Hk.
    rewrite (pow2_IZR 52) in Hp53, H52 by lia.
    assert (H : (IZR k < IZR (2 ^ 52 + 1))%R). { rewrite plus_IZR. lra. }
    apply lt_IZR in H.
    assert (Hk2 : (IZR k <= IZR (2 ^ 52))%R) by (apply IZR_le; lia).
    change (pow2 1) with (2 * 1)%R. lra.
Qed.

Lemma value_digits_bounds :
  forall m e,
    (pow2 (Zpos (digits2_pos m) - 1 + e) <= IZR (Zpos m) * pow2 e
     /\ (IZR (Zpos m) + 1) * pow2 e <= pow2 (Zpos (digits2_pos m) + e))%R.
Proof.
  intros m e. pose proof (digits2_pos_bounds m) as [Hlo Hhi].
  rewrite !pow2_add. pose proof (pow2_pos e).
  assert (Hlo' : (pow2 (Zpos (digits2_pos m) - 1) <= IZR (Zpos m))%R).
  { rewrite pow2_IZR by lia. apply IZR_le. exact Hlo. }
  assert (Hhi' : (IZR (Zpos m) + 1 <= pow2 (Zpos (digits2_pos m)))%R).
  { rewrite pow2_IZR by lia. rewrite <- plus_IZR. apply IZR_le. lia. }
  split; apply Rmult_le_compat_r; lra.
Qed.

Lemma round_located :
  forall (m : positive) (ex : Z) (lx : location) (y : R),
    located (shr_record_of_loc (Zpos m) lx) y ->
    53 <= Zpos (digits2_pos m) ->
    (pow2 (- 1022) <= y * pow2 ex <= pow2 1000)%R ->
    rounds (y * pow2 ex) (binary_round_aux prec emax false (Zpos m) ex lx).
Proof.
  intros m ex lx y Hin Hd [Hlo Hhi].
  apply binary_round_aux_rounds; [lia | exact Hin | exact Hd |].
  assert (Hy : (IZR (Zpos m) <= y < IZR (Zpos m) + 1)%R).
  { pose proof (located_floor _ _ Hin) as H. destruct lx as [| []]; exact H. }
  pose proof (value_digits_bounds m ex) as [V1 V2]. pose proof (pow2_pos ex) as Hp.
  cbn [Zdigits2].
  assert (H1 : - 1022 < Zpos (digits2_pos m) + ex).
  { apply pow2_lt_inv. apply Rle_lt_trans with (y * pow2 ex)%R; [exact Hlo |].
    apply Rlt_le_trans with ((IZR (Zpos m) + 1) * pow2 ex)%R; [| exact V2].
    apply Rmult_lt_compat_r; lra. }
  assert (H2 : Zpos (digits2_pos m) - 1 + ex <= 1000).
  { apply pow2_le_inv. apply Rle_trans with (IZR (Zpos m) * pow2 ex)%R; [exact V1 |].
    apply Rle_trans with (y * pow2 ex)%R; [| exact Hhi].
    apply Rmult_le_compat_r; lra. }
  lia.
Qed.

Lemma SF2R_posNormal :
  forall f, posNormal f ->
    exists m e, f = S754_finite false m e /\ digits2_pos m = 53%positive /\
                -1074 <= e <= 971 /\ SF2R f = (IZR (Zpos m) * pow2 e)%R /\
                2 ^ 52 <= Zpos m < 2 ^ 53.
Proof.
  intros f (m & e & -> & Hd & He). exists m, e. repeat split; try assumption; try lia.
  - pose proof (digits2_pos_bounds m) as [H _]. rewrite Hd in H. exact H.
  - pose proof (digits2_pos_bounds m) as [_ H]. rewrite Hd in H. exact H.
Qed.

Lemma SFmul_rounds :
  forall a b,
    posNormal a -> posNormal b ->
    (pow2 (- 1022) <= SF2R a * SF2R b <= pow2 1000)%R ->
    rounds (SF2R a * SF2R b) (SFmul prec emax a b).
Proof.
  intros a b Ha Hb Hrange.
  destruct (SF2R_posNormal a Ha) as (ma & ea & -> & Hda & Hea & Hva & Hma).
  destruct (SF2R_posNormal b Hb) as (mb & eb & -> & Hdb & Heb & Hvb & Hmb).
  rewrite Hva, Hvb in *. cbn [SFmul xorb].
  assert (Heq : (IZR (Zpos ma) * pow2 ea * (IZR (Zpos mb) * pow2 eb)
                 = IZR (Zpos (ma * mb)) * pow2 (ea + eb))%R).
  { rewrite Pos2Z.inj_mul, mult_IZR, pow2_add. ring. }
  rewrite Heq in *.
  apply round_located; [| | exact Hrange].
  - split; [cbn; lia | reflexivity].
  - assert (H : 104 < Zpos (digits2_pos (ma * mb))).
    { apply digits2_pos_ge; [lia |]. rewrite Pos2Z.inj_mul.
      change (2 ^ 104) with (2 ^ 52 * 2 ^ 52). nia. }
    lia.
Qed.

Lemma Pos_iter_xO :
  forall (m d : positive), Zpos (Pos.iter xO m d) = Zpos m * 2 ^ Zpos d.
Proof.
  intros m d. induction d as [| d IH] using Pos.peano_ind.
  - cbn. lia.
  - rewrite Pos.iter_succ, Pos2Z.inj_xO, IH, Pos2Z.inj_succ, Z.pow_succ_r by lia. ring.
Qed.

Lemma shl_align_value :
  forall (mx : positive) (ex ez : Z),
    ez <= ex -> Zpos (fst (shl_align mx ex ez)) = Zpos mx * 2 ^ (ex - ez).
Proof.
  intros mx ex ez Hle. unfold shl_align.
  destruct (ez - ex) as [| d | d] eqn:Hd; cbn [fst].
  - replace (ex - ez) with 0 by lia. lia.
  - lia.
  - rewrite Pos_iter_xO. f_equal. f_equal. lia.
Qed.

Lemma SFadd_rounds :
  forall a b,
    posNormal a -> posNormal b ->
    (SF2R a + SF2R b <= pow2 1000)%R ->
    rounds (SF2R a + SF2R b) (SFadd prec emax a b).
Proof.
  intros a b Ha Hb Hrange.
  destruct (SF2R_posNormal a Ha) as (ma & ea & -> & Hda & Hea & Hva & Hma).
  destruct (SF2R_posNormal b Hb) as (mb & eb & -> & Hdb & Heb & Hvb & Hmb).
  rewrite Hva, Hvb in *. cbn [SFadd cond_Zopp].
  set (ez := Z.min ea eb).
  pose proof (shl_align_value ma ea ez ltac:(unfold ez; lia)) as Ha'.
  pose proof (shl_align_value mb eb ez ltac:(unfold ez; lia)) as Hb'.
  set (ma' := fst (shl_align ma ea ez)) in *.
  set (mb' := fst (shl_align mb eb ez)) in *.
  change (Zpos ma' + Zpos mb') with (Zpos (ma' + mb')).
  cbn [binary_normalize]. unfold binary_round.
  assert (Hval : forall m e, ez <= e ->
                   (IZR (Zpos m * 2 ^ (e - ez)) * pow2 ez = IZR (Zpos m) * pow2 e)%R).
  { intros m e He. rewrite mult_IZR, <- pow2_IZR by lia.
    rewrite Rmult_assoc, <- pow2_add. f_equal. f_equal. lia. }
  assert (Heq : (IZR (Zpos ma) * pow2 ea + IZR (Zpos mb) * pow2 eb
                 = IZR (Zpos (ma' + mb')) * pow2 ez)%R).
  { rewrite Pos2Z.inj_add, plus_IZR, Ha', Hb', Rmult_plus_distr_r.
    rewrite !Hval by (unfold ez; lia). reflexivity. }
  rewrite Heq in *.
  assert (Hbig : 2 ^ 52 <= Zpos (ma' + mb')).
  { rewrite Pos2Z.inj_add, Ha', Hb'.
    pose proof (Z.pow_pos_nonneg 2 (ea - ez) ltac:(lia) ltac:(unfold ez; lia)).
    pose proof (Z.pow_pos_nonneg 2 (eb - ez) ltac:(lia) ltac:(unfold ez; lia)).
    nia. }
  assert (Hdig : 52 < Zpos (digits2_pos (ma' + mb'))).
  { apply digits2_pos_ge; [lia | exact Hbig]. }
  assert (Hsh : shl_align (ma' + mb') ez
                  (fexp prec emax (Zpos (digits2_pos (ma' + mb')) + ez))
                = ((ma' + mb')%positive, ez)).
  { unfold shl_align.
    destruct (fexp prec emax (Zpos (digits2_pos (ma' + mb')) + ez) - ez) eqn:Hf;
      try reflexivity.
    unfold fexp, emin, prec, emax in Hf. unfold ez in *. lia. }
  rewrite Hsh.
  apply round_located.
  - split; [cbn; lia | reflexivity].
  - lia.
  - split; [| exact Hrange].
    pose proof (value_digits_bounds (ma' + mb') ez) as [V1 _].
    apply Rle_trans with (pow2 (Zpos (digits2_pos (ma' + mb')) - 1 + ez)); [| exact V1].
    apply pow2_le. unfold ez. lia.
Qed.

Lemma new_location_located :
  forall n r q,
    0 < n -> 0 <= r < n -> 0 <= q ->
    located (shr_record_of_loc q (new_location n r)) (IZR q + IZR r / IZR n).
Proof.
  intros n r q Hn Hr Hq.
  assert (HnR : (0 < IZR n)%R) by (apply IZR_lt; lia).
  set (f := (IZR r / IZR n)%R).
  assert (Hf : (f * IZR n = IZR r)%R) by (unfold f; field; lra).
  assert (Hcmp : forall a b : Z, a < b -> (IZR a < IZR b)%R) by (intros; apply IZR_lt; assumption).
  unfold new_location.
  destruct (Z.even n) eqn:Heven.
  - unfold new_location_even. destruct (Z.eqb_spec r 0) as [-> | Hr0].
    + split; [exact Hq |]. cbn. unfold f. lra.
    + assert (H0 : (0 < IZR r)%R) by (apply IZR_lt; lia).
      destruct (Z.compare_spec (2 * r) n) as [He | Hl | Hg];
        (split; [exact Hq |]); cbn [shr_record_of_loc shr_r shr_s shr_m].
      * apply (f_equal IZR) in He. rewrite mult_IZR in He. nra.
      * apply Hcmp in Hl. rewrite mult_IZR in Hl. nra.
      * apply Hcmp in Hg. rewrite mult_IZR in Hg.
        assert (IZR r < IZR n)%R by (apply IZR_lt; lia). nra.
  - unfold new_location_odd. destruct (Z.eqb_spec r 0) as [-> | Hr0].
    + split; [exact Hq |]. cbn. unfold f. lra.
    + assert (H0 : (0 < IZR r)%R) by (apply IZR_lt; lia).
      rewrite <- Z.negb_odd in Heven. apply negb_false_iff in Heven.
      apply Z.odd_spec in Heven. destruct Heven as [k Hk].
      destruct (Z.compare_spec (2 * r + 1) n) as [He | Hl | Hg];
        (split; [exact Hq |]); cbn [shr_record_of_loc shr_r shr_s shr_m].
      * assert (Hl : 2 * r < n) by lia. apply Hcmp in Hl. rewrite mult_IZR in Hl. nra.
      * assert (Hl' : 2 * r < n) by lia. apply Hcmp in Hl'. rewrite mult_IZR in Hl'. nra.
      * assert (Hg' : n < 2 * r) by lia. apply Hcmp in Hg'. rewrite mult_IZR in Hg'.
        assert (IZR r < IZR n)%R by (apply IZR_lt; lia). nra.
Qed.

Lemma Rdiv_lt_l : forall a b c : R, (0 < b)%R -> (a < c * b)%R -> (a / b < c)%R.
Proof.
  intros a b c Hb H. assert (Hi : (0 < / b)%R) by (apply Rinv_0_lt_compat; exact Hb).
  replace c with (c * b * / b)%R by (field; lra). unfold Rdiv.
  apply Rmult_lt_compat_r; assumption.
Qed.

Lemma Rdiv_le_l : forall a b c : R, (0 < b)%R -> (a <= c * b)%R -> (a / b <= c)%R.
Proof.
  intros a b c Hb H. assert (Hi : (0 < / b)%R) by (apply Rinv_0_lt_compat; exact Hb).
  replace c with (c * b * / b)%R by (field; lra). unfold Rdiv.
  apply Rmult_le_compat_r; lra.
Qed.

Lemma Rdiv_le_r : forall a b c : R, (0 < b)%R -> (c * b <= a)%R -> (c <= a / b)%R.
Proof.
  intros a b c Hb H. assert (Hi : (0 < / b)%R) by (apply Rinv_0_lt_compat; exact Hb).
  replace c with (c * b * / b)%R by (field; lra). unfold Rdiv.
  apply Rmult_le_compat_r; lra.
Qed.

Lemma SFdiv_rounds :
  forall a b,
    posNormal a -> posNormal b ->
    (pow2 (- 1000) <= SF2R a / SF2R b <= pow2 1000)%R ->
    rounds (SF2R a / SF2R b) (SFdiv prec emax a b).
Proof.
  intros a b Ha Hb Hrange.
  destruct (SF2R_posNormal a Ha) as (ma & ea & -> & Hda & Hea & Hva & Hma).
  destruct (SF2R_posNormal b Hb) as (mb & eb & -> & Hdb & Heb & Hvb & Hmb).
  rewrite Hva, Hvb in *. cbn [SFdiv xorb].
  assert (HmaR : (IZR (2 ^ 52) <= IZR (Zpos ma) < IZR (2 ^ 53))%R)
    by (split; [apply IZR_le | apply IZR_lt]; lia).
  assert (HmbR : (IZR (2 ^ 52) <= IZR (Zpos mb) < IZR (2 ^ 53))%R)
    by (split; [apply IZR_le | apply IZR_lt]; lia).
  assert (H52 : (0 < IZR (2 ^ 52))%R) by (apply IZR_lt; lia).
  assert (H53 : IZR (2 ^ 53) = (2 * IZR (2 ^ 52))%R).
  { change (2 ^ 53) with (2 * 2 ^ 52). rewrite mult_IZR. reflexivity. }
  assert (Hq : (IZR (Zpos ma) * pow2 ea / (IZR (Zpos mb) * pow2 eb)
                = IZR (Zpos ma) / IZR (Zpos mb) * pow2 (ea - eb))%R).
  { unfold Z.sub. rewrite pow2_add, pow2_opp.
    pose proof (pow2_pos ea). pose proof (pow2_pos eb). field. lra. }
  assert (Hdiff : - 1000 <= ea - eb).
  { assert (H : - 1000 < ea - eb + 1); [| lia].
    apply pow2_lt_inv. rewrite Hq in Hrange. rewrite pow2_succ.
    pose proof (pow2_pos (ea - eb)) as Hp.
    assert (Hr : (IZR (Zpos ma) / IZR (Zpos mb) < 2)%R).
    { apply Rdiv_lt_l; lra. }
    nra. }
  unfold SFdiv_core_binary. cbn [Zdigits2]. rewrite Hda, Hdb.
  assert (He' : Z.min (fexp prec emax (53 + ea - (53 + eb))) (ea - eb) = ea - eb - 53).
  { unfold fexp, emin, prec, emax. lia. }
  rewrite He'.
  replace (ea - eb - (ea - eb - 53)) with 53 by lia.
  rewrite Z.shiftl_mul_pow2 by lia.
  pose proof (Z_div_mod (Zpos ma * 2 ^ 53) (Zpos mb) ltac:(lia)) as Hdm.
  destruct (Z.div_eucl (Zpos ma * 2 ^ 53) (Zpos mb)) as [q r].
  destruct Hdm as [Hdm Hr].
  assert (Hq52 : 2 ^ 52 <= q).
  { assert (2 ^ 52 - 1 < q); [| lia]. nia. }
  destruct q as [| pq | pq]; try lia.
  assert (Hy : (IZR (Zpos ma) / IZR (Zpos mb) * pow2 (ea - eb)
                = (IZR (Zpos pq) + IZR r / IZR (Zpos mb)) * pow2 (ea - eb - 53))%R).
  { assert (Hp : pow2 (ea - eb - 53) = (pow2 (ea - eb) * pow2 (- 53))%R).
    { rewrite <- pow2_add. f_equal. }
    rewrite Hp.
    replace (IZR (Zpos pq) + IZR r / IZR (Zpos mb))%R
      with (IZR (Zpos ma * 2 ^ 53) / IZR (Zpos mb))%R.
    - rewrite mult_IZR, <- (pow2_IZR 53) by lia.
      pose proof (pow2_cancel 53) as Hc. cbn [Z.opp] in Hc.
      set (c := pow2 (- 53)) in *. set (P := pow2 (ea - eb)).
      replace (IZR (Zpos ma) * pow2 53 / IZR (Zpos mb) * (P * c))%R
        with (IZR (Zpos ma) / IZR (Zpos mb) * P * (pow2 53 * c))%R by (field; lra).
      rewrite Hc. ring.
    - rewrite Hdm, plus_IZR, mult_IZR. field. lra. }
  rewrite Hq in *. rewrite Hy in *.
  apply round_located.
  - apply new_location_located; lia.
  - assert (H : 52 < Zpos (digits2_pos pq)) by (apply digits2_pos_ge; lia). lia.
  - split; [| apply Hrange].
    apply Rle_trans with (pow2 (- 1000)); [apply pow2_le; lia | apply Hrange].
Qed.

Lemma sq_lt_inv : forall a b : R, (0 <= a)%R -> (0 <= b)%R -> (a * a < b * b)%R -> (a < b)%R.
Proof. intros a b Ha Hb H. destruct (Rlt_le_dec a b) as [Hl | Hg]; [exact Hl | nra]. Qed.

Lemma sq_eq_inv : forall a b : R, (0 <= a)%R -> (0 <= b)%R -> (a * a = b * b)%R -> a = b.
Proof.
  intros a b Ha Hb H.
  destruct (Rtotal_order a b) as [Hl | [He | Hg]]; [nra | exact He | nra].
Qed.

Lemma sqrt_located :
  forall q r : Z,
    0 < q -> 0 <= r <= 2 * q ->
    located (shr_record_of_loc q
           (if r =? 0 then loc_Exact else loc_Inexact (if r <=? q then Lt else Gt)))
        (R_sqrt.sqrt (IZR (q * q + r))).
Proof.
  intros q r Hq Hr.
  assert (HM : (0 <= IZR (q * q + r))%R) by (apply IZR_le; nia).
  pose proof (sqrt_pos (IZR (q * q + r))) as Hy0.
  pose proof (sqrt_sqrt _ HM) as Hyy.
  set (y := R_sqrt.sqrt (IZR (q * q + r))) in *.
  rewrite plus_IZR, mult_IZR in Hyy.
  assert (HqR : (0 < IZR q)%R) by (apply IZR_lt; lia).
  assert (Hr0 : (0 <= IZR r)%R) by (apply IZR_le; lia).
  assert (Hr2 : (IZR r <= 2 * IZR q)%R) by (rewrite <- mult_IZR; apply IZR_le; lia).
  destruct (Z.eqb_spec r 0) as [-> | Hne].
  - split; [cbn; lia |]. cbn [shr_record_of_loc shr_r shr_s shr_m].
    apply sq_eq_inv; lra.
  - assert (Hr1 : (1 <= IZR r)%R) by (apply IZR_le; lia).
    destruct (Z.leb_spec r q) as [Hle | Hgt]; (split; [cbn; lia |]);
      cbn [shr_record_of_loc shr_r shr_s shr_m].
    + apply IZR_le in Hle. split; apply sq_lt_inv; nra.
    + assert (Hgt' : (IZR q + 1 <= IZR r)%R) by (rewrite <- plus_IZR; apply IZR_le; lia).
      split; apply sq_lt_inv; nra.
Qed.

Lemma SFsqrt_rounds :
  forall a, posNormal a -> rounds (R_sqrt.sqrt (SF2R a)) (SFsqrt prec emax a).
Proof.
  intros a Ha.
  destruct (SF2R_posNormal a Ha) as (m & e & -> & Hd & He & Hv & Hm).
  rewrite Hv. cbn [SFsqrt]. unfold SFsqrt_core_binary. cbn [Zdigits2]. rewrite Hd.
  pose proof (Z.div2_odd e) as Hpar.
  set (h := Z.div2 e) in *.
  assert (Hb : 0 <= Z.b2z (Z.odd e) <= 1) by (destruct (Z.odd e); cbn; lia).
  assert (Hh : Z.div2 (53 + e + 1) = h + 27).
  { rewrite Z.div2_div. unfold h. rewrite Z.div2_div.
    replace (53 + e + 1) with (e + 27 * 2) by lia. rewrite Z.div_add by lia. reflexivity. }
  rewrite Hh.
  assert (He' : Z.min (fexp prec emax (h + 27)) h = h - 26).
  { unfold fexp, emin, prec, emax. lia. }
  rewrite He'.
  set (s := e - 2 * (h - 26)).
  assert (Hs : 52 <= s <= 53) by (unfold s; lia).
  assert (Hm' : match s with
                | 0 => Zpos m
                | Zpos _ => Z.shiftl (Zpos m) s
                | Zneg _ => 0
                end = Zpos m * 2 ^ s).
  { destruct s; try lia. apply Z.shiftl_mul_pow2. lia. }
  rewrite Hm'.
  assert (Hrange : 2 ^ 104 <= Zpos m * 2 ^ s < 2 ^ 106).
  { assert (Hs' : s = 52 \/ s = 53) by lia. destruct Hs' as [-> | ->].
    - change (2 ^ 104) with (2 ^ 52 * 2 ^ 52). change (2 ^ 106) with (2 ^ 54 * 2 ^ 52). nia.
    - change (2 ^ 104) with (2 ^ 51 * 2 ^ 53). change (2 ^ 106) with (2 ^ 53 * 2 ^ 53). nia. }
  pose proof (Z.sqrtrem_spec (Zpos m * 2 ^ s) ltac:(lia)) as Hsq.
  destruct (Z.sqrtrem (Zpos m * 2 ^ s)) as [q r].
  destruct Hsq as [Hsq Hr].
  assert (Hq : 2 ^ 52 <= q < 2 ^ 53).
  { change (2 ^ 104) with (2 ^ 52 * 2 ^ 52) in Hrange.
    change (2 ^ 106) with (2 ^ 53 * 2 ^ 53) in Hrange. split; nia. }
  assert (Hval : R_sqrt.sqrt (IZR (Zpos m) * pow2 e) = (R_sqrt.sqrt (IZR (q * q + r)) * pow2 (h - 26))%R).
  { rewrite <- Hsq. rewrite mult_IZR, <- pow2_IZR by lia.
    pose proof (pow2_pos (h - 26)) as Hp.
    rewrite <- (sqrt_square (pow2 (h - 26))) at 1 by lra.
    rewrite <- sqrt_mult.
    - f_equal. rewrite <- pow2_add, Rmult_assoc, <- pow2_add. f_equal. f_equal.
      unfold s. lia.
    - pose proof (pow2_pos s). apply Rmult_le_pos; [apply IZR_le; lia | lra].
    - nra. }
  rewrite Hval.
  destruct q as [| pq | pq]; try lia.
  apply binary_round_aux_rounds.
  - lia.
  - apply sqrt_located; lia.
  - cbn [Zdigits2].
    assert (Zpos (digits2_pos pq) = 53); [| lia].
    apply digits2_pos_unique; [lia |]. change (53 - 1) with 52. lia.
  - cbn [Zdigits2].
    assert (Hdq : Zpos (digits2_pos pq) = 53).
    { apply digits2_pos_unique; [lia |]. change (53 - 1) with 52. lia. }
    rewrite Hdq. lia.
Qed.

Lemma posNormal_rounds : forall f, posNormal f -> rounds (SF2R f) f.
Proof.
  intros f Hf. split; [exact Hf |].
  destruct (SF2R_posNormal f Hf) as (m & e & -> & Hd & He & Hv & Hm).
  exists e, (Zpos m). split; [lia |]. split; [apply posNormal_bounds; exact Hd |].
  split; [| exact Hv].
  rewrite Hv. rewrite Rmult_assoc, pow2_cancel, Rmult_1_r.
  rewrite Rminus_diag. rewrite Rabs_R0. lra.
Qed.

Lemma isPosZero_value : forall f, isPosZero f -> floatValue f = 0%R.
Proof. intros f H. unfold floatValue. rewrite H. reflexivity. Qed.

Lemma isPosNormal_value : forall f, isPosNormal f -> (0 < floatValue f)%R.
Proof. intros f H. apply (rounds_pos _ _ (posNormal_rounds _ H)). Qed.

Lemma zeroOrNormal_value : forall f, zeroOrNormal f -> (0 <= floatValue f)%R.
Proof.
  intros f [H | H]; [rewrite (isPosZero_value f H); lra |].
  pose proof (isPosNormal_value f H). lra.
Qed.

Lemma zeroOrNormal_zero_iff :
  forall f, zeroOrNormal f -> (floatValue f = 0%R <-> isPosZero f).
Proof.
  intros f [H | H]; split; intros H'; try assumption.
  - apply isPosZero_value. exact H.
  - pose proof (isPosNormal_value f H). lra.
  - apply isPosZero_value. exact H'.
Qed.

Lemma zeroOrNormal_pos_normal :
  forall f, zeroOrNormal f -> (0 < floatValue f)%R -> isPosNormal f.
Proof.
  intros f [H | H] Hp; [| exact H]. rewrite (isPosZero_value f H) in Hp. lra.
Qed.

Lemma approx_zeroOrNormal : forall x f, approx x f -> zeroOrNormal f.
Proof. intros x f [[_ H] | [H _]]; [left | right]; exact H. Qed.

Lemma approx_rel :
  forall x f, approx x f -> (Rabs (floatValue f - x) <= pow2 (- 53) * x)%R.
Proof.
  intros x f [[-> H] | H].
  - rewrite (isPosZero_value f H). rewrite Rminus_diag, Rabs_R0. lra.
  - apply rounds_rel. exact H.
Qed.

Lemma approx_bounds :
  forall x f, approx x f ->
    ((1 - pow2 (- 53)) * x <= floatValue f <= (1 + pow2 (- 53)) * x)%R /\ (0 <= x)%R.
Proof.
  intros x f H. pose proof (approx_rel x f H) as Hr. apply Rabs_le_inv in Hr.
  split; [lra |]. destruct H as [[-> _] | H]; [lra |].
  pose proof (rounds_pos _ _ H). lra.
Qed.

Lemma approx_zero : forall x f, approx x f -> (x = 0%R <-> floatValue f = 0%R).
Proof.
  intros x f [[-> H] | H].
  - rewrite (isPosZero_value f H). tauto.
  - pose proof (rounds_pos _ _ H) as [H1 H2]. unfold floatValue. split; lra.
Qed.

Lemma approx_ge_pow2 :
  forall x f p, approx x f -> (pow2 p <= x)%R -> (pow2 p <= floatValue f)%R.
Proof.
  intros x f p [[-> H] | H] Hp.
  - pose proof (pow2_pos p). lra.
  - apply (rounds_ge_pow2 x _ p H Hp).
Qed.

Lemma approx_le_pow2 :
  forall x f p, approx x f -> (x <= pow2 p)%R -> (floatValue f <= pow2 p)%R.
Proof.
  intros x f p [[-> H] | H] Hp.
  - rewrite (isPosZero_value f H). exact Hp.
  - apply (rounds_le_pow2 x _ p H Hp).
Qed.

Lemma approx_stagnate :
  forall x f, approx x f -> (x < pow2 53 + 1)%R -> (floatValue f <= pow2 53)%R.
Proof.
  intros x f [[-> H] | H] Hp.
  - rewrite (isPosZero_value f H). pose proof (pow2_pos 53). lra.
  - apply (rounds_stagnate x _ H Hp).
Qed.

Lemma fadd_approx :
  forall a b : float,
    zeroOrNormal a -> zeroOrNormal b ->
    (floatValue a + floatValue b <= pow2 1000)%R ->
    approx (floatValue a + floatValue b) (a + b).
Proof.
  intros a b Ha Hb Hrange. unfold approx, isPosZero, floatValue in *.
  rewrite FloatAxioms.add_spec. unfold SF64add.
  destruct Ha as [Ha | Ha], Hb as [Hb | Hb]; unfold isPosZero, isPosNormal in *.
  - left. rewrite Ha, Hb. cbn. split; [lra | reflexivity].
  - right. rewrite Ha. destruct Hb as (m & e & Hb & Hd & He). rewrite Hb.
    cbn [SFadd SF2R]. rewrite Rplus_0_l.
    apply (posNormal_rounds (S754_finite false m e)). exists m, e. auto.
  - right. rewrite Hb. destruct Ha as (m & e & Ha & Hd & He). rewrite Ha.
    cbn [SFadd SF2R]. rewrite Rplus_0_r.
    apply (posNormal_rounds (S754_finite false m e)). exists m, e. auto.
  - right. apply SFadd_rounds; assumption.
Qed.

Lemma fmul_approx :
  forall a b : float,
    zeroOrNormal a -> zeroOrNormal b ->
    (floatValue a * floatValue b = 0
     \/ pow2 (- 1022) <= floatValue a * floatValue b <= pow2 1000)%R ->
    approx (floatValue a * floatValue b) (a * b).
Proof.
  intros a b Ha Hb Hrange. unfold approx, isPosZero, floatValue in *.
  rewrite FloatAxioms.mul_spec. unfold SF64mul.
  destruct Ha as [Ha | Ha], Hb as [Hb | Hb]; unfold isPosZero, isPosNormal in *.
  - left. rewrite Ha, Hb. cbn. split; [lra | reflexivity].
  - left. rewrite Ha. destruct Hb as (m & e & Hb & Hd & He). rewrite Hb.
    cbn. split; [lra | reflexivity].
  - left. rewrite Hb. destruct Ha as (m & e & Ha & Hd & He). rewrite Ha.
    cbn. split; [lra | reflexivity].
  - right. apply SFmul_rounds; try assumption.
    destruct Hrange as [H0 | H]; [| exact H].
    pose proof (rounds_pos _ _ (posNormal_rounds _ Ha)) as [H1 _].
    pose proof (rounds_pos _ _ (posNormal_rounds _ Hb)) as [H2 _]. nra.
Qed.

Lemma fdiv_approx :
  forall a b : float,
    zeroOrNormal a -> isPosNormal b ->
    (floatValue a = 0
     \/ pow2 (- 1000) <= floatValue a / floatValue b <= pow2 1000)%R ->
    approx (floatValue a / floatValue b) (a / b).
Proof.
  intros a b Ha Hb Hrange. unfold approx, isPosZero, floatValue in *.
  rewrite FloatAxioms.div_spec. unfold SF64div.
  destruct Ha as [Ha | Ha]; unfold isPosZero, isPosNormal in *.
  - left. rewrite Ha. destruct Hb as (m & e & Hb & Hd & He). rewrite Hb.
    cbn. split; [unfold Rdiv; lra | reflexivity].
  - right. apply SFdiv_rounds; try assumption.
    destruct Hrange as [H0 | H]; [| exact H].
    pose proof (rounds_pos _ _ (posNormal_rounds _ Ha)) as [H1 _]. lra.
Qed.

Lemma fsqrt_approx :
  forall a : float, zeroOrNormal a -> approx (R_sqrt.sqrt (floatValue a)) (PrimFloat.sqrt a).
Proof.
  intros a Ha. unfold approx, isPosZero, floatValue in *.
  rewrite FloatAxioms.sqrt_spec. unfold SF64sqrt.
  destruct Ha as [Ha | Ha]; unfold isPosZero, isPosNormal in *.
  - left. rewrite Ha. cbn. split; [apply sqrt_0 | reflexivity].
  - right. apply SFsqrt_rounds. exact Ha.
Qed.

(** ** The embedder on doubles *)

Lemma ulp53_bounds : (0 < ulp53 <= / 9000000000000000)%R.
Proof.
  unfold ulp53. split; [apply pow2_pos |].
  change (pow2 (- 53)) with (pow2 (Z.opp 53)).
  rewrite pow2_opp. rewrite pow2_IZR by lia.
  apply Rinv_le_contravar; [lra |]. apply IZR_le. cbn. lia.
Qed.

Lemma pow_le_linear :
  forall (x : R) (n : nat),
    (0 <= x)%R -> (2 * INR n * x <= 1)%R -> ((1 + x) ^ n <= 1 + 2 * INR n * x)%R.
Proof.
  intros x n Hx. induction n as [| n IH]; intros Hn.
  - cbn. lra.
  - rewrite S_INR in *. cbn [pow].
    assert (Hn' : (2 * INR n * x <= 1)%R) by nra.
    specialize (IH Hn'). pose proof (pos_INR n). nra.
Qed.

Lemma pow_ge_linear :
  forall (x : R) (n : nat),
    (0 <= x <= 1)%R -> (1 - INR n * x <= (1 - x) ^ n)%R.
Proof.
  intros x n Hx. induction n as [| n IH].
  - cbn. lra.
  - rewrite S_INR. cbn [pow]. pose proof (pos_INR n). nra.
Qed.

Lemma pow_ge_1 : forall (x : R) (n : nat), (0 <= x)%R -> (1 <= (1 + x) ^ n)%R.
Proof. intros x n Hx. apply pow_R1_Rle. lra. Qed.

Lemma pow_le_1 : forall (x : R) (n : nat), (0 <= x <= 1)%R -> (0 < 1 - x -> 0 < (1 - x) ^ n <= 1)%R.
Proof.
  intros x n Hx Hp. split; [apply pow_lt; exact Hp |].
  induction n as [| n IH]; cbn [pow]; [lra |].
  assert (0 < (1 - x) ^ n)%R by (apply pow_lt; exact Hp). nra.
Qed.

Lemma componentInRange_square :
  forall c, componentInRange c ->
    approx (floatValue c * floatValue c) (c * c) /\
    (0 <= floatValue c * floatValue c <= pow2 106)%R /\
    (floatValue c = 0 \/ pow2 (- 20) <= floatValue c * floatValue c)%R.
Proof.
  intros c [Hn Hv].
  assert (H106 : pow2 106 = (pow2 53 * pow2 53)%R) by (rewrite <- pow2_add; reflexivity).
  assert (H20 : pow2 (- 20) = (pow2 (- 10) * pow2 (- 10))%R) by (rewrite <- pow2_add; reflexivity).
  pose proof (pow2_pos 53) as P53. pose proof (pow2_pos (- 10)) as P10.
  assert (Hsq : (0 <= floatValue c * floatValue c <= pow2 106)%R).
  { rewrite H106. destruct Hv as [Hv | Hv].
    - rewrite Hv. nra.
    - split; [nra | apply Rmult_le_compat; lra]. }
  assert (Hlo : (floatValue c = 0 \/ pow2 (- 20) <= floatValue c * floatValue c)%R).
  { destruct Hv as [Hv | Hv]; [left; exact Hv | right]. rewrite H20.
    apply Rmult_le_compat; lra. }
  split; [| split; assumption].
  apply fmul_approx; try assumption.
  destruct Hlo as [H0 | Hlo]; [left; rewrite H0; ring | right]. split.
  - apply Rle_trans with (pow2 (- 20)); [apply pow2_le; lia | exact Hlo].
  - apply Rle_trans with (pow2 106); [apply Hsq | apply pow2_le; lia].
Qed.

Lemma sumSq_nonneg : forall v, (0 <= sumSq v)%R.
Proof. unfold sumSq. induction v as [| x v IH]; cbn [fold_right]; nra. Qed.

Lemma pow_double_succ :
  forall (x : R) (n : nat), (x ^ (2 * S n) = x * x * x ^ (2 * n))%R.
Proof.
  intros x n. replace (2 * S n)%nat with (S (S (2 * n))) by lia. cbn [pow]. ring.
Qed.

Lemma sumSquares_fold_float :
  forall (v : list float) (acc : float) (A lo hi : R),
    Forall componentInRange v -> zeroOrNormal acc ->
    (0 <= A)%R -> (0 < lo <= 1)%R -> (1 <= hi)%R ->
    (hi * (1 + ulp53) ^ (2 * List.length v) <= 2)%R ->
    (A + sumSq (map floatValue v) <= pow2 120)%R ->
    (lo * A <= floatValue acc <= hi * A)%R ->
    let r := fold_left (fun sum val => PrimFloat.add sum (PrimFloat.mul val val)) v acc in
    zeroOrNormal r /\
    (lo * (1 - ulp53) ^ (2 * List.length v) * (A + sumSq (map floatValue v))
     <= floatValue r
     <= hi * (1 + ulp53) ^ (2 * List.length v) * (A + sumSq (map floatValue v)))%R.
Proof.
  pose proof ulp53_bounds as Hu.
  induction v as [| c v IH]; intros acc A lo hi Hgood Hacc HA Hlo Hhi Hcap Hsum Hbnd r.
  - subst r. cbn. split; [exact Hacc |]. rewrite !Rmult_1_r, Rplus_0_r. exact Hbnd.
  - subst r. cbn [fold_left]. cbn [map sumSq fold_right List.length] in *.
    fold (sumSq (map floatValue v)) in *.
    pose proof (sumSq_nonneg (map floatValue v)) as HS.
    inversion Hgood as [| ? ? Hc Hv]; subst.
    destruct (componentInRange_square c Hc) as (Hq & Hqr & _).
    set (x2 := (floatValue c * floatValue c)%R) in *.
    pose proof (approx_bounds _ _ Hq) as [Hqb _].
    pose proof (approx_zeroOrNormal _ _ Hq) as Hqn.
    fold ulp53 in Hqb.
    rewrite pow_double_succ in Hcap.
    pose proof (pow_ge_1 ulp53 (2 * List.length v) ltac:(lra)) as HP1.
    set (P := ((1 + ulp53) ^ (2 * List.length v))%R) in *.
    assert (HQ : (1 <= (1 + ulp53) * (1 + ulp53))%R) by nra.
    assert (HQP : (1 <= (1 + ulp53) * (1 + ulp53) * P)%R) by nra.
    assert (Hhi2 : (hi <= 2)%R).
    { apply Rle_trans with (2 := Hcap).
      rewrite <- (Rmult_1_r hi) at 1. apply Rmult_le_compat_l; lra. }
    assert (P120 : (0 < pow2 120)%R) by apply pow2_pos.
    assert (Hrange : (floatValue acc + floatValue (c * c) <= pow2 1000)%R).
    { apply Rle_trans with (pow2 123); [| apply pow2_le; lia].
      change 123 with (120 + 3). rewrite pow2_add. change (pow2 3) with (2 * (2 * (2 * 1)))%R.
      nra. }
    pose proof (fadd_approx acc (c * c) Hacc Hqn Hrange) as Hs.
    pose proof (approx_bounds _ _ Hs) as [Hsb _]. fold ulp53 in Hsb.
    pose proof (approx_zeroOrNormal _ _ Hs) as Hsn.
    specialize (IH (acc + c * c)%float (A + x2)%R
                   (lo * ((1 - ulp53) * (1 - ulp53)))%R (hi * ((1 + ulp53) * (1 + ulp53)))%R
                   Hv Hsn).
    assert (Hl1 : (0 < (1 - ulp53) * (1 - ulp53) <= 1)%R) by nra.
    assert (Hh1 : (1 <= (1 + ulp53) * (1 + ulp53))%R) by nra.
    destruct IH as [IHn IHb].
    + lra.
    + nra.
    + nra.
    + fold P. nra.
    + lra.
    + split.
      * apply Rle_trans with ((1 - ulp53) * (floatValue acc + floatValue (c * c)))%R; [| lra].
        apply Rle_trans with ((1 - ulp53) * (lo * A + (1 - ulp53) * x2))%R.
        -- assert (T1 : (0 <= (1 - ulp53) * (lo * A * ulp53))%R)
             by (repeat apply Rmult_le_pos; lra).
           assert (T2 : (0 <= (1 - ulp53) * ((1 - ulp53) * x2 * (1 - lo)))%R)
             by (apply Rmult_le_pos; [lra | apply Rmult_le_pos; [apply Rmult_le_pos; lra | lra]]).
           assert (E : ((1 - ulp53) * (lo * A + (1 - ulp53) * x2)
                        - lo * ((1 - ulp53) * (1 - ulp53)) * (A + x2)
                        = (1 - ulp53) * (lo * A * ulp53)
                          + (1 - ulp53) * ((1 - ulp53) * x2 * (1 - lo)))%R) by ring.
           lra.
        -- apply Rmult_le_compat_l; lra.
      * apply Rle_trans with ((1 + ulp53) * (floatValue acc + floatValue (c * c)))%R; [lra |].
        apply Rle_trans with ((1 + ulp53) * (hi * A + (1 + ulp53) * x2))%R.
        -- apply Rmult_le_compat_l; lra.
        -- assert (T1 : (0 <= (1 + ulp53) * (hi * A * ulp53))%R)
             by (repeat apply Rmult_le_pos; lra).
           assert (T2 : (0 <= (1 + ulp53) * ((1 + ulp53) * x2 * (hi - 1)))%R)
             by (apply Rmult_le_pos; [lra | apply Rmult_le_pos; [apply Rmult_le_pos; lra | lra]]).
           assert (E : (hi * ((1 + ulp53) * (1 + ulp53)) * (A + x2)
                        - (1 + ulp53) * (hi * A + (1 + ulp53) * x2)
                        = (1 + ulp53) * (hi * A * ulp53)
                          + (1 + ulp53) * ((1 + ulp53) * x2 * (hi - 1)))%R) by ring.
           lra.
    + split; [exact IHn |]. subst P.
      rewrite !pow_double_succ.
      replace (A + (x2 + sumSq (map floatValue v)))%R
        with (A + x2 + sumSq (map floatValue v))%R by ring.
      split; [apply Rle_trans with (2 := proj1 IHb) | apply Rle_trans with (1 := proj2 IHb)];
        apply Req_le; ring.
Qed.

Lemma sumSq_upper :
  forall v, Forall componentInRange v ->
    (sumSq (map floatValue v) <= INR (List.length v) * pow2 106)%R.
Proof.
  induction v as [| c v IH]; intros Hgood.
  - cbn. lra.
  - inversion Hgood as [| ? ? Hc Hv]; subst. specialize (IH Hv).
    destruct (componentInRange_square c Hc) as (_ & Hq & _).
    cbn [map sumSq fold_right List.length]. fold (sumSq (map floatValue v)).
    rewrite S_INR. lra.
Qed.

Lemma sumSq_lower :
  forall v, Forall componentInRange v ->
    (0 < sumSq (map floatValue v))%R -> (pow2 (- 20) <= sumSq (map floatValue v))%R.
Proof.
  induction v as [| c v IH]; intros Hgood Hpos.
  - cbn in Hpos. lra.
  - inversion Hgood as [| ? ? Hc Hv]; subst.
    destruct (componentInRange_square c Hc) as (_ & Hq & Hlo).
    cbn [map sumSq fold_right] in *. fold (sumSq (map floatValue v)) in *.
    pose proof (sumSq_nonneg (map floatValue v)) as HS.
    destruct Hlo as [H0 | Hlo]; [| lra].
    rewrite H0 in *. specialize (IH Hv ltac:(lra)). lra.
Qed.

Lemma normalized_components :
  forall (m : float) (v : list float),
    isPosNormal m ->
    (pow2 (- 12) <= floatValue m <= pow2 62)%R ->
    Forall componentInRange v ->
    let r := map (fun val => PrimFloat.div val m) v in
    Forall zeroOrNormal r /\
    ((1 - ulp53) * (1 - ulp53) * sumSq (map floatValue v)
     <= sumSq (map floatValue r) * (floatValue m * floatValue m)
     <= (1 + ulp53) * (1 + ulp53) * sumSq (map floatValue v))%R.
Proof.
  intros m v Hm Hmu Hgood r. subst r. pose proof ulp53_bounds as Hu.
  pose proof (pow2_pos (- 12)) as P12.
  set (mu := floatValue m) in *.
  induction v as [| c v IH].
  - cbn. split; [constructor | lra].
  - inversion Hgood as [| ? ? Hc Hv]; subst. destruct (IH Hv) as [IHn IHb].
    cbn [map sumSq fold_right] in *.
    fold (sumSq (map floatValue v)) in *.
    fold (sumSq (map floatValue (map (fun val => PrimFloat.div val m) v))) in *.
    destruct Hc as [Hcn Hcv].
    assert (Happ : approx (floatValue c / mu) (c / m)).
    { apply fdiv_approx; try assumption. fold mu.
      destruct Hcv as [H0 | Hcv]; [left; exact H0 | right]. split.
      - apply Rle_trans with (pow2 (- 72)); [apply pow2_le; lia |].
        apply Rdiv_le_r; [lra |].
        apply Rle_trans with (pow2 (- 72) * pow2 62)%R; [| rewrite <- pow2_add; apply Hcv].
        pose proof (pow2_pos (- 72)). apply Rmult_le_compat_l; lra.
      - apply Rle_trans with (pow2 65); [| apply pow2_le; lia].
        apply Rdiv_le_l; [lra |].
        apply Rle_trans with (pow2 65 * pow2 (- 12))%R; [rewrite <- pow2_add; apply Hcv |].
        pose proof (pow2_pos 65). apply Rmult_le_compat_l; lra. }
    split; [constructor; [apply (approx_zeroOrNormal _ _ Happ) | exact IHn] |].
    pose proof (approx_bounds _ _ Happ) as [Hb _]. fold ulp53 in Hb.
    pose proof (zeroOrNormal_value c Hcn) as Hx.
    set (x := floatValue c) in *. set (rho := floatValue (c / m)) in *.
    assert (Hrm : ((1 - ulp53) * x <= rho * mu <= (1 + ulp53) * x)%R).
    { assert (E : (x / mu * mu = x)%R) by (field; lra).
      split.
      - replace ((1 - ulp53) * x)%R with ((1 - ulp53) * (x / mu) * mu)%R
          by (rewrite Rmult_assoc, E; reflexivity).
        apply Rmult_le_compat_r; lra.
      - replace ((1 + ulp53) * x)%R with ((1 + ulp53) * (x / mu) * mu)%R
          by (rewrite Rmult_assoc, E; reflexivity).
        apply Rmult_le_compat_r; lra. }
    assert (Hsq : ((1 - ulp53) * (1 - ulp53) * (x * x) <= rho * rho * (mu * mu)
                   <= (1 + ulp53) * (1 + ulp53) * (x * x))%R).
    { assert (H0 : (0 <= (1 - ulp53) * x)%R) by (apply Rmult_le_pos; lra).
      split.
      - replace ((1 - ulp53) * (1 - ulp53) * (x * x))%R
          with (((1 - ulp53) * x) * ((1 - ulp53) * x))%R by ring.
        replace (rho * rho * (mu * mu))%R with ((rho * mu) * (rho * mu))%R by ring.
        apply Rmult_le_compat; lra.
      - replace ((1 + ulp53) * (1 + ulp53) * (x * x))%R
          with (((1 + ulp53) * x) * ((1 + ulp53) * x))%R by ring.
        replace (rho * rho * (mu * mu))%R with ((rho * mu) * (rho * mu))%R by ring.
        apply Rmult_le_compat; lra. }
    lra.
Qed.

Lemma sqrt_ge_pow2 :
  forall (x : R) (p : Z), (pow2 (2 * p) <= x)%R -> (pow2 p <= R_sqrt.sqrt x)%R.
Proof.
  intros x p H. pose proof (pow2_pos p) as Hp.
  rewrite <- (sqrt_square (pow2 p)) by lra. apply sqrt_le_1_alt.
  rewrite <- pow2_add. replace (p + p) with (2 * p) by lia. exact H.
Qed.

Lemma sqrt_le_pow2 :
  forall (x : R) (p : Z), (x <= pow2 (2 * p))%R -> (R_sqrt.sqrt x <= pow2 p)%R.
Proof.
  intros x p H. pose proof (pow2_pos p) as Hp.
  rewrite <- (sqrt_square (pow2 p)) by lra. apply sqrt_le_1_alt.
  rewrite <- pow2_add. replace (p + p) with (2 * p) by lia. exact H.
Qed.

Lemma normalize_norm_float :
  forall v : list float,
    (List.length v <= 384)%nat ->
    Forall componentInRange v ->
    (0 < sumSq (map floatValue v))%R ->
    Forall zeroOrNormal (@normalize float floatNum v) /\
    (Rabs (euclideanNorm (map floatValue (@normalize float floatNum v)) - 1)
     <= / 1000000000)%R.
Proof.
  intros v Hlen Hgood Hpos. pose proof ulp53_bounds as Hu.
  unfold normalize, magnitude, sumSquares. cbn [ndiv nsqrt nadd nmul nzero floatNum].
  set (S := sumSq (map floatValue v)) in *.
  set (a := fold_left (fun sum val => PrimFloat.add sum (PrimFloat.mul val val)) v 0%float).
  assert (Hn : (INR (2 * List.length v) <= 768)%R).
  { rewrite INR_IZR_INZ. apply IZR_le. lia. }
  pose proof (pos_INR (2 * List.length v)) as Hn0'.
  assert (Hnu : (INR (2 * List.length v) * ulp53 <= 768 * / 9000000000000000)%R)
    by (apply Rmult_le_compat; lra).
  pose proof (pow_le_linear ulp53 (2 * List.length v) ltac:(lra) ltac:(lra)) as HU.
  pose proof (pow_ge_linear ulp53 (2 * List.length v) ltac:(lra)) as HL.
  pose proof (pow_ge_1 ulp53 (2 * List.length v) ltac:(lra)) as HU1.
  pose proof (pow_le_1 ulp53 (2 * List.length v) ltac:(lra) ltac:(lra)) as HL1.
  pose proof (pos_INR (2 * List.length v)) as Hn0.
  set (U := ((1 + ulp53) ^ (2 * List.length v))%R) in *.
  set (L := ((1 - ulp53) ^ (2 * List.length v))%R) in *.
  assert (HSup : (S <= pow2 115)%R).
  { pose proof (sumSq_upper v Hgood) as H. fold S in H.
    assert (Hl : (INR (List.length v) <= 512)%R).
    { rewrite INR_IZR_INZ. apply IZR_le. lia. }
    change 115 with (9 + 106). rewrite pow2_add. rewrite (pow2_IZR 9) by lia.
    change (2 ^ 9) with 512. pose proof (pow2_pos 106). nra. }
  pose proof (sumSq_lower v Hgood Hpos) as HSlo. fold S in HSlo.
  assert (Hzero : zeroOrNormal 0%float) by (left; reflexivity).
  assert (Hz0 : floatValue 0%float = 0%R) by reflexivity.
  assert (Hcap : (1 * (1 + ulp53) ^ (2 * List.length v) <= 2)%R) by (fold U; lra).
  assert (Hsum120 : (0 + sumSq (map floatValue v) <= pow2 120)%R).
  { fold S. rewrite Rplus_0_l.
    apply Rle_trans with (pow2 115); [exact HSup | apply pow2_le; lia]. }
  assert (Hinit : (1 * 0 <= floatValue 0%float <= 1 * 0)%R) by (rewrite Hz0; lra).
  destruct (sumSquares_fold_float v 0%float 0%R 1%R 1%R Hgood Hzero
              ltac:(lra) ltac:(lra) ltac:(lra) Hcap Hsum120 Hinit) as [Han Hab].
  fold a in Han, Hab. fold S U L in Hab. rewrite Rplus_0_l, !Rmult_1_l in Hab.
  set (fa := floatValue a) in *.
  assert (Hfa : (pow2 (- 22) <= fa <= pow2 116)%R).
  { split.
    - apply Rle_trans with (L * S)%R; [| apply Hab].
      change (- 22) with (- 2 + - 20). rewrite pow2_add.
      change (pow2 (- 2)) with (/ (2 * (2 * 1)))%R.
      pose proof (pow2_pos (- 20)). apply Rmult_le_compat; lra.
    - apply Rle_trans with (U * S)%R; [apply Hab |].
      change 116 with (1 + 115). rewrite pow2_add. change (pow2 1) with (2 * 1)%R.
      apply Rmult_le_compat; lra. }
  pose proof (fsqrt_approx a Han) as Hm. fold fa in Hm.
  set (sa := R_sqrt.sqrt fa) in *.
  set (m := PrimFloat.sqrt a) in *.
  pose proof (pow2_pos (- 22)) as P22.
  assert (Hsa2 : (sa * sa = fa)%R) by (apply sqrt_sqrt; lra).
  assert (Hsa : (pow2 (- 11) <= sa <= pow2 58)%R).
  { split; [apply sqrt_ge_pow2 | apply sqrt_le_pow2]; apply Hfa. }
  pose proof (pow2_pos (- 11)) as P11.
  pose proof (approx_bounds _ _ Hm) as [Hmb _]. fold ulp53 in Hmb.
  pose proof (approx_ge_pow2 _ _ (- 11) Hm (proj1 Hsa)) as Hmlo.
  pose proof (approx_le_pow2 _ _ 58 Hm (proj2 Hsa)) as Hmhi.
  set (mu := floatValue m) in *.
  assert (Hmn : isPosNormal m).
  { apply zeroOrNormal_pos_normal; [apply (approx_zeroOrNormal _ _ Hm) | fold mu; lra]. }
  destruct (normalized_components m v Hmn) as [Hrn Hrb]; [| exact Hgood |].
  { fold mu. split.
    - apply Rle_trans with (pow2 (- 11)); [apply pow2_le; lia | exact Hmlo].
    - apply Rle_trans with (pow2 58); [exact Hmhi | apply pow2_le; lia]. }
  split; [exact Hrn |].
  fold mu S in Hrb.
  set (N2 := sumSq (map floatValue (map (fun val => PrimFloat.div val m) v))) in *.
  unfold euclideanNorm. fold N2.
  assert (Hmu2 : ((1 - ulp53) * (1 - ulp53) * fa <= mu * mu
                  <= (1 + ulp53) * (1 + ulp53) * fa)%R).
  { assert (H0 : (0 <= (1 - ulp53) * sa)%R) by (apply Rmult_le_pos; lra).
    rewrite <- Hsa2. split.
    - replace ((1 - ulp53) * (1 - ulp53) * (sa * sa))%R
        with (((1 - ulp53) * sa) * ((1 - ulp53) * sa))%R by ring.
      apply Rmult_le_compat; lra.
    - replace ((1 + ulp53) * (1 + ulp53) * (sa * sa))%R
        with (((1 + ulp53) * sa) * ((1 + ulp53) * sa))%R by ring.
      apply Rmult_le_compat; lra. }
  assert (HN2 : (0 <= N2)%R) by apply sumSq_nonneg.
  assert (Hmupos : (0 < mu * mu)%R) by nra.
  (* N2 * mu^2 is within (1 +- u)^2 S, and mu^2 within (1 +- u)^2 (L..U) S *)
  set (d1 := ((1 - ulp53) * (1 - ulp53))%R) in *.
  set (d2 := ((1 + ulp53) * (1 + ulp53))%R) in *.
  assert (Hd1 : (1 - / 1000000000000 <= d1 <= 1)%R) by (unfold d1; nra).
  assert (Hd2 : (1 <= d2 <= 1 + / 1000000000000)%R) by (unfold d2; nra).
  assert (HLb : (1 - / 1000000000000 <= L <= 1)%R) by lra.
  assert (HUb : (1 <= U <= 1 + / 1000000000000)%R) by lra.
  assert (Hlow : (d1 * S <= N2 * (d2 * (U * S)))%R).
  { apply Rle_trans with (N2 * (mu * mu))%R; [apply Hrb |].
    apply Rmult_le_compat_l; [exact HN2 |].
    apply Rle_trans with (d2 * fa)%R; [apply Hmu2 |].
    apply Rmult_le_compat_l; lra. }
  assert (Hupp : (N2 * (d1 * (L * S)) <= d2 * S)%R).
  { apply Rle_trans with (N2 * (mu * mu))%R; [| apply Hrb].
    apply Rmult_le_compat_l; [exact HN2 |].
    apply Rle_trans with (d1 * fa)%R; [| apply Hmu2].
    apply Rmult_le_compat_l; lra. }
  assert (Hlow' : (d1 <= N2 * (d2 * U))%R).
  { apply Rmult_le_reg_r with S; [exact Hpos |]. lra. }
  assert (Hupp' : (N2 * (d1 * L) <= d2)%R).
  { apply Rmult_le_reg_r with S; [exact Hpos |]. lra. }
  assert (Hd2U : (1 <= d2 * U <= 1 + / 100000000000)%R) by nra.
  assert (Hd1L : (1 - / 100000000000 <= d1 * L <= 1)%R) by nra.
  assert (HN2b : (1 - / 1000000000 <= N2 <= 1 + / 1000000000)%R) by nra.
  replace N2 with (1 + (N2 - 1))%R by ring.
  apply Rle_trans with (Rabs (N2 - 1)).
  - apply sqrt_var_maj. apply Rabs_le. lra.
  - apply Rabs_le. lra.
Qed.

Lemma incrementInRange_spec :
  forall y : float,
    incrementInRange (Prim2SF y) = true ->
    zeroOrNormal y /\ (floatValue y = 0 \/ pow2 (- 10) <= floatValue y)%R /\ (floatValue y < 1)%R.
Proof.
  intros y H. unfold zeroOrNormal, isPosZero, isPosNormal, floatValue.
  destruct (Prim2SF y) as [[] | | | [] m e]; try discriminate.
  - split; [left; reflexivity |]. cbn. split; [left; reflexivity | lra].
  - cbn [incrementInRange] in H.
    apply andb_true_iff in H. destruct H as [H He2].
    apply andb_true_iff in H. destruct H as [Hd He1].
    apply Pos.eqb_eq in Hd. apply Z.leb_le in He1, He2.
    split; [right; exists m, e; repeat split; try assumption; lia |].
    pose proof (posNormal_bounds m e Hd) as [Hlo Hhi]. cbn [SF2R cond_Zopp].
    split.
    + right. apply Rle_trans with (pow2 (52 + e)); [apply pow2_le; lia | exact Hlo].
    + apply Rlt_le_trans with (pow2 (53 + e)); [exact Hhi |].
      change 1%R with (pow2 0). apply pow2_le. lia.
Qed.

Lemma normalized_values :
  forallb (fun k => incrementInRange
                      (Prim2SF (PrimFloat.div (floatOfZ (Z.of_nat k)) (floatOfZ 1000))))
          (List.seq 0%nat 1000%nat) = true.
Proof. vm_compute. reflexivity. Qed.

Lemma normalized_good :
  forall hash : Z,
    0 <= hash ->
    incrementInRange
      (Prim2SF (@ndiv float floatNum (nofZ (Z.rem hash 1000)) (nofZ 1000))) = true.
Proof.
  intros hash Hh. cbn [ndiv nofZ floatNum].
  pose proof (Z.rem_bound_pos hash 1000 Hh ltac:(lia)) as Hr.
  pose proof normalized_values as Hall. rewrite forallb_forall in Hall.
  specialize (Hall (Z.to_nat (Z.rem hash 1000))).
  rewrite Z2Nat.id in Hall by lia. apply Hall.
  apply in_seq. lia.
Qed.

Lemma simpleHash_nonneg : forall str, 0 <= simpleHash str.
Proof. intros str. unfold simpleHash. apply Z.abs_nonneg. Qed.

Lemma componentInRange_add :
  forall c y : float,
    componentInRange c -> incrementInRange (Prim2SF y) = true -> componentInRange (PrimFloat.add c y).
Proof.
  intros c y [Hcn Hcv] Hy.
  destruct (incrementInRange_spec y Hy) as (Hyn & Hyv & Hy1).
  pose proof (zeroOrNormal_value c Hcn) as Hc0. pose proof (zeroOrNormal_value y Hyn) as Hy0.
  pose proof (pow2_pos 53) as P53. pose proof (pow2_pos (- 10)) as P10.
  assert (Hcle : (floatValue c <= pow2 53)%R) by (destruct Hcv as [-> | Hcv]; lra).
  assert (Hrange : (floatValue c + floatValue y <= pow2 1000)%R).
  { apply Rle_trans with (pow2 54); [| apply pow2_le; lia].
    change 54 with (53 + 1). rewrite pow2_succ. pose proof (pow2_ge1 53 ltac:(lia)). lra. }
  pose proof (fadd_approx c y Hcn Hyn Hrange) as Happ.
  split; [apply (approx_zeroOrNormal _ _ Happ) |].
  destruct (Req_dec (floatValue c + floatValue y) 0) as [H0 | Hne].
  - left. apply (approx_zero _ _ Happ). exact H0.
  - right. split.
    + apply (approx_ge_pow2 _ _ _ Happ).
      destruct Hcv as [Hc | Hc], Hyv as [Hyv | Hyv]; lra.
    + apply (approx_stagnate _ _ Happ). lra.
Qed.

Lemma addAt_good :
  forall (v : list float) (d : nat) (y : float),
    Forall componentInRange v -> incrementInRange (Prim2SF y) = true ->
    Forall componentInRange (@addAt float floatNum d y v).
Proof.
  induction v as [| c v IH]; intros d y Hv Hy.
  - destruct d; constructor.
  - inversion Hv as [| ? ? Hc Hv']; subst.
    destruct d as [| d]; cbn [addAt nadd floatNum].
    + constructor; [apply componentInRange_add; assumption | exact Hv'].
    + constructor; [exact Hc | apply IH; assumption].
Qed.

Lemma accumulateFrom_good :
  forall (ws : list string) (index : nat) (v : list float),
    Forall componentInRange v -> Forall componentInRange (@accumulateFrom float floatNum ws index v).
Proof.
  induction ws as [| w ws IH]; intros index v Hv; cbn [accumulateFrom].
  - exact Hv.
  - apply IH. unfold accumulateWord. apply addAt_good; [exact Hv |].
    apply normalized_good. apply simpleHash_nonneg.
Qed.

Lemma accumulated_good :
  forall s : string,
    Forall componentInRange (@accumulated float floatNum s) /\
    List.length (@accumulated float floatNum s) = 384%nat.
Proof.
  intros s. unfold accumulated. split.
  - apply accumulateFrom_good. apply Forall_forall. intros c Hc.
    apply repeat_spec in Hc. subst c. split; [left; reflexivity |].
    left. reflexivity.
  - rewrite accumulateFrom_length. apply repeat_length.
Qed.

Lemma zeroOrNormal_finite : forall x, zeroOrNormal x -> isFiniteFloat x = true.
Proof.
  intros x [H | (m & e & H & _)]; unfold isFiniteFloat, isPosZero in *; rewrite H; reflexivity.
Qed.

Lemma euclideanNorm_nonzero :
  forall v, euclideanNorm v <> 0%R -> (0 < sumSq v)%R.
Proof.
  intros v H. pose proof (sumSq_nonneg v) as Hn.
  destruct (Req_dec (sumSq v) 0) as [H0 | Hne]; [| lra].
  exfalso. apply H. unfold euclideanNorm. rewrite H0. apply sqrt_0.
Qed.

Lemma unit_norm_float :
  forall s : string,
    euclideanNorm (map floatValue (@accumulated float floatNum s)) <> 0%R ->
    forallb isFiniteFloat (@generateMockEmbedding float floatNum s) = true /\
    (Rabs (euclideanNorm (map floatValue (@generateMockEmbedding float floatNum s)) - 1)
     <= / 1000000000)%R.
Proof.
  intros s Hnz. destruct (accumulated_good s) as [Hgood Hlen].
  unfold generateMockEmbedding.
  destruct (normalize_norm_float (@accumulated float floatNum s)) as [Hn Hb].
  - rewrite Hlen. lia.
  - exact Hgood.
  - apply euclideanNorm_nonzero. exact Hnz.
  - split; [| exact Hb]. apply forallb_forall. intros x Hx.
    rewrite Forall_forall in Hn. apply zeroOrNormal_finite. apply Hn. exact Hx.
Qed.

Lemma sumSquares_from_sumSq :
  forall (v : list R) (acc : R),
    fold_left (fun sum val => sum + val * val)%R v acc = (acc + sumSq v)%R.
Proof.
  unfold sumSq. induction v as [| x v IH]; intros acc; cbn [fold_left fold_right].
  - lra.
  - rewrite IH. ring.
Qed.

Lemma magnitude_euclideanNorm :
  forall v : list R, @magnitude R realNum v = euclideanNorm v.
Proof.
  intros v. unfold magnitude, sumSquares, euclideanNorm.
  cbn [nsqrt nadd nmul nzero realNum]. rewrite sumSquares_from_sumSq.
  f_equal. ring.
Qed.

Lemma sumSq_In : forall (x : R) (v : list R), In x v -> (x * x <= sumSq v)%R.
Proof.
  intros x v. induction v as [| y v IH]; intros Hin.
  - destruct Hin.
  - cbn [sumSq fold_right]. fold (sumSq v). pose proof (sumSq_nonneg v).
    destruct Hin as [-> | Hin]; [lra |]. specialize (IH Hin). nra.
Qed.

Lemma positive_component_norm :
  forall v : list float,
    existsb isPositiveFinite v = true -> euclideanNorm (map floatValue v) <> 0%R.
Proof.
  intros v H. apply existsb_exists in H. destruct H as (c & Hin & Hc).
  assert (Hpos : (0 < floatValue c)%R).
  { unfold isPositiveFinite in Hc. unfold floatValue.
    destruct (Prim2SF c) as [| | | [] m e]; try discriminate.
    cbn [SF2R cond_Zopp]. apply Rmult_lt_0_compat; [apply IZR_lt; lia | apply pow2_pos]. }
  pose proof (sumSq_In (floatValue c) (map floatValue v) (in_map floatValue v c Hin)) as Hle.
  unfold euclideanNorm. apply Rgt_not_eq. apply sqrt_lt_R0. nra.
Qed.

(** C7. For every non-empty string whose accumulated vector has nonzero
    magnitude, the Euclidean norm of its embedding is 1: exactly, when the
    arithmetic of the embedder is that of the real numbers; and within
    1e-9, with every component a finite number, for the program as it is,
    on IEEE doubles.  The norm is the square root of the sum of the
    squares of the components' values. *)
Theorem generateMockEmbedding_unit_norm :
  forall s : string,
    s <> EmptyString ->
    (euclideanNorm (@accumulated R realNum s) <> 0%R ->
     euclideanNorm (@generateMockEmbedding R realNum s) = 1%R) /\
    (euclideanNorm (map floatValue (@accumulated float floatNum s)) <> 0%R ->
     forallb isFiniteFloat (@generateMockEmbedding float floatNum s) = true /\
     (Rabs (euclideanNorm (map floatValue (@generateMockEmbedding float floatNum s)) - 1)
      <= / 1000000000)%R).
Proof.
  intros s _. split.
  - intros Hm. rewrite <- magnitude_euclideanNorm in *.
    unfold generateMockEmbedding. apply normalize_unit_norm. exact Hm.
  - apply unit_norm_float.
Qed.

Lemma generateMockEmbedding_unit_norm_witness :
  "hi" <> EmptyString /\
  euclideanNorm (@generateMockEmbedding R realNum "hi") = 1%R /\
  forallb isFiniteFloat (@generateMockEmbedding float floatNum "hi") = true /\
  (Rabs (euclideanNorm (map floatValue (@generateMockEmbedding float floatNum "hi")) - 1)
   <= / 1000000000)%R.
Proof.
  assert (H0 : "hi" <> EmptyString) by discriminate.
  destruct (generateMockEmbedding_unit_norm "hi" H0) as [HR HF].
  split; [exact H0 |]. split.
  - apply HR. rewrite <- magnitude_euclideanNorm. exact hi_magnitude_nonzero.
  - apply HF. apply positive_component_norm. vm_compute. reflexivity.
Defined.

(** * The requirement loop against its description *)

Lemma oneOf_separators : forall c : ascii, oneOf ",:;" c = isSeparator c.
Proof.
  intros c. destruct c as [[] [] [] [] [] [] [] []]; vm_compute; reflexivity.
Qed.

Lemma allChars_rev :
  forall (P : ascii -> bool) (s : string), allChars P (JsString.rev s) = allChars P s.
Proof.
  intros P s. induction s as [| c s IH].
  - reflexivity.
  - rewrite rev_cons, allChars_app, IH. cbn [allChars]. rewrite andb_true_r, andb_comm.
    reflexivity.
Qed.

Lemma allChars_trimStart :
  forall (P : ascii -> bool) (s : string),
    allChars P s = true -> allChars P (JsString.trimStart s) = true.
Proof.
  intros P s. induction s as [| c s IH]; cbn [JsString.trimStart allChars]; intros H.
  - reflexivity.
  - destruct (JsString.isSpace c).
    + apply andb_true_iff in H. apply IH, H.
    + exact H.
Qed.

Lemma allChars_trim :
  forall (P : ascii -> bool) (s : string),
    allChars P s = true -> allChars P (JsString.trim s) = true.
Proof.
  intros P s H. unfold JsString.trim.
  rewrite allChars_rev. apply allChars_trimStart. rewrite allChars_rev.
  apply allChars_trimStart. exact H.
Qed.

Lemma lowerFixed_spec :
  forall s : string, lowerFixed s = true <-> JsString.toLowerCase s = s.
Proof.
  unfold lowerFixed. induction s as [| c s IH]; cbn [allChars JsString.toLowerCase].
  - tauto.
  - rewrite andb_true_iff, IH. split.
    + intros [Hc Hs]. apply Ascii.eqb_eq in Hc. rewrite Hc, Hs. reflexivity.
    + intros H. injection H as Hc Hs. split; [apply Ascii.eqb_eq; exact Hc | exact Hs].
Qed.

Lemma separatedInto_allChars :
  forall (P : ascii -> bool) (pieces : list string) (r : string),
    separatedInto pieces r -> allChars P r = true ->
    forall piece, In piece pieces -> allChars P piece = true.
Proof.
  intros P pieces r Hsep. induction Hsep as [p Hp | p c rest pieces Hp Hc Hsep IH];
    intros Hall piece Hin.
  - destruct Hin as [<- | []]. exact Hall.
  - rewrite allChars_app in Hall. cbn [allChars] in Hall.
    apply andb_true_iff in Hall. destruct Hall as [H1 H2].
    apply andb_true_iff in H2. destruct H2 as [_ H2].
    destruct Hin as [<- | Hin]; [exact H1 | apply IH; assumption].
Qed.

Lemma splitChars_from_separated :
  forall (s cur : string),
    noSeparator (JsString.rev cur) = true ->
    separatedInto (JsString.splitChars_from (oneOf ",:;") s cur) (JsString.rev cur ++ s).
Proof.
  induction s as [| c s IH]; intros cur Hcur; cbn [JsString.splitChars_from].
  - rewrite append_nil_r_string. apply separated_last. exact Hcur.
  - rewrite oneOf_separators. destruct (isSeparator c) eqn:Hc.
    + apply separated_more; [exact Hcur | exact Hc |].
      apply (IH EmptyString). reflexivity.
    + specialize (IH (String c cur)).
      rewrite rev_cons, append_assoc_string in IH. cbn [append] in IH.
      apply IH. unfold noSeparator in *. rewrite allChars_app, Hcur. cbn [allChars].
      rewrite Hc. reflexivity.
Qed.

Lemma splitChars_separated :
  forall s : string, separatedInto (JsString.splitChars (oneOf ",:;") s) s.
Proof.
  intros s. apply (splitChars_from_separated s EmptyString). reflexivity.
Qed.

Lemma first_separator_unique :
  forall (p p' : string) (c c' : ascii) (rest rest' : string),
    noSeparator p = true -> noSeparator p' = true ->
    isSeparator c = true -> isSeparator c' = true ->
    (p ++ String c rest)%string = (p' ++ String c' rest')%string ->
    p = p' /\ c = c' /\ rest = rest'.
Proof.
  unfold noSeparator.
  induction p as [| x p IH]; intros p' c c' rest rest' Hp Hp' Hc Hc' Heq.
  - destruct p' as [| y p']; cbn [append] in Heq.
    + injection Heq as -> ->. auto.
    + injection Heq as -> _. cbn [allChars] in Hp'. rewrite Hc in Hp'. discriminate.
  - destruct p' as [| y p']; cbn [append] in Heq.
    + injection Heq as -> _. cbn [allChars] in Hp. rewrite Hc' in Hp. discriminate.
    + injection Heq as -> Heq. cbn [allChars] in Hp, Hp'.
      apply andb_true_iff in Hp, Hp'.
      destruct (IH p' c c' rest rest' (proj2 Hp) (proj2 Hp') Hc Hc' Heq) as (-> & -> & ->).
      auto.
Qed.

Lemma separatedInto_functional :
  forall (pieces pieces' : list string) (r : string),
    separatedInto pieces r -> separatedInto pieces' r -> pieces = pieces'.
Proof.
  intros pieces pieces' r Hsep. revert pieces'.
  induction Hsep as [p Hp | p c rest pieces Hp Hc Hsep IH]; intros pieces' Hsep'.
  - inversion Hsep' as [p' Hp' E1 E2 | p' c' rest' ps' Hp' Hc' Hs' E1 E2].
    + reflexivity.
    + exfalso. subst p. unfold noSeparator in Hp. rewrite allChars_app in Hp.
      cbn [allChars] in Hp. rewrite Hc' in Hp. cbn in Hp. rewrite andb_false_r in Hp.
      discriminate.
  - inversion Hsep' as [p' Hp' E1 E2 | p' c' rest' ps' Hp' Hc' Hs' E1 E2].
    + exfalso. subst p'. unfold noSeparator in Hp'. rewrite allChars_app in Hp'.
      cbn [allChars] in Hp'. rewrite Hc in Hp'. cbn in Hp'. rewrite andb_false_r in Hp'.
      discriminate.
    + destruct (first_separator_unique p' p c' c rest' rest Hp' Hp Hc' Hc E2)
        as (-> & -> & ->).
      f_equal. apply IH. exact Hs'.
Qed.

Lemma requirementWords_lower :
  forall r : string,
    JsString.toLowerCase r = r ->
    requirementWords r = map JsString.trim (JsString.splitChars (oneOf ",:;") r).
Proof.
  intros r Hr. unfold requirementWords. apply map_ext_in. intros piece Hin.
  apply lowerFixed_spec. unfold lowerFixed. apply allChars_trim.
  apply (separatedInto_allChars _ _ r (splitChars_separated r)); [| exact Hin].
  apply lowerFixed_spec. exact Hr.
Qed.

Lemma matched_iff_subPhraseFound :
  forall resumeText r : string,
    JsString.toLowerCase r = r ->
    existsb (wordFound resumeText) (requirementWords r) = true
    <-> subPhraseFound resumeText r.
Proof.
  intros resumeText r Hr. rewrite (requirementWords_lower r Hr).
  rewrite existsb_exists. split.
  - intros (word & Hin & Hfound). apply in_map_iff in Hin.
    destruct Hin as (piece & <- & Hin).
    unfold wordFound in Hfound. apply andb_true_iff in Hfound.
    destruct Hfound as [Hlen Hinc]. apply Nat.ltb_lt in Hlen.
    apply includes_spec in Hinc.
    exists (JsString.splitChars (oneOf ",:;") r), piece.
    split; [apply splitChars_separated |]. auto.
  - intros (pieces & piece & Hsep & Hin & Hlen & Hocc).
    rewrite (separatedInto_functional _ _ _ Hsep (splitChars_separated r)) in Hin.
    exists (JsString.trim piece). split; [apply in_map; exact Hin |].
    unfold wordFound. apply andb_true_iff. split; [apply Nat.ltb_lt; exact Hlen |].
    apply includes_spec. exact Hocc.
Qed.

Lemma jobRequirements_lower :
  forall (j : job) (r : string), In r (jobRequirements j) -> JsString.toLowerCase r = r.
Proof.
  intros j r Hin. unfold jobRequirements in Hin. apply in_map_iff in Hin.
  destruct Hin as (r0 & <- & _). apply toLowerCase_idempotent.
Qed.

Lemma filter_length_split :
  forall (A : Type) (f : A -> bool) (l : list A),
    (List.length (filter f l) + List.length (filter (fun x => negb (f x)) l)
     = List.length l)%nat.
Proof.
  intros A f l. induction l as [| x l IH]; cbn [filter List.length].
  - reflexivity.
  - destruct (f x); cbn [negb List.length]; lia.
Qed.

(** C9, as amended.  For every resume, each requirement of the job (lower-
    cased) has exactly one outcome in the loop: one evidence snippet when
    some sub-phrase of it, split at [,], [:] or [;] and trimmed of white
    space, has more than 2 characters and occurs in the lower-cased resume
    text; otherwise one entry, the requirement itself, in the missing list.
    Hence the two arrays before the [slice] calls have as many entries
    together as the job has requirements, the snippets are as many as the
    requirements with such a sub-phrase, and the matched count in the
    keyword score is the number of snippets. *)
Theorem requirement_loop_outcomes :
  forall (j : job) (jobEmbedding : list float) (resume : candidateResume),
    let originalText := cr_text resume in
    let resumeText := JsString.toLowerCase originalText in
    let reqs := match requirements j with
                | Some l => map JsString.toLowerCase l
                | None => []
                end in
    let outcome := scanRequirements originalText (jobRequirements j) in
    (forall (r : string) (evidence missing : list string),
        In r reqs ->
        (subPhraseFound resumeText r /\
         exists snippet,
           scanRequirement originalText resumeText (evidence, missing) r
           = ((evidence ++ [snippet])%list, missing)) \/
        (~ subPhraseFound resumeText r /\
         scanRequirement originalText resumeText (evidence, missing) r
         = (evidence, (missing ++ [r])%list))) /\
    (exists found : string -> bool,
        (forall r, In r reqs -> (found r = true <-> subPhraseFound resumeText r)) /\
        List.length (fst outcome) = List.length (filter found reqs) /\
        snd outcome = filter (fun r => negb (found r)) reqs) /\
    (List.length (fst outcome) + List.length (snd outcome) = List.length reqs)%nat /\
    match_score (matchResume j jobEmbedding resume)
    = clampScore
        (combinedScoreOf (cosineSimilarity jobEmbedding (cr_embedding resume))
           (keywordScoreOf (Z.of_nat (List.length reqs))
                           (Z.of_nat (List.length (fst outcome))))).
Proof.
  intros j jobEmbedding resume originalText resumeText reqs outcome.
  assert (Hreqs : jobRequirements j = reqs).
  { unfold jobRequirements, requirementsArray. subst reqs.
    destruct (requirements j); reflexivity. }
  set (found := fun r => existsb (wordFound resumeText) (requirementWords r)).
  assert (Hfound : forall r, In r reqs -> (found r = true <-> subPhraseFound resumeText r)).
  { intros r Hin. apply matched_iff_subPhraseFound.
    apply (jobRequirements_lower j). rewrite Hreqs. exact Hin. }
  destruct (scanRequirements_fold originalText resumeText (jobRequirements j) [] [])
    as [Hev Hmiss].
  change (fold_left (scanRequirement originalText resumeText) (jobRequirements j) ([], []))
    with outcome in Hev, Hmiss.
  fold found in Hev, Hmiss. rewrite Hreqs in Hev, Hmiss.
  cbn [List.length Nat.add app] in Hev, Hmiss.
  pose proof (filter_length_split _ found reqs) as Hsplit.
  assert (Hsum : (List.length (fst outcome) + List.length (snd outcome)
                  = List.length reqs)%nat).
  { rewrite Hev, Hmiss. exact Hsplit. }
  split; [| split; [| split]].
  - intros r evidence missing Hin. destruct (found r) eqn:Hm.
    + left. split; [apply (Hfound r Hin); exact Hm |].
      apply scanRequirement_matched. exact Hm.
    + right. split.
      * intros H. apply (Hfound r Hin) in H. congruence.
      * apply scanRequirement_missing. exact Hm.
  - exists found. auto.
  - exact Hsum.
  - rewrite matchResume_fields. cbv zeta. cbn [match_score].
    fold originalText. fold outcome. rewrite Hreqs.
    do 3 f_equal. lia.
Qed.

(** C9, as worded.  With the sub-phrases taken as they stand between the
    separators, the description fails: of the requirement [React, Node] the
    sub-phrases are [react] and [ node], neither occurs in the resume text
    [node], and yet the loop records a snippet, since it trims. *)
Lemma untrimmed_sub_phrase_counterexample :
  scanRequirements "node"
    (jobRequirements {| title := "Engineer"; description := "Builds the backend";
                        requirements := Some ["React, Node"] |})
  = (["node"], []) /\
  separatedInto ["react"; " node"] "react, node" /\
  ~ untrimmedPhraseFound "node" "react, node".
Proof.
  assert (Hsep : separatedInto ["react"; " node"] "react, node").
  { apply (separated_more "react" "," " node" [" node"]); try reflexivity.
    apply separated_last. reflexivity. }
  split; [vm_compute; reflexivity |]. split; [exact Hsep |].
  intros (pieces & piece & Hs & Hin & Hlen & Hocc).
  rewrite (separatedInto_functional _ _ _ Hs Hsep) in Hin.
  apply includes_spec in Hocc.
  destruct Hin as [<- | [<- | []]]; vm_compute in Hocc; discriminate.
Qed.

(** * Evidence snippets *)


